(** * EqV2 H-adsorption notebook: post-processing logic

    A shallow embedding of the notebook [notebooks/demo_InDomain_H_ads.ipynb]:
    the minimum-energy selection loop (cell 4), the adsorption-site
    classification helpers [tile_substrate], [classify], [nearest_idx],
    [site_info] (cell 5) and the slab metadata join [shift_top] with its
    cache loop (cell 6).

    Conventions.
    - A finite Python float is the rational it denotes. Quantities that the
      notebook only stores and compares (energies, forces, lengths) are
      plain [Q]. Where the notebook itself computes with floats (the quotient
      in [tile_substrate], the cut-off in [nearest_idx], [float(...)] in
      [shift_top]) the result is rounded to binary64 as Python does, and is
      a [pyfloat], which has the infinities and [NaN]. Signed zeros are not
      distinguished.
    - A Python exception is a value [Raise e] of [result]; statements are
      sequenced with stdpp's bind notation [x ← m; k].
    - Calls into ASE, numpy, fairchem and the Python library ([re], [int],
      [float], [min], [sorted], [str.split]) are section variables or are
      written out from their documented behaviour, as stated at each
      definition. *)

From Stdlib Require Import QArith Qround Qabs Qpower Qreduction Lia Lqa List.
From Stdlib Require Import Sorting.Sorted Sorting.Permutation.
From stdpp Require Import gmap strings list fin_maps.
From Stdlib Require Import Ascii String DecimalString DecimalNat Decimal.

Local Open Scope string_scope.
Local Open Scope list_scope.

(** ** Exceptions *)

Inductive exn : Type :=
| ValueError
| IndexError
| KeyError
| OverflowError
| FileNotFoundError
| TypeError
| AttributeError.

Inductive result (A : Type) : Type :=
| Ok (a : A)
| Raise (e : exn).
Arguments Ok {A} a.
Arguments Raise {A} e.

#[global] Instance result_bind : MBind result := fun A B f m =>
  match m with
  | Ok a => f a
  | Raise e => Raise e
  end.

#[global] Instance result_ret : MRet result := fun A a => Ok a.

(** [for x in xs: acc = body(x, acc)] with exceptions leaving the loop. *)
Fixpoint for_each {A S : Type} (body : A -> S -> result S) (xs : list A) (st : S)
  : result S :=
  match xs with
  | [] => Ok st
  | x :: xs' => st' ← body x st; for_each body xs' st'
  end.

(** ** Double precision

    Python's [float] and numpy's [float64] are IEEE 754 binary64 numbers.
    An arithmetic operation returns the exact result rounded to the nearest
    double, ties to the even mantissa; a result of magnitude [2^1024] or more
    becomes an infinity. *)

Module Double.
Local Open Scope Q_scope.

Inductive pyfloat : Type :=
| PFloat (q : Q)
| PInf
| NInf
| NaN.

Definition pow2 (e : Z) : Q := 2 ^ e.

(** The integer nearest to [y], the even one of two at the same distance. *)
Definition rne (y : Q) : Z :=
  let f := Qfloor y in
  match Qcompare (y - inject_Z f) (1 # 2) with
  | Lt => f
  | Gt => (f + 1)%Z
  | Eq => if Z.even f then f else (f + 1)%Z
  end.

(** The integer part of the binary logarithm of a positive rational. *)
Definition ilog2 (x : Q) : Z :=
  let k := (Z.log2 (Qnum x) - Z.log2 (Zpos (Qden x)))%Z in
  if Qle_bool (pow2 k) x then k else (k - 1)%Z.

(** The exponent of the last mantissa bit: 53 bits, and no exponent below
    that of the subnormal numbers. *)
Definition expo (x : Q) : Z := Z.max (ilog2 x - 52) (-1074).

(** The multiple of [2^expo] nearest to a positive [x]. *)
Definition nearest (x : Q) : Q := inject_Z (rne (x / pow2 (expo x))) * pow2 (expo x).

Definition round_pos (x : Q) : pyfloat :=
  if Qle_bool (pow2 1024) (nearest x) then PInf else PFloat (Qred (nearest x)).

Definition fneg (d : pyfloat) : pyfloat :=
  match d with
  | PFloat q => PFloat (- q)
  | PInf => NInf
  | NInf => PInf
  | NaN => NaN
  end.

(** The double nearest to a rational. *)
Definition round (x : Q) : pyfloat :=
  match Qnum x with
  | Z0 => PFloat 0
  | Zpos _ => round_pos x
  | Zneg _ => fneg (round_pos (- x))
  end.

(** The rational is a double: rounding leaves its value unchanged. *)
Definition is_double (q : Q) : bool :=
  match round q with
  | PFloat q' => Qeq_bool q' q
  | _ => false
  end.

(** A finite [np.float64]. *)
Record float64 : Type := mk_float64 {
  value :> Q;
  representable : is_double value = true
}.

(** [x + y] on finite doubles. *)
Definition fadd (x y : Q) : pyfloat := round (x + y).

(** [x * y] for a finite [x]. *)
Definition fmul (x : Q) (y : pyfloat) : pyfloat :=
  match y with
  | PFloat y' => round (x * y')
  | PInf => if Qeq_bool x 0 then NaN else if Qle_bool 0 x then PInf else NInf
  | NInf => if Qeq_bool x 0 then NaN else if Qle_bool 0 x then NInf else PInf
  | NaN => NaN
  end.

(** [x / y] with a numpy scalar as divisor: a zero divisor gives an infinity,
    or not-a-number when the dividend is zero too, and no exception. *)
Definition fdiv (x y : Q) : pyfloat :=
  if Qeq_bool y 0
  then (if Qeq_bool x 0 then NaN else if Qle_bool 0 x then PInf else NInf)
  else round (x / y).

(** [x <= c] for a finite [x]. *)
Definition le_float (x : Q) (c : pyfloat) : bool :=
  match c with
  | PFloat c' => Qle_bool x c'
  | PInf => true
  | NInf | NaN => false
  end.

(** [math.ceil]: it raises on an infinity and on not-a-number. *)
Definition math_ceil (x : pyfloat) : result Z :=
  match x with
  | PFloat q => Ok (Qceiling q)
  | PInf | NInf => Raise OverflowError
  | NaN => Raise ValueError
  end.

End Double.

(** ** Site classifier (cell 5)

    [classify = {1: "top", 2: "bridge", 3: "3-fold", 4: "4-fold"}.get] *)

Module Classifier.

Definition site_labels : gmap nat string :=
  <[1%nat := "top"]> (<[2%nat := "bridge"]> (<[3%nat := "3-fold"]> (<[4%nat := "4-fold"]> ∅))).

(** [dict.get(key, default)]; Python's one-argument form has default [None]. *)
Definition dict_get {V : Type} (d : gmap nat V) (k : nat) (dflt : option V) : option V :=
  match d !! k with
  | Some v => Some v
  | None => dflt
  end.

Definition classify (n : nat) (dflt : option string) : option string :=
  dict_get site_labels n dflt.

(** The lookup as the design states it: 1, 2, 3, 4 and anything else. *)
Definition site_label_of_cardinality (n : nat) : string :=
  match n with
  | 1 => "top"
  | 2 => "bridge"
  | 3 => "3-fold"
  | 4 => "4-fold"
  | _ => "unknown"
  end%nat.

End Classifier.

(** ** Atomic structures (the part of [ase.Atoms] the notebook touches)

    Written out from ASE's documented behaviour: an [Atoms] object is a unit
    cell (three lattice vectors) and per-atom arrays of equal length, here a
    list of atoms carrying symbol, position and integer tag. *)

Module Ase.

Definition vec3 : Type := (Q * Q * Q)%type.

Definition vadd (u v : vec3) : vec3 :=
  let '(ux, uy, uz) := u in let '(vx, vy, vz) := v in
  (ux + vx, uy + vy, uz + vz)%Q.

Definition vscale (k : Q) (v : vec3) : vec3 :=
  let '(vx, vy, vz) := v in (k * vx, k * vy, k * vz)%Q.

(** [vec.any()]: some component is non-zero. *)
Definition vany (v : vec3) : bool :=
  let '(vx, vy, vz) := v in
  negb (Qeq_bool vx 0) || negb (Qeq_bool vy 0) || negb (Qeq_bool vz 0).

Record atom : Type := mk_atom {
  symbol : string;
  position : vec3;
  tag : Z
}.

Record Atoms : Type := mk_Atoms {
  cell : vec3 * vec3 * vec3;
  atom_list : list atom
}.

Definition cell_a (at_ : Atoms) : vec3 := fst (fst (cell at_)).
Definition cell_b (at_ : Atoms) : vec3 := snd (fst (cell at_)).
Definition cell_c (at_ : Atoms) : vec3 := snd (cell at_).

Definition get_tags (at_ : Atoms) : list Z := map tag (atom_list at_).

(** [atoms[mask]] for a boolean mask computed per atom: keeps the selected
    atoms in order, and the cell. *)
Definition select (keep : atom -> bool) (at_ : Atoms) : Atoms :=
  {| cell := cell at_; atom_list := List.filter keep (atom_list at_) |}.

(** [a + b]: the atoms of [b] appended to those of [a]; the cell is [a]'s. *)
Definition concat (a b : Atoms) : Atoms :=
  {| cell := cell a; atom_list := atom_list a ++ atom_list b |}.

(** [range(n)] *)
Definition range (n : Z) : list Z := map Z.of_nat (seq 0 (Z.to_nat n)).

Definition translate (d : vec3) (x : atom) : atom :=
  {| symbol := symbol x; position := vadd (position x) d; tag := tag x |}.

(** [np.dot((m0, m1, m2), cell)] *)
Definition lattice_shift (at_ : Atoms) (m0 m1 m2 : Z) : vec3 :=
  vadd (vadd (vscale (inject_Z m0) (cell_a at_)) (vscale (inject_Z m1) (cell_b at_)))
       (vscale (inject_Z m2) (cell_c at_)).

(** [atoms.repeat((m0, m1, m2))]: the arrays are tiled [m0*m1*m2] times, copy
    [(i, j, k)] (in the order of three nested [range] loops) is translated by
    [i*a + j*b + k*c], and each lattice vector is scaled by its factor.
    Repeating by a factor other than 1 along a zero lattice vector raises
    [ValueError]. *)
Definition repeat (at_ : Atoms) (m : Z * Z * Z) : result Atoms :=
  let '(m0, m1, m2) := m in
  if (negb (m0 =? 1)%Z && negb (vany (cell_a at_)))
     || (negb (m1 =? 1)%Z && negb (vany (cell_b at_)))
     || (negb (m2 =? 1)%Z && negb (vany (cell_c at_)))
  then Raise ValueError
  else Ok {| cell := (vscale (inject_Z m0) (cell_a at_),
                      vscale (inject_Z m1) (cell_b at_),
                      vscale (inject_Z m2) (cell_c at_));
             atom_list :=
               flat_map (fun i =>
                 flat_map (fun j =>
                   flat_map (fun k =>
                     map (translate (lattice_shift at_ i j k)) (atom_list at_))
                   (range m2))
                 (range m1))
               (range m0) |}.




End Ase.

(** ** Supercell tiling (cell 5, helper 1) *)

Module Tiling.
Import Ase Double.

Section WithNorm.

(** [np.linalg.norm] on a 3-vector. *)
Variable norm : vec3 -> Q.

(** [math.ceil(min_ab / length)]: the quotient is a double, on which
    [math.ceil] raises when it is infinite or not a number. *)
Definition ceil_div (min_ab len : Q) : result Z :=
  math_ceil (fdiv min_ab len).

(** [max(1, math.ceil(min_ab / length))] *)
Definition tile_factor (min_ab len : Q) : result Z :=
  c ← ceil_div min_ab len; Ok (Z.max 1 c).

Definition is_adsorbate (x : atom) : bool := (tag x =? 2)%Z.

Definition tile_substrate (atoms : Atoms) (min_ab : Q) : result Atoms :=
  let sub := select (fun x => negb (is_adsorbate x)) atoms in
  let ads := select is_adsorbate atoms in
  let a_len := norm (cell_a sub) in
  let b_len := norm (cell_b sub) in
  na ← tile_factor min_ab a_len;
  nb ← tile_factor min_ab b_len;
  tiled ← repeat sub (na, nb, 1%Z);
  Ok (concat tiled ads).

Definition default_min_ab : Q := 8.

End WithNorm.

End Tiling.

(** ** Nearest surface neighbours (cell 5, helper 2) *)

Module Nearest.
Import Ase Double.

(** [d > 0] and [d <= c] on floats. *)
Definition Qltb (x y : Q) : bool := negb (Qle_bool y x).

(** [sorted(xs, key=lambda x: x[0])]: Python's sort is stable, so its result
    is the one of insertion sort that keeps equal keys in their order. *)
Fixpoint insert_by_key {B : Type} (x : Q * B) (l : list (Q * B)) : list (Q * B) :=
  match l with
  | [] => [x]
  | y :: l' => if Qle_bool (fst x) (fst y) then x :: y :: l' else y :: insert_by_key x l'
  end.

Fixpoint sorted_by_key {B : Type} (l : list (Q * B)) : list (Q * B) :=
  match l with
  | [] => []
  | x :: l' => insert_by_key x (sorted_by_key l')
  end.

Section WithDistances.

(** The minimum-image distance between atoms [i] and [j] of the structure,
    as ASE computes it: a finite double; it raises when an index is out of
    range. *)
Variable mic_distance : Atoms -> nat -> nat -> result float64.

(** [atoms.get_distances(i, indices, mic=True)]: one distance per index. On
    an empty index array ASE raises [ValueError]. *)
Definition get_distances (atoms : Atoms) (i : nat) (indices : list nat)
  : result (list float64) :=
  match indices with
  | [] => Raise ValueError
  | _ :: _ => mapM (mic_distance atoms i) indices
  end.

Definition nearest_idx (atoms : Atoms) (ads_i : nat) (surf_idx : list nat) (tol : Q)
  : result (list nat) :=
  dists ← get_distances atoms ads_i surf_idx;
  let pairs :=
    sorted_by_key (List.filter (fun p => Qltb 0 (fst p))
                               (combine (map value dists) surf_idx)) in
  match pairs with
  | [] => Ok []
  | p0 :: _ =>
      let cutoff := fmul (fst p0) (fadd 1 tol) in
      Ok (map snd (List.filter (fun p => le_float (fst p) cutoff) pairs))
  end.

(** The default [tol: float = 0.10]: the double that [0.10] denotes. *)
Definition default_tol : Q := 3602879701896397 # 36028797018963968.

End WithDistances.

End Nearest.

(** ** Trajectory files and the result table *)

Module Traj.
Import Ase.

(** One frame of a trajectory file: the structure and the calculator results
    stored with it. *)
Record frame : Type := mk_frame {
  frame_atoms : Atoms;
  potential_energy : Q;
  frame_forces : list vec3
}.

(** The trajectory files on disk, by path. *)
Abbreviation filesystem := (gmap string (list frame)).

(** [ase.io.read(path, ':')]: every frame of the file. *)
Definition read_all (fs : filesystem) (path : string) : result (list frame) :=
  match fs !! path with
  | Some frames => Ok frames
  | None => Raise FileNotFoundError
  end.

(** [traj[0]] and [traj[-1]] on a Python list. *)
Definition first_item {A : Type} (l : list A) : result A :=
  match l with
  | x :: _ => Ok x
  | [] => Raise IndexError
  end.

Definition last_item {A : Type} (l : list A) : result A :=
  match List.last (map Some l) None with
  | Some x => Ok x
  | None => Raise IndexError
  end.

(** [ase.io.read(path, index=-1)]: the last frame only. *)
Definition read_last (fs : filesystem) (path : string) : result Atoms :=
  frames ← read_all fs path;
  f ← last_item frames;
  Ok (frame_atoms f).

End Traj.

Module Table.

(** One row of [df_min] as built in cell 4. *)
Record record : Type := mk_record {
  key : string;
  bulk_id : string;
  slab_index : Z;
  orientation : string;
  adsorbate : string;
  min_E_ml : Q;
  max_F_ml : Q;
  traj_file : string
}.

End Table.

(** ** Site information per row (cell 5, main routine) *)

Module SiteInfo.
Import Ase Double Traj Table Tiling Nearest Classifier.

(** [np.where(mask)[0]]: the positions where the mask holds, ascending. *)
Fixpoint where_from (i : nat) (mask : list bool) : list nat :=
  match mask with
  | [] => []
  | b :: mask' => if b then i :: where_from (S i) mask' else where_from (S i) mask'
  end.

Definition np_where (mask : list bool) : list nat := where_from 0 mask.

(** [atoms[i].symbol] *)
Definition symbol_at (atoms : Atoms) (i : nat) : result string :=
  match atom_list atoms !! i with
  | Some a => Ok (symbol a)
  | None => Raise IndexError
  end.

(** [try: body except Exception: handler] *)
Definition try_except {A : Type} (body : result A) (handler : exn -> A) : A :=
  match body with
  | Ok a => a
  | Raise e => handler e
  end.

Section WithLibraries.

Variable norm : vec3 -> Q.
Variable mic_distance : Atoms -> nat -> nat -> result float64.
Variable fs : filesystem.

(** The pair of values of the returned [pd.Series]: [site_type] and
    [nearest_atoms], each possibly [None]. *)
Definition site_series : Type := (option string * option (list string))%type.

(** The body of the [try] block of [site_info]. *)
Definition site_info_body (row : record) : result site_series :=
  atoms ← read_last fs (traj_file row);
  tiled ← tile_substrate norm atoms default_min_ab;
  let tags := get_tags tiled in
  ads_i ← first_item (np_where (map (Z.eqb 2) tags));
  let surf := np_where (map (Z.eqb 1) tags) in
  near ← nearest_idx mic_distance tiled ads_i surf default_tol;
  let site_type := classify (List.length near) (Some "unknown") in
  near_syms ← match near with
              | [] => Ok None
              | _ :: _ => syms ← mapM (symbol_at tiled) near; Ok (Some syms)
              end;
  Ok (site_type, near_syms).

Definition site_info (row : record) : site_series :=
  try_except (site_info_body row) (fun _ => (None, None)).

(** [df_min.apply(site_info, axis=1)]: one series per row, in row order. *)
Definition apply_site_info (rows : list record) : list site_series :=
  map site_info rows.

End WithLibraries.

End SiteInfo.

(** ** Python strings *)

Module PyStr.

(** [s.split(sep)] for a one-character separator: the pieces between the
    occurrences of [sep]; always at least one piece. *)
Fixpoint split_on (sep : ascii) (s : string) : list string :=
  match s with
  | EmptyString => [EmptyString]
  | String c s' =>
      if Ascii.eqb c sep then EmptyString :: split_on sep s'
      else match split_on sep s' with
           | piece :: pieces => String c piece :: pieces
           | [] => [String c EmptyString]
           end
  end.

(** Every character of the text is in the class. *)
Fixpoint all_chars (p : ascii -> bool) (s : string) : bool :=
  match s with
  | EmptyString => true
  | String c s' => p c && all_chars p s'
  end.

Definition not_underscore (c : ascii) : bool := negb (Ascii.eqb c "_").

End PyStr.

(** ** Minimum-energy selection (cell 4) *)

Module PostProcess.
Import Ase Traj Table PyStr.

(** [ORIENT = (2, 2, 1)]; [orient_tag = ''.join(map(str, ORIENT))] *)
Definition orient_tag : string := "221".

(** A slab directory found by [Path(OUT_ROOT).glob('*_H_*')]: its name and
    the paths found in it by [slab_dir.glob('*.traj')], in iteration order. *)
Record slab_dir : Type := mk_slab_dir {
  dir_name : string;
  traj_files : list string
}.

(** The arguments of [DetectTrajAnomaly(init_atoms, final_atoms, atoms_tag)]. *)
Record DetectTrajAnomaly : Type := mk_detector {
  init_atoms : frame;
  final_atoms : frame;
  atoms_tag : list Z
}.

(** The dictionaries collected in [good]. *)
Record good_entry : Type := mk_good {
  good_E : Q;
  good_F : list vec3;
  good_file : string
}.

(** What the cell prints. *)
Inductive output : Type :=
| RowsCollected (n : nat).

(** [min(xs, key=lambda d: d['E'])]: the first item whose key no later item
    undercuts; [ValueError] on an empty list. *)
Fixpoint min_from (best : good_entry) (rest : list good_entry) : good_entry :=
  match rest with
  | [] => best
  | x :: rest' =>
      if Nearest.Qltb (good_E x) (good_E best) then min_from x rest' else min_from best rest'
  end.

Definition py_min (xs : list good_entry) : result good_entry :=
  match xs with
  | [] => Raise ValueError
  | x :: rest => Ok (min_from x rest)
  end.

(** [arr.max()] on a one-dimensional array; [ValueError] when it is empty. *)
Fixpoint max_from (best : Q) (rest : list Q) : Q :=
  match rest with
  | [] => best
  | x :: rest' => if Nearest.Qltb best x then max_from x rest' else max_from best rest'
  end.

Definition np_max (xs : list Q) : result Q :=
  match xs with
  | [] => Raise ValueError
  | x :: rest => Ok (max_from x rest)
  end.

Section WithLibraries.

(** The four checks of fairchem's [DetectTrajAnomaly]. *)
Variable is_adsorbate_dissociated : DetectTrajAnomaly -> bool.
Variable is_adsorbate_desorbed : DetectTrajAnomaly -> bool.
Variable has_surface_changed : DetectTrajAnomaly -> bool.
Variable is_adsorbate_intercalated : DetectTrajAnomaly -> bool.

(** [np.linalg.norm] on a 3-vector ([axis=1] applies it to every row). *)
Variable norm : vec3 -> Q.

(** The builtin [int] on a string. *)
Variable py_int : string -> result Z.

Variable fs : filesystem.

(** [any([a, b, c, d])] *)
Definition any (bs : list bool) : bool := existsb (fun b => b) bs.

(** The body of the loop over [slab_dir.glob('*.traj')]. *)
Definition scan_traj (traj_file : string) (good : list good_entry)
  : result (list good_entry) :=
  traj ← read_all fs traj_file;
  first ← first_item traj;
  final ← last_item traj;
  let det := mk_detector first final (get_tags (frame_atoms first)) in
  if any [is_adsorbate_dissociated det; is_adsorbate_desorbed det;
          has_surface_changed det; is_adsorbate_intercalated det]
  then Ok good
  else
    let E := potential_energy final in
    let F := frame_forces final in
    Ok (good ++ [mk_good E F traj_file]).

(** The body of the loop over the slab directories. *)
Definition process_slab (d : slab_dir) (records : list record) : result (list record) :=
  let base := dir_name d in
  match split_on "_" base with
  | [bulk_id; _; slab_idx] =>
      let key := (bulk_id ++ "_H_" ++ slab_idx ++ "_" ++ orient_tag)%string in
      good ← for_each scan_traj (traj_files d) [];
      match good with
      | [] => Ok records
      | _ :: _ =>
          best ← py_min good;
          max_F ← np_max (map norm (good_F best));
          idx ← py_int slab_idx;
          Ok (records ++ [mk_record key bulk_id idx orient_tag "H"
                                    (good_E best) max_F (good_file best)])
      end
  | _ => Raise ValueError
  end.

(** The whole cell: the table [df_min] and what was printed. *)
Definition post_process (dirs : list slab_dir) : result (list record * list output) :=
  records ← for_each process_slab dirs [];
  Ok (records, [RowsCollected (List.length records)]).

End WithLibraries.

End PostProcess.

(** ** Decimal numerals (the part of [int] and [float] the notebook reaches) *)

Module PyNum.

Definition is_digit (c : ascii) : bool :=
  let n := nat_of_ascii c in (48 <=? n)%nat && (n <=? 57)%nat.

Definition digit_value (c : ascii) : Z := Z.of_nat (nat_of_ascii c - 48).

(** The value of a run of digits read after [acc]; [None] on any other
    character. *)
Fixpoint digits_value (acc : Z) (s : string) : option Z :=
  match s with
  | EmptyString => Some acc
  | String c s' =>
      if is_digit c then digits_value (10 * acc + digit_value c) s' else None
  end.

(** An optional sign, then the rest. *)
Definition split_sign (s : string) : bool * string :=
  match s with
  | String "-" s' => (true, s')
  | String "+" s' => (false, s')
  | _ => (false, s)
  end.

(** [int(s)] on a signed run of decimal digits; any other text raises
    [ValueError] here (Python also accepts surrounding blanks and
    underscores between digits). *)
Definition int_of_decimal (s : string) : result Z :=
  let '(neg, body) := split_sign s in
  match body with
  | EmptyString => Raise ValueError
  | _ => match digits_value 0 body with
         | Some v => Ok (if neg then - v else v)%Z
         | None => Raise ValueError
         end
  end.

End PyNum.

(** ** Regular expressions (the part of [re] that [shift_top] uses)

    A backtracking matcher in the style of Python's: alternatives and
    repetitions are tried greedily, leftmost first, and the rest of the
    pattern is the continuation that decides whether to back off.
    Repetition is over one-character classes, which is all the pattern
    needs. Characters are code points below 256. *)

Module Regex.

Inductive regex : Type :=
| Chr (c : ascii)                 (* a literal character *)
| Cls (p : ascii -> bool)         (* one character of a class *)
| Lit (s : string)                (* literal text *)
| Seq (r1 r2 : regex)
| Alt (r1 r2 : regex)             (* r1|r2 *)
| Opt (r : regex)                 (* r? *)
| Star (p : ascii -> bool)        (* c* over a class *)
| Plus (p : ascii -> bool)        (* c+ over a class *)
| Group (n : nat) (r : regex).    (* capturing group number n *)

(** The concatenation of the pieces of a pattern. *)
Fixpoint pieces (rs : list regex) : regex :=
  match rs with
  | [] => Lit EmptyString
  | [r] => r
  | r :: rs' => Seq r (pieces rs')
  end.

(** Captured groups, most recent first. *)
Definition captures : Type := list (nat * string).

Definition cont : Type := string -> string -> captures -> option captures.

Fixpoint strip_prefix (p s : string) : option string :=
  match p, s with
  | EmptyString, _ => Some s
  | String a p', String b s' => if Ascii.eqb a b then strip_prefix p' s' else None
  | String _ _, EmptyString => None
  end.

(** Greedy repetition: the longest run first, then one character less, ... *)
Fixpoint star_match (p : ascii -> bool) (s : string)
         (k : string -> string -> option captures) : option captures :=
  match s with
  | String c s' =>
      if p c
      then match star_match p s' (fun consumed rest => k (String c consumed) rest) with
           | Some m => Some m
           | None => k EmptyString s
           end
      else k EmptyString s
  | EmptyString => k EmptyString EmptyString
  end.

(** [rmatch r s caps k]: match [r] at the start of [s]; [k] receives the text
    consumed, the rest of the input and the groups captured so far. *)
Fixpoint rmatch (r : regex) (s : string) (caps : captures) (k : cont)
  : option captures :=
  match r with
  | Chr c =>
      match s with
      | String c' s' => if Ascii.eqb c c' then k (String c' EmptyString) s' caps else None
      | EmptyString => None
      end
  | Cls p =>
      match s with
      | String c' s' => if p c' then k (String c' EmptyString) s' caps else None
      | EmptyString => None
      end
  | Lit text =>
      match strip_prefix text s with
      | Some rest => k text rest caps
      | None => None
      end
  | Seq r1 r2 =>
      rmatch r1 s caps (fun c1 s1 caps1 =>
        rmatch r2 s1 caps1 (fun c2 s2 caps2 => k (c1 ++ c2)%string s2 caps2))
  | Alt r1 r2 =>
      match rmatch r1 s caps k with
      | Some m => Some m
      | None => rmatch r2 s caps k
      end
  | Opt r1 =>
      match rmatch r1 s caps k with
      | Some m => Some m
      | None => k EmptyString s caps
      end
  | Star p => star_match p s (fun consumed rest => k consumed rest caps)
  | Plus p =>
      match s with
      | String c s' =>
          if p c
          then star_match p s' (fun consumed rest => k (String c consumed) rest caps)
          else None
      | EmptyString => None
      end
  | Group n r1 =>
      rmatch r1 s caps (fun consumed rest caps' => k consumed rest ((n, consumed) :: caps'))
  end.

(** [re.search(pattern, s)]: the first position at which the pattern matches. *)
Fixpoint search (r : regex) (s : string) : option captures :=
  match rmatch r s [] (fun _ _ caps => Some caps) with
  | Some m => Some m
  | None =>
      match s with
      | EmptyString => None
      | String _ s' => search r s'
      end
  end.

(** [m.group(n)] *)
Fixpoint group (n : nat) (m : captures) : option string :=
  match m with
  | [] => None
  | (i, text) :: m' => if (i =? n)%nat then Some text else group n m'
  end.

(** [\s] and [\d] on code points below 256. *)
Definition is_space (c : ascii) : bool :=
  let n := nat_of_ascii c in
  ((9 <=? n) && (n <=? 13) || (28 <=? n) && (n <=? 32) || (n =? 133) || (n =? 160))%nat.

Definition is_sign (c : ascii) : bool := Ascii.eqb c "-" || Ascii.eqb c "+".

Definition not_close_paren (c : ascii) : bool := negb (Ascii.eqb c ")").

End Regex.

(** ** Slab metadata (cell 6) *)

Module Metadata.
Import Double PyStr PyNum Regex Table.

(** The members of the tuple [shift_top] returns. *)
Inductive pyvalue : Type :=
| VFloat (x : pyfloat)
| VBool (b : bool).

(** The digits before and after the first ["."], if any. *)
Fixpoint split_point (s : string) : string * option string :=
  match s with
  | EmptyString => (EmptyString, None)
  | String c s' =>
      if Ascii.eqb c "." then (EmptyString, Some s')
      else let '(int_part, frac_part) := split_point s' in (String c int_part, frac_part)
  end.

(** [float(s)] on a signed decimal numeral with an optional fraction and at
    least one digit: the double nearest to the rational the numeral denotes,
    an infinity when that is out of range. Any other text raises
    [ValueError] here (Python also accepts exponents, [inf], [nan], blanks
    and underscores). *)
Definition float_of_decimal (s : string) : result pyfloat :=
  let '(neg, body) := split_sign s in
  let '(int_part, frac_part) := split_point body in
  let frac := default EmptyString frac_part in
  match (int_part ++ frac)%string with
  | EmptyString => Raise ValueError
  | digits =>
      match digits_value 0 digits with
      | Some v =>
          let scale := Z.to_pos (10 ^ Z.of_nat (String.length frac)) in
          Ok (round (Qmake (if neg then - v else v) scale))
      | None => Raise ValueError
      end
  end.

(** [r'\([^)]*\),\s*([-+]?\d*\.?\d+),\s*(True|False)'] *)
Definition shift_top_pattern : regex :=
  pieces [ Chr "("; Star not_close_paren; Chr ")"; Chr ","; Star is_space;
           Group 1 (pieces [Opt (Cls is_sign); Star is_digit; Opt (Chr "."); Plus is_digit]);
           Chr ","; Star is_space;
           Group 2 (Alt (Lit "True") (Lit "False")) ].

Definition nan_pair : pyvalue * pyvalue := (VFloat NaN, VFloat NaN).

(** [shift_top(slab)], on the text [str(slab)]. *)
Definition shift_top (slab_text : string) : result (pyvalue * pyvalue) :=
  match search shift_top_pattern slab_text with
  | None => Ok nan_pair
  | Some m =>
      match group 1 m, group 2 m with
      | Some g1, Some g2 =>
          x ← float_of_decimal g1;
          Ok (VFloat x, VBool (String.eqb g2 "True"))
      | _, _ => Raise TypeError
      end
  end.

(** [xs[i]] on a Python list: negative indices count from the end. *)
Definition list_item {A : Type} (xs : list A) (i : Z) : result A :=
  let n := Z.of_nat (List.length xs) in
  let j := if (i <? 0)%Z then (i + n)%Z else i in
  if (j <? 0)%Z then Raise IndexError
  else match xs !! Z.to_nat j with
       | Some x => Ok x
       | None => Raise IndexError
       end.

(** [series.unique()]: the distinct values in order of first appearance. *)
Fixpoint unique (xs : list string) : list string :=
  match xs with
  | [] => []
  | x :: xs' => x :: List.filter (fun y => negb (String.eqb y x)) (unique xs')
  end.

Section WithLibraries.

(** The builtin [int] on a string. *)
Variable py_int : string -> result Z.

(** [Slab.from_bulk_get_specific_millers(Bulk(bid, str(work_pkl)), ORIENT)]:
    the slabs of a bulk, each given by its text [str(slab)]. *)
Variable enumerate_slabs : string -> result (list string).

(** The body of the loop that fills [cache]. *)
Definition cache_step (key : string) (cache : gmap (string * Z) (pyvalue * pyvalue))
  : result (gmap (string * Z) (pyvalue * pyvalue)) :=
  match split_on "_" key with
  | [bid; _; idx; _] =>
      idx ← py_int idx;
      match cache !! (bid, idx) with
      | Some _ => Ok cache
      | None =>
          slabs ← enumerate_slabs bid;
          meta ← (if (idx <? Z.of_nat (List.length slabs))%Z
                  then slab ← list_item slabs idx; shift_top slab
                  else Ok nan_pair);
          Ok (<[(bid, idx) := meta]> cache)
      end
  | _ => Raise ValueError
  end.

(** The loop over [df_min.key.unique()]. A table without rows has no
    columns, and [df_min.key] raises [AttributeError] on it. *)
Definition build_cache (rows : list record)
  : result (gmap (string * Z) (pyvalue * pyvalue)) :=
  match rows with
  | [] => Raise AttributeError
  | _ :: _ => for_each cache_step (unique (map key rows)) ∅
  end.

(** [cache[(r.bulk_id, r.slab_index)]] *)
Definition lookup_meta (cache : gmap (string * Z) (pyvalue * pyvalue)) (r : record)
  : result (pyvalue * pyvalue) :=
  match cache !! (bulk_id r, slab_index r) with
  | Some meta => Ok meta
  | None => Raise KeyError
  end.

(** The whole cell: the [shift] and [top] columns, one pair per row. *)
Definition join_metadata (rows : list record) : result (list (pyvalue * pyvalue)) :=
  cache ← build_cache rows;
  mapM (lookup_meta cache) rows.

End WithLibraries.

End Metadata.

(** ** The slab enumeration calls (cells 3 and 6) *)

Module Enumeration.

(** A Python value passed to fairchem: a string, a [Bulk] object (by the id
    it was built from) or a tuple of Miller indices. *)
Inductive pyobj : Type :=
| OStr (s : string)
| OBulk (src_id : string)
| OMillers (h k l : Z).

(** The arguments of a call: by position, then by keyword. *)
Record call : Type := mk_call {
  positional : list pyobj;
  keywords : list (string * pyobj)
}.

Definition ORIENT : pyobj := OMillers 2 2 1.

Section WithFairchem.

(** [Bulk(...)] and [Slab.from_bulk_get_specific_millers(...)], the latter
    giving each slab by its text [str(slab)]. *)
Variable Bulk : call -> result pyobj.
Variable from_bulk_get_specific_millers : call -> result (list string).

(** [str(work_pkl)] *)
Variable work_pkl : string.

(** Cell 3: [Bulk(bulk_src_id_from_db=bid, bulk_db_path=str(work_pkl))], then
    [Slab.from_bulk_get_specific_millers(bulk=bulk, specific_millers=ORIENT)]. *)
Definition enumerate_by_keyword (bid : string) : result (list string) :=
  bulk ← Bulk (mk_call [] [ ("bulk_src_id_from_db", OStr bid);
                            ("bulk_db_path", OStr work_pkl) ]);
  from_bulk_get_specific_millers
    (mk_call [] [ ("bulk", bulk); ("specific_millers", ORIENT) ]).

(** Cell 6: [Slab.from_bulk_get_specific_millers(Bulk(bid, str(work_pkl)),
    ORIENT)], every argument by position. *)
Definition enumerate_by_position (bid : string) : result (list string) :=
  bulk ← Bulk (mk_call [OStr bid; OStr work_pkl] []);
  from_bulk_get_specific_millers (mk_call [bulk; ORIENT] []).

End WithFairchem.

End Enumeration.

(** ** Output layout of the relaxation driver (cell 3)

    The driver itself runs ASE's optimizer; what is embedded here is the
    naming of the directories and files it writes, which cell 4 reads back. *)

Module Driver.
Import PostProcess.

(** [str(n)] on a non-negative integer: its decimal numeral. *)
Definition str_of_nat (n : nat) : string :=
  NilEmpty.string_of_uint (Nat.to_uint n).

(** [OUT_ROOT = f'InDomain{orient_tag}'] *)
Definition OUT_ROOT : string := ("InDomain" ++ orient_tag)%string.

(** The last component of [out_dir = f'{OUT_ROOT}/{bid}_H_{sidx}'], which is
    [slab_dir.name] in cell 4. *)
Definition slab_dir_name (bid : string) (sidx : nat) : string :=
  (bid ++ "_H_" ++ str_of_nat sidx)%string.

Definition out_dir (bid : string) (sidx : nat) : string :=
  (OUT_ROOT ++ "/" ++ slab_dir_name bid sidx)%string.

(** [f'{out_dir}/config_{cidx}.traj'] *)
Definition traj_path (bid : string) (sidx cidx : nat) : string :=
  (out_dir bid sidx ++ "/config_" ++ str_of_nat cidx ++ ".traj")%string.

End Driver.


(** * Specification vocabulary and worked data

    The predicates the theorems are stated with, and small concrete inputs
    on which the definitions above are evaluated. *)

Module TilingSpec.
Import Ase Tiling.



(** [np.tile(xs, copies)]: the array repeated [copies] times. *)
Definition tiled {A : Type} (copies : nat) (xs : list A) : list A :=
  List.concat (List.repeat xs copies).

(** A concrete norm for examples: the sum of the absolute components. *)
Definition norm1 (v : vec3) : Q :=
  let '(x, y, z) := v in (Qabs x + Qabs y + Qabs z)%Q.

(** A slab whose in-plane cell, 9 x 10, already reaches the default minimum. *)
Definition wide_slab : Atoms :=
  {| cell := ((9, 0, 0), (0, 10, 0), (0, 0, 20))%Q;
     atom_list := [ mk_atom "Pt" (0, 0, 0)%Q 0; mk_atom "Pt" (2, 2, 2)%Q 1;
                    mk_atom "H" (2, 2, 3)%Q 2 ] |}.

(** A three-atom slab with a 3 x 5 in-plane cell: bulk Cu (tag 0), surface
    Cu (tag 1) and the adsorbed H (tag 2). *)
Definition demo_slab : Atoms :=
  {| cell := ((3, 0, 0), (0, 5, 0), (0, 0, 20))%Q;
     atom_list := [ mk_atom "Cu" (0, 0, 0)%Q 0; mk_atom "Cu" (1, 1, 2)%Q 1;
                    mk_atom "H" (1, 1, 3)%Q 2 ] |}.



End TilingSpec.

Module DoubleSpec.
Import Double.

(** The order of the doubles, infinities included; [NaN] is unordered. *)
Definition dle (a b : pyfloat) : Prop :=
  match a, b with
  | NaN, _ | _, NaN => False
  | NInf, _ => True
  | _, PInf => True
  | PFloat p, PFloat q => (p <= q)%Q
  | _, _ => False
  end.

(** Doubles for the worked data. *)
Definition f0 : float64 := mk_float64 0 eq_refl.
Definition f1 : float64 := mk_float64 1 eq_refl.
Definition f2 : float64 := mk_float64 2 eq_refl.
Definition f3 : float64 := mk_float64 3 eq_refl.

(** 2.125, and the double written [1.1]. *)
Definition f2_125 : float64 := mk_float64 (17 # 8) eq_refl.
Definition f1_1 : float64 := mk_float64 (2476979795053773 # 2251799813685248) eq_refl.

End DoubleSpec.

Module NearestSpec.
Import Ase Double DoubleSpec Nearest.

(** Pairs in ascending order of their distance. *)
Definition key_le {B : Type} (p q : Q * B) : Prop := (fst p <= fst q)%Q.

(** The positive-distance pairs, before sorting. *)
Definition positive_pairs (d : nat -> Q) (idx : list nat) : list (Q * nat) :=
  List.filter (fun p => Qltb 0 (fst p)) (map (fun j => (d j, j)) idx).

(** Four surface atoms at the same distance and a fifth further away. *)
Definition hollow_distance (_ : Atoms) (_ j : nat) : result float64 :=
  Ok (if (j <? 4)%nat then f2 else f3).

(** A table of distances for examples: atom 0 sits on the adsorbate, atoms 1
    and 4 are nearest, atom 2 is within 10%, atom 3 is further away. *)
Definition demo_d (j : nat) : float64 := nth j [f0; f2; f2_125; f3; f2] f0.

Definition demo_distance (_ : Atoms) (_ j : nat) : result float64 :=
  if (j <? 5)%nat then Ok (demo_d j) else Raise IndexError.

(** Atom 0 at distance 1, atom 1 at the double written [1.1]. *)
Definition edge_d (j : nat) : float64 := nth j [f1; f1_1] f0.

Definition edge_distance (_ : Atoms) (_ j : nat) : result float64 :=
  if (j <? 2)%nat then Ok (edge_d j) else Raise IndexError.

End NearestSpec.

Module PostProcessSpec.
Import Ase Traj Table PyStr PostProcess.

Section WithLibraries.

Variable is_adsorbate_dissociated : DetectTrajAnomaly -> bool.
Variable is_adsorbate_desorbed : DetectTrajAnomaly -> bool.
Variable has_surface_changed : DetectTrajAnomaly -> bool.
Variable is_adsorbate_intercalated : DetectTrajAnomaly -> bool.
Variable norm : vec3 -> Q.
Variable py_int : string -> result Z.
Variable fs : filesystem.

(** The trajectory at [path] has first frame [first] and final frame [final]. *)
Definition trajectory_ends (path : string) (first final : frame) : Prop :=
  exists frames, read_all fs path = Ok frames
                 /\ first_item frames = Ok first /\ last_item frames = Ok final.

(** All four anomaly checks are negative. *)
Definition passes_checks (first final : frame) : Prop :=
  let det := mk_detector first final (get_tags (frame_atoms first)) in
  is_adsorbate_dissociated det = false /\ is_adsorbate_desorbed det = false
  /\ has_surface_changed det = false /\ is_adsorbate_intercalated det = false.

(** The trajectory at [path] passes all four checks; its final frame is [final]. *)
Definition survives (path : string) (final : frame) : Prop :=
  exists first, trajectory_ends path first final /\ passes_checks first final.

(** The file holds at least one frame. *)
Definition readable (path : string) : Prop :=
  exists f frames, fs !! path = Some (f :: frames).

(** What one trajectory contributes to [good]. *)
Definition entry_of (path : string) : option good_entry :=
  match fs !! path with
  | Some (first :: rest) =>
      match last_item (first :: rest) with
      | Ok final =>
          let det := mk_detector first final (get_tags (frame_atoms first)) in
          if is_adsorbate_dissociated det || is_adsorbate_desorbed det
             || has_surface_changed det || is_adsorbate_intercalated det
          then None
          else Some (mk_good (potential_energy final) (frame_forces final) path)
      | Raise _ => None
      end
  | _ => None
  end.

(** Some trajectory of the directory passes all four checks. *)
Definition has_survivor (d : slab_dir) : bool :=
  existsb (fun path => bool_decide (is_Some (entry_of path))) (traj_files d).

(** The key the loop builds from the directory name. *)
Definition slab_key (d : slab_dir) : string :=
  match split_on "_" (dir_name d) with
  | [bulk_id; _; slab_idx] => (bulk_id ++ "_H_" ++ slab_idx ++ "_" ++ orient_tag)%string
  | _ => EmptyString
  end.

(** The directory is one the relaxation driver wrote: its name reads
    [<bulk>_<adsorbate>_<integer>], every trajectory in it holds a frame, and
    the final frame of a surviving trajectory stores forces for some atom. *)
Definition well_formed (d : slab_dir) : Prop :=
  (exists bulk_id mid slab_idx idx,
      split_on "_" (dir_name d) = [bulk_id; mid; slab_idx]
      /\ py_int slab_idx = Ok idx)
  /\ Forall readable (traj_files d)
  /\ (forall path final, In path (traj_files d) -> survives path final ->
                         frame_forces final <> []).

(** [r] is the representative of [d]: the surviving trajectory of lowest
    final energy, with the largest force norm of its final frame. *)
Definition selected (d : slab_dir) (r : record) : Prop :=
  exists path final,
    In path (traj_files d) /\ survives path final
    /\ traj_file r = path
    /\ min_E_ml r = potential_energy final
    /\ (forall path' final', In path' (traj_files d) -> survives path' final' ->
                             (min_E_ml r <= potential_energy final')%Q)
    /\ In (max_F_ml r) (map norm (frame_forces final))
    /\ (forall f, In f (frame_forces final) -> (norm f <= max_F_ml r)%Q)
    /\ key r = slab_key d.

(** [r] is a row as cell 4 writes it: its key is [<bulk>_H_<index>_221]
    for the underscore-free pieces of a directory name, [bulk_id] is the
    first piece and [slab_index] the integer read from the last. *)
Definition written_row (r : record) : Prop :=
  exists bulk idx_text,
    all_chars not_underscore bulk = true
    /\ all_chars not_underscore idx_text = true
    /\ key r = (bulk ++ "_H_" ++ idx_text ++ "_" ++ orient_tag)%string
    /\ bulk_id r = bulk
    /\ py_int idx_text = Ok (slab_index r).

End WithLibraries.

(** A worked directory tree: slab [mp-1_H_0] holds three valid trajectories
    with final energies -1.2, -1.5 and -0.9 and a fourth, of energy -2.0,
    whose adsorbate has left the surface; slab [mp-1_H_1] holds one
    trajectory, also desorbed. *)
Definition lifted_slab : Atoms :=
  {| cell := cell TilingSpec.demo_slab;
     atom_list := [ mk_atom "Cu" (0, 0, 0)%Q 0; mk_atom "Cu" (1, 1, 2)%Q 1;
                    mk_atom "H" (1, 1, 15)%Q 2 ] |}.

(** A stand-in for the desorption check: the adsorbate is more than 10
    length units up. The other three checks never fire in the example. *)
Definition demo_desorbed (det : DetectTrajAnomaly) : bool :=
  existsb (fun a => (tag a =? 2)%Z && Nearest.Qltb 10 (snd (position a)))
          (atom_list (frame_atoms (final_atoms det))).

Definition never (_ : DetectTrajAnomaly) : bool := false.

Definition start_frame : frame :=
  mk_frame TilingSpec.demo_slab 0 [(0, 0, 1); (0, 1, 0); (1, 0, 0)]%Q.

Definition end_frame (E : Q) (fz : Q) : frame :=
  mk_frame TilingSpec.demo_slab E [(0, 0, 0); (0, 0, fz); (1 # 100, 0, 0)]%Q.

Definition tree_fs : filesystem :=
  list_to_map
    [ ("InDomain221/mp-1_H_0/config_0.traj", [start_frame; end_frame (-12 # 10) (2 # 100)]);
      ("InDomain221/mp-1_H_0/config_1.traj", [start_frame; end_frame (-15 # 10) (3 # 100)]);
      ("InDomain221/mp-1_H_0/config_2.traj", [start_frame; end_frame (-9 # 10) (4 # 100)]);
      ("InDomain221/mp-1_H_0/config_3.traj",
         [start_frame; mk_frame lifted_slab (-2) [(0, 0, 0); (0, 0, 0); (0, 0, 0)]%Q]);
      ("InDomain221/mp-1_H_1/config_0.traj",
         [start_frame; mk_frame lifted_slab (-3) [(0, 0, 0); (0, 0, 0); (0, 0, 0)]%Q]) ].

Definition slab0 : slab_dir :=
  mk_slab_dir "mp-1_H_0"
    [ "InDomain221/mp-1_H_0/config_0.traj"; "InDomain221/mp-1_H_0/config_1.traj";
      "InDomain221/mp-1_H_0/config_2.traj"; "InDomain221/mp-1_H_0/config_3.traj" ].

Definition slab1 : slab_dir :=
  mk_slab_dir "mp-1_H_1" [ "InDomain221/mp-1_H_1/config_0.traj" ].

Definition demo_post_process :=
  post_process never demo_desorbed never never TilingSpec.norm1
               PyNum.int_of_decimal tree_fs.

Definition demo_process_slab :=
  process_slab never demo_desorbed never never TilingSpec.norm1
               PyNum.int_of_decimal tree_fs.

Definition demo_survives := survives never demo_desorbed never never tree_fs.

End PostProcessSpec.

Module SiteInfoSpec.
Import Ase Double DoubleSpec Traj Table Tiling Nearest Classifier SiteInfo.

(** A one-frame trajectory of the demo slab, and a table with one row for it
    and one row for a file that does not exist. *)
Definition demo_fs : filesystem :=
  {[ "InDomain221/mp-1_H_0/config_0.traj" :=
       [ mk_frame TilingSpec.demo_slab (-3 # 2) [(0, 0, 0); (0, 0, 0); (0, 0, 1 # 100)]%Q ] ]}.

Definition demo_row : record :=
  mk_record "mp-1_H_0_221" "mp-1" 0 "221" "H" (-3 # 2) (1 # 100)
            "InDomain221/mp-1_H_0/config_0.traj".

Definition lost_row : record :=
  mk_record "mp-2_H_0_221" "mp-2" 0 "221" "H" (-1) (1 # 100)
            "InDomain221/mp-2_H_0/config_0.traj".

(** Surface atom 1 is nearest; every other atom is half as far again. *)
Definition demo_mic (_ : Atoms) (_ j : nat) : result float64 :=
  Ok (if (j =? 1)%nat then f2 else f3).

(** The demo slab after tiling (3 x 2 copies of the substrate, then H). *)
Definition demo_tiled : Atoms :=
  try_except (tile_substrate TilingSpec.norm1 TilingSpec.demo_slab default_min_ab)
             (fun _ => TilingSpec.demo_slab).

Definition demo_mic_d (j : nat) : float64 := if (j =? 1)%nat then f2 else f3.

End SiteInfoSpec.

Module MetadataSpec.
Import Double PyStr PyNum Regex Table Metadata Enumeration.

(** The text does not start with a character of the class. *)
Definition stops (p : ascii -> bool) (s : string) : Prop :=
  match s with
  | EmptyString => True
  | String c _ => p c = false
  end.

(** No closing parenthesis of the text is directly followed by a comma. *)
Fixpoint no_close_comma (s : string) : bool :=
  match s with
  | EmptyString => true
  | String c s' =>
      match s' with
      | String c' _ => negb (Ascii.eqb c ")" && Ascii.eqb c' ",") && no_close_comma s'
      | EmptyString => true
      end
  end.

Definition is_comma (c : ascii) : bool := Ascii.eqb c ",".

(** The groups captured on [..., 0.3333, True]. *)
Definition shift_captures : captures := [(2%nat, "True"); (1%nat, "0.3333")].

(** What a successful match consumed and captured. *)
Inductive matches : regex -> string -> captures -> captures -> Prop :=
| M_Chr c caps : matches (Chr c) (String c EmptyString) caps caps
| M_Cls (p : ascii -> bool) c caps :
    p c = true -> matches (Cls p) (String c EmptyString) caps caps
| M_Lit text caps : matches (Lit text) text caps caps
| M_Seq r1 r2 c1 c2 caps caps1 caps2 :
    matches r1 c1 caps caps1 -> matches r2 c2 caps1 caps2 ->
    matches (Seq r1 r2) (c1 ++ c2)%string caps caps2
| M_AltL r1 r2 c caps caps' : matches r1 c caps caps' -> matches (Alt r1 r2) c caps caps'
| M_AltR r1 r2 c caps caps' : matches r2 c caps caps' -> matches (Alt r1 r2) c caps caps'
| M_OptSome r c caps caps' : matches r c caps caps' -> matches (Opt r) c caps caps'
| M_OptNone r caps : matches (Opt r) EmptyString caps caps
| M_Star (p : ascii -> bool) c caps : all_chars p c = true -> matches (Star p) c caps caps
| M_Plus (p : ascii -> bool) ch c caps :
    p ch = true -> all_chars p c = true -> matches (Plus p) (String ch c) caps caps
| M_Group n r c caps caps' :
    matches r c caps caps' -> matches (Group n r) c caps ((n, c) :: caps').

Section WithLibraries.

Variable py_int : string -> result Z.
Variable enumerate_slabs : string -> result (list string).

(** Entries for slab indices at or beyond the number of slabs hold [(nan, nan)]. *)
Definition nan_beyond_range (cache : gmap (string * Z) (pyvalue * pyvalue)) : Prop :=
  forall bid idx meta slabs,
    cache !! (bid, idx) = Some meta ->
    enumerate_slabs bid = Ok slabs ->
    (Z.of_nat (List.length slabs) <= idx)%Z ->
    meta = nan_pair.

(** The key parses to the pair [(bid, idx)]. *)
Definition parses_to (key bid : string) (idx : Z) : Prop :=
  exists mid idx_text orient,
    split_on "_" key = [bid; mid; idx_text; orient] /\ py_int idx_text = Ok idx.

End WithLibraries.

(** fairchem's [Bulk] takes [bulk_atoms] as its first parameter and copies
    it: a call whose first positional argument is a string raises
    [AttributeError]. *)
Definition copies_first_argument (Bulk : call -> result pyobj) : Prop :=
  forall s rest kw, Bulk (mk_call (OStr s :: rest) kw) = Raise AttributeError.

(** A worked join: bulk [mp-1] has two slabs; the table also holds a row for
    slab index 5, which the enumeration does not reach. *)
Definition demo_slabs (bid : string) : result (list string) :=
  if String.eqb bid "mp-1"
  then Ok [ "Slab: (Cu4, (2, 2, 1), 0.3333, True)"; "Slab: (Cu4, (2, 2, 1), 0.3333, False)" ]
  else Raise KeyError.

(** A stand-in for the two fairchem calls: [Bulk] accepts its source id by
    keyword only, and the enumeration takes the bulk by keyword or as its
    second positional argument. *)
Definition demo_Bulk (c : call) : result pyobj :=
  match positional c, keywords c with
  | OStr _ :: _, _ => Raise AttributeError
  | _ :: _, _ => Raise TypeError
  | [], [(k1, OStr bid); (k2, OStr _)] =>
      if String.eqb k1 "bulk_src_id_from_db" && String.eqb k2 "bulk_db_path"
      then Ok (OBulk bid) else Raise TypeError
  | [], _ => Raise TypeError
  end.

Definition demo_from_bulk (c : call) : result (list string) :=
  match positional c, keywords c with
  | [], [(k1, OBulk bid); (k2, OMillers _ _ _)] =>
      if String.eqb k1 "bulk" && String.eqb k2 "specific_millers"
      then demo_slabs bid else Raise TypeError
  | [OMillers _ _ _; OBulk bid], [] => demo_slabs bid
  | _, _ => Raise TypeError
  end.

Definition row_in_range : record :=
  mk_record "mp-1_H_0_221" "mp-1" 0 "221" "H" (-3 # 2) (1 # 100)
            "InDomain221/mp-1_H_0/config_1.traj".

Definition row_beyond : record :=
  mk_record "mp-1_H_5_221" "mp-1" 5 "221" "H" (-1) (1 # 100)
            "InDomain221/mp-1_H_5/config_0.traj".

End MetadataSpec.

(** ** More vocabulary: counting separators *)

Module PyStrSpec.

(** How often the character occurs in the text. *)
Fixpoint count_char (sep : ascii) (s : string) : nat :=
  match s with
  | EmptyString => 0
  | String c s' => (if Ascii.eqb c sep then 1 else 0) + count_char sep s'
  end.

End PyStrSpec.


(** ** More worked data *)

Module MoreSpec.
Import Ase Traj Table PostProcess PostProcessSpec.

(** A directory as the driver would name it for the bulk id [mp_1]. *)
Definition underscore_dir : slab_dir :=
  mk_slab_dir "mp_1_H_0" [ "InDomain221/mp_1_H_0/config_0.traj" ].

(** A directory whose only trajectory file holds no frame. *)
Definition broken_dir : slab_dir :=
  mk_slab_dir "mp-1_H_2" [ "InDomain221/mp-1_H_2/config_0.traj" ].

Definition broken_fs : filesystem :=
  <[ "InDomain221/mp-1_H_2/config_0.traj" := [] ]> tree_fs.

(** A last frame without adsorbate (tags 0 and 1 only), and one whose
    substrate has no surface atom (tags 0 and 2 only). *)
Definition bare_slab : Atoms :=
  {| cell := ((3, 0, 0), (0, 5, 0), (0, 0, 20))%Q;
     atom_list := [ mk_atom "Cu" (0, 0, 0)%Q 0; mk_atom "Cu" (1, 1, 2)%Q 1 ] |}.

Definition untagged_slab : Atoms :=
  {| cell := ((3, 0, 0), (0, 5, 0), (0, 0, 20))%Q;
     atom_list := [ mk_atom "Cu" (0, 0, 0)%Q 0; mk_atom "H" (1, 1, 3)%Q 2 ] |}.

Definition odd_fs : filesystem :=
  list_to_map
    [ ("InDomain221/mp-3_H_0/config_0.traj", [ mk_frame bare_slab (-1) [] ]);
      ("InDomain221/mp-4_H_0/config_0.traj", [ mk_frame untagged_slab (-1) [] ]) ].

Definition bare_row : record :=
  mk_record "mp-3_H_0_221" "mp-3" 0 "221" "H" (-1) 0 "InDomain221/mp-3_H_0/config_0.traj".

Definition untagged_row : record :=
  mk_record "mp-4_H_0_221" "mp-4" 0 "221" "H" (-1) 0 "InDomain221/mp-4_H_0/config_0.traj".

(** The second structure after tiling. *)
Definition untagged_tiled : Atoms :=
  SiteInfo.try_except (Tiling.tile_substrate TilingSpec.norm1 untagged_slab Tiling.default_min_ab)
                      (fun _ => untagged_slab).

End MoreSpec.


(** ** More vocabulary: tiled per-atom arrays *)

Module TilingMoreSpec.

(** [np.tile(tags, copies)]: the array repeated [copies] times. *)
Definition tiled_tags (copies : nat) (tags : list Z) : list Z :=
  List.concat (List.repeat tags copies).

End TilingMoreSpec.


(** ** More vocabulary: how fairchem prints the flag *)

Module MetadataMoreSpec.
Import Table Metadata.

(** [str(top)] for a Python boolean. *)
Definition flag_text (top : bool) : string := if top then "True" else "False".

(** [meta] is what the enumeration gives for slab index [idx]: [(nan, nan)]
    at or beyond the number of slabs, and below it what [shift_top] reads
    from the slab at that Python index. *)
Definition entry_follows (slabs : list string) (idx : Z) (meta : pyvalue * pyvalue)
  : Prop :=
  ((Z.of_nat (List.length slabs) <= idx)%Z /\ meta = nan_pair)
  \/ ((idx < Z.of_nat (List.length slabs))%Z
      /\ exists slab, list_item slabs idx = Ok slab /\ shift_top slab = Ok meta).

(** Every entry of the cache is what the enumeration of its bulk gives. *)
Definition follows_enumeration (enumerate_slabs : string -> result (list string))
           (cache : gmap (string * Z) (pyvalue * pyvalue)) : Prop :=
  forall bid idx meta,
    cache !! (bid, idx) = Some meta ->
    exists slabs, enumerate_slabs bid = Ok slabs /\ entry_follows slabs idx meta.

(** A row for a bulk that the worked enumeration does not know, and one
    whose slab index lies below [-len]. *)
Definition row_unknown_bulk : record :=
  mk_record "mp-2_H_0_221" "mp-2" 0 "221" "H" (-1) (1 # 100)
            "InDomain221/mp-2_H_0/config_0.traj".

Definition row_below : record :=
  mk_record "mp-1_H_-3_221" "mp-1" (-3) "221" "H" (-1) (1 # 100)
            "InDomain221/mp-1_H_-3/config_0.traj".

End MetadataMoreSpec.


(** * Theorems *)

Lemma mapM_cons_ok {A B : Type} (f : A -> result B) (x : A) (l : list A)
      (y : B) (ys : list B) :
  f x = Ok y -> mapM f l = Ok ys -> mapM f (x :: l) = Ok (y :: ys).
Proof.
  intros Hx Hl.
  change (mapM f (x :: l)) with (f x ≫= λ y, mapM f l ≫= λ k, mret (y :: k)).
  rewrite Hx. unfold mbind at 1, result_bind at 1. rewrite Hl. reflexivity.
Qed.

(** ** Rounding to double precision *)

Module DoubleFacts.
Import Double DoubleSpec.
Local Open Scope Q_scope.

Lemma pow2_pos (e : Z) : 0 < pow2 e.
Proof. apply Qpower_0_lt. reflexivity. Qed.

Lemma pow2_le (a b : Z) : (a <= b)%Z -> pow2 a <= pow2 b.
Proof. intros H. apply Qpower_le_compat_l; [exact H|discriminate]. Qed.

Lemma pow2_lt (a b : Z) : (a < b)%Z -> pow2 a < pow2 b.
Proof. intros H. apply Qpower_lt_compat_l; [exact H|reflexivity]. Qed.

Lemma pow2_add (a b : Z) : pow2 (a + b) == pow2 a * pow2 b.
Proof. apply Qpower_plus. discriminate. Qed.

Lemma pow2_inject (n : Z) : (0 <= n)%Z -> pow2 n == inject_Z (2 ^ n).
Proof. intros H. symmetry. exact (Zpower_Qpower 2 n H). Qed.

Lemma rne_lower (y : Q) : (Qfloor y <= rne y)%Z.
Proof.
  unfold rne. destruct (Qcompare _ _); [destruct (Z.even _)| |]; lia.
Qed.

Lemma rne_upper (y : Q) : (rne y <= Qfloor y + 1)%Z.
Proof.
  unfold rne. destruct (Qcompare _ _); [destruct (Z.even _)| |]; lia.
Qed.

Lemma rne_cases (y : Q) :
  (y - inject_Z (Qfloor y) < 1 # 2 /\ rne y = Qfloor y)
  \/ (y - inject_Z (Qfloor y) == 1 # 2 /\ (rne y = Qfloor y \/ rne y = (Qfloor y + 1)%Z))
  \/ (1 # 2 < y - inject_Z (Qfloor y) /\ rne y = (Qfloor y + 1)%Z).
Proof.
  unfold rne.
  destruct (Qcompare_spec (y - inject_Z (Qfloor y)) (1 # 2)) as [C|C|C].
  - right. left. split; [exact C|]. destruct (Z.even _); auto.
  - left. auto.
  - right. right. auto.
Qed.

Lemma rne_mono (y y' : Q) : y <= y' -> (rne y <= rne y')%Z.
Proof.
  intros H. pose proof (Qfloor_resp_le _ _ H) as Hf.
  destruct (Z.eq_dec (Qfloor y) (Qfloor y')) as [E|E].
  - destruct (Qeq_dec y y') as [Heq|Hne].
    + unfold rne. rewrite <- E.
      assert (Hq : y' - inject_Z (Qfloor y) == y - inject_Z (Qfloor y)) by lra.
      rewrite Hq. lia.
    + assert (Hlt : y < y') by (apply Qle_lteq in H as [H|H]; [exact H|contradiction]).
      destruct (rne_cases y) as [[C Ry]|[[C Ry]|[C Ry]]];
        destruct (rne_cases y') as [[C' Ry']|[[C' Ry']|[C' Ry']]];
        rewrite <- ?E in *;
        repeat match goal with R : _ \/ _ |- _ => destruct R as [R|R] end;
        first [lia | exfalso; lra].
  - pose proof (rne_upper y). pose proof (rne_lower y'). lia.
Qed.

Lemma rne_Z (z : Z) : rne (inject_Z z) = z.
Proof.
  destruct (rne_cases (inject_Z z)) as [[C R]|[[C R]|[C R]]];
    rewrite Qfloor_Z in *; [exact R|exfalso|exfalso].
  - assert (inject_Z z - inject_Z z == 0) by ring. lra.
  - assert (inject_Z z - inject_Z z == 0) by ring. lra.
Qed.

Lemma ilog2_spec (x : Q) : 0 < x -> pow2 (ilog2 x) <= x /\ x < pow2 (ilog2 x + 1).
Proof.
  intros Hx. destruct x as [n d]. unfold ilog2. cbn [Qnum Qden].
  assert (Hn : (0 < n)%Z).
  { unfold Qlt in Hx. cbn in Hx. lia. }
  set (a := Z.log2 n). set (b := Z.log2 (Z.pos d)).
  assert (Ha0 : (0 <= a)%Z) by apply Z.log2_nonneg.
  assert (Hb0 : (0 <= b)%Z) by apply Z.log2_nonneg.
  destruct (Z.log2_spec n Hn) as [Ha1 Ha2]. fold a in Ha1, Ha2.
  destruct (Z.log2_spec (Z.pos d) ltac:(lia)) as [Hb1 Hb2]. fold b in Hb1, Hb2.
  assert (Hx' : (n # d) == inject_Z n / inject_Z (Z.pos d)).
  { rewrite Qmake_Qdiv. reflexivity. }
  assert (Hd : 0 < inject_Z (Z.pos d)).
  { change 0 with (inject_Z 0). rewrite <- Zlt_Qlt. lia. }
  assert (Hpa : pow2 a == inject_Z (2 ^ a)) by now apply pow2_inject.
  assert (Hpb : pow2 b == inject_Z (2 ^ b)) by now apply pow2_inject.
  assert (Hpa1 : pow2 (a + 1) == inject_Z (2 ^ Z.succ a)).
  { rewrite <- Z.add_1_r. apply pow2_inject. lia. }
  assert (Hpb1 : pow2 (b + 1) == inject_Z (2 ^ Z.succ b)).
  { rewrite <- Z.add_1_r. apply pow2_inject. lia. }
  (* bounds on n and d as rationals *)
  assert (Hn1 : pow2 a <= inject_Z n) by (rewrite Hpa, <- Zle_Qle; lia).
  assert (Hn2 : inject_Z n < pow2 (a + 1)) by (rewrite Hpa1, <- Zlt_Qlt; lia).
  assert (Hd1 : pow2 b <= inject_Z (Z.pos d)) by (rewrite Hpb, <- Zle_Qle; lia).
  assert (Hd2 : inject_Z (Z.pos d) < pow2 (b + 1)) by (rewrite Hpb1, <- Zlt_Qlt; lia).
  (* x * d = n *)
  assert (Hmul : (n # d) * inject_Z (Z.pos d) == inject_Z n).
  { rewrite Hx'. field. lra. }
  pose proof (pow2_pos (a - b)) as Hk.
  pose proof (pow2_pos b) as Hb.
  pose proof (pow2_pos (a - b - 1)) as Hk1.
  assert (Hsplit : pow2 a == pow2 (a - b) * pow2 b).
  { rewrite <- pow2_add. now replace (a - b + b)%Z with a by lia. }
  assert (Hsplit1 : pow2 (a + 1) == pow2 (a - b + 1) * pow2 b).
  { rewrite <- pow2_add. now replace (a - b + 1 + b)%Z with (a + 1)%Z by lia. }
  assert (Hsplit2 : pow2 a == pow2 (a - b - 1) * pow2 (b + 1)).
  { rewrite <- pow2_add. now replace (a - b - 1 + (b + 1))%Z with a by lia. }
  pose proof (pow2_pos (a - b + 1)) as Hk2.
  pose proof (pow2_pos (b + 1)) as Hb'.
  assert (Hup : (n # d) < pow2 (a - b + 1)).
  { apply Qnot_le_lt. intros Hc.
    assert (pow2 (a - b + 1) * pow2 b <= (n # d) * inject_Z (Z.pos d)) by nra.
    lra. }
  assert (Hlow : pow2 (a - b - 1) < (n # d)).
  { apply Qnot_le_lt. intros Hc.
    assert ((n # d) * inject_Z (Z.pos d) < pow2 (a - b - 1) * pow2 (b + 1)) by nra.
    lra. }
  destruct (Qle_bool (pow2 (a - b)) (n # d)) eqn:E.
  - apply Qle_bool_iff in E. split; [exact E|exact Hup].
  - split; [lra|].
    replace (a - b - 1 + 1)%Z with (a - b)%Z by lia.
    apply Qnot_le_lt. intros Hc. apply Qle_bool_iff in Hc. congruence.
Qed.

Lemma ilog2_mono (x y : Q) : 0 < x -> x <= y -> (ilog2 x <= ilog2 y)%Z.
Proof.
  intros Hx Hxy.
  destruct (ilog2_spec x Hx) as [Hx1 _].
  destruct (ilog2_spec y ltac:(lra)) as [_ Hy2].
  destruct (Z_le_gt_dec (ilog2 x) (ilog2 y)) as [H|H]; [exact H|exfalso].
  pose proof (pow2_le (ilog2 y + 1) (ilog2 x) ltac:(lia)). lra.
Qed.


Lemma expo_mono (x y : Q) : 0 < x -> x <= y -> (expo x <= expo y)%Z.
Proof. intros Hx Hxy. unfold expo. pose proof (ilog2_mono x y Hx Hxy). lia. Qed.

Lemma pow2_split (a b : Z) : pow2 a == pow2 (a - b) * pow2 b.
Proof. rewrite <- pow2_add. now replace (a - b + b)%Z with a by lia. Qed.

Lemma nearest_lower (y : Q) :
  0 < y -> (-1074 < expo y)%Z -> pow2 (expo y + 52) <= nearest y.
Proof.
  intros Hy He. unfold nearest.
  assert (Hex : expo y = (ilog2 y - 52)%Z) by (unfold expo in *; lia).
  destruct (ilog2_spec y Hy) as [Hlow _].
  pose proof (pow2_pos (expo y)) as Hp.
  assert (Hq : inject_Z (2 ^ 52) <= y / pow2 (expo y)).
  { rewrite <- (pow2_inject 52) by lia.
    apply Qle_shift_div_l; [exact Hp|].
    rewrite <- pow2_add. now replace (52 + expo y)%Z with (ilog2 y) by lia. }
  apply rne_mono in Hq. rewrite rne_Z in Hq.
  rewrite (pow2_add (expo y) 52), (pow2_inject 52) by lia.
  rewrite Zle_Qle in Hq. nra.
Qed.

Lemma nearest_upper (x : Q) : 0 < x -> nearest x <= pow2 (expo x + 53).
Proof.
  intros Hx. unfold nearest.
  destruct (ilog2_spec x Hx) as [_ Hup].
  pose proof (pow2_pos (expo x)) as Hp.
  assert (Hle : pow2 (ilog2 x + 1) <= pow2 (expo x + 53)).
  { apply pow2_le. unfold expo. lia. }
  assert (Hq : x / pow2 (expo x) <= inject_Z (2 ^ 53)).
  { rewrite <- (pow2_inject 53) by lia.
    apply Qle_shift_div_r; [exact Hp|].
    rewrite <- pow2_add. replace (53 + expo x)%Z with (expo x + 53)%Z by lia. lra. }
  apply rne_mono in Hq. rewrite rne_Z in Hq.
  rewrite (pow2_add (expo x) 53), (pow2_inject 53) by lia.
  rewrite Zle_Qle in Hq. nra.
Qed.

Lemma nearest_nonneg (x : Q) : 0 < x -> 0 <= nearest x.
Proof.
  intros Hx. unfold nearest.
  pose proof (pow2_pos (expo x)) as Hp.
  assert (Hq : inject_Z 0 <= x / pow2 (expo x)).
  { apply Qle_shift_div_l; [exact Hp|]. change (inject_Z 0) with 0. lra. }
  apply rne_mono in Hq. rewrite rne_Z in Hq. rewrite Zle_Qle in Hq.
  change (inject_Z 0) with 0 in Hq. nra.
Qed.

Lemma nearest_mono (x y : Q) : 0 < x -> x <= y -> nearest x <= nearest y.
Proof.
  intros Hx Hxy.
  pose proof (expo_mono x y Hx Hxy) as He.
  destruct (Z.eq_dec (expo x) (expo y)) as [E|E].
  - unfold nearest. rewrite <- E.
    pose proof (pow2_pos (expo x)) as Hp.
    assert (Hq : x / pow2 (expo x) <= y / pow2 (expo x)).
    { apply Qle_shift_div_l; [exact Hp|].
      setoid_replace (x / pow2 (expo x) * pow2 (expo x)) with x using relation Qeq
        by (field; lra).
      exact Hxy. }
    apply rne_mono in Hq. rewrite Zle_Qle in Hq. nra.
  - assert (Hy : 0 < y) by lra.
    pose proof (nearest_upper x Hx) as Hu.
    assert (Hlow : (-1074 < expo y)%Z) by (unfold expo in *; lia).
    pose proof (nearest_lower y Hy Hlow) as Hl.
    pose proof (pow2_le (expo x + 53) (expo y + 52) ltac:(lia)). lra.
Qed.

Lemma round_pos_mono (x y : Q) : 0 < x -> x <= y -> dle (round_pos x) (round_pos y).
Proof.
  intros Hx Hxy. unfold round_pos.
  pose proof (nearest_mono x y Hx Hxy) as Hm.
  destruct (Qle_bool (pow2 1024) (nearest x)) eqn:Ex;
    destruct (Qle_bool (pow2 1024) (nearest y)) eqn:Ey; cbn [dle]; auto.
  - apply Qle_bool_iff in Ex.
    assert (Hy : Qle_bool (pow2 1024) (nearest y) = true) by (apply Qle_bool_iff; lra).
    congruence.
  - now rewrite !Qred_correct.
Qed.

Lemma round_pos_nonneg (x : Q) : 0 < x -> dle (PFloat 0) (round_pos x).
Proof.
  intros Hx. unfold round_pos. destruct (Qle_bool _ _); cbn [dle]; [exact I|].
  rewrite Qred_correct. now apply nearest_nonneg.
Qed.

Lemma dle_neg (a b : pyfloat) : dle a b -> dle (fneg b) (fneg a).
Proof. destruct a, b; simpl; auto. intros H. lra. Qed.

Lemma dle_trans (a b c : pyfloat) : dle a b -> dle b c -> dle a c.
Proof. destruct a, b, c; simpl; auto; try tauto. intros. lra. Qed.

Lemma Qnum_pos (x : Q) (p : positive) : Qnum x = Z.pos p -> 0 < x.
Proof. destruct x as [n d]. simpl. intros ->. reflexivity. Qed.

Lemma Qnum_neg (x : Q) (p : positive) : Qnum x = Z.neg p -> x < 0.
Proof. destruct x as [n d]. simpl. intros ->. reflexivity. Qed.

Lemma Qnum_zero (x : Q) : Qnum x = 0%Z -> x == 0.
Proof. destruct x as [n d]. simpl. intros ->. reflexivity. Qed.

Lemma round_neg (x : Q) (p : positive) :
  Qnum x = Z.neg p -> round x = fneg (round_pos (- x)).
Proof. unfold round. now intros ->. Qed.

Lemma round_of_pos (x : Q) : 0 < x -> round x = round_pos x.
Proof.
  intros Hx. unfold round. destruct (Qnum x) eqn:E; [| reflexivity |].
  - apply Qnum_zero in E. lra.
  - apply Qnum_neg in E. lra.
Qed.

Lemma round_of_neg (x : Q) : x < 0 -> round x = fneg (round_pos (- x)).
Proof.
  intros Hx. unfold round. destruct (Qnum x) eqn:E; [| | reflexivity].
  - apply Qnum_zero in E. lra.
  - apply Qnum_pos in E. lra.
Qed.

Lemma round_of_zero (x : Q) : x == 0 -> round x = PFloat 0.
Proof.
  intros Hx. unfold round. destruct (Qnum x) eqn:E; [reflexivity | |].
  - apply Qnum_pos in E. lra.
  - apply Qnum_neg in E. lra.
Qed.

(** Rounding is monotone. *)
Lemma round_mono (x y : Q) : x <= y -> dle (round x) (round y).
Proof.
  intros Hxy.
  destruct (Q_dec x 0) as [[Hx|Hx]|Hx]; destruct (Q_dec y 0) as [[Hy|Hy]|Hy];
    try (exfalso; lra).
  - rewrite (round_of_neg x Hx), (round_of_neg y Hy).
    apply dle_neg, round_pos_mono; lra.
  - rewrite (round_of_neg x Hx), (round_of_pos y Hy).
    apply dle_trans with (PFloat 0); [|now apply round_pos_nonneg].
    change (PFloat 0) with (fneg (PFloat 0)). apply dle_neg, round_pos_nonneg. lra.
  - rewrite (round_of_neg x Hx), (round_of_zero y Hy).
    change (PFloat 0) with (fneg (PFloat 0)). apply dle_neg, round_pos_nonneg. lra.
  - rewrite (round_of_pos x Hx), (round_of_pos y Hy). now apply round_pos_mono.
  - rewrite (round_of_zero x Hx), (round_of_pos y Hy). now apply round_pos_nonneg.
  - rewrite (round_of_zero x Hx), (round_of_zero y Hy). simpl. lra.
Qed.



Lemma round_one : round 1 = PFloat 1.
Proof. vm_compute. reflexivity. Qed.

Lemma round_never_nan (x : Q) : round x <> NaN.
Proof.
  unfold round. destruct (Qnum x); [discriminate| |]; unfold round_pos;
    destruct (Qle_bool _ _); discriminate.
Qed.

Lemma le_float_dle (x : Q) (c c' : pyfloat) :
  le_float x c = true -> dle c c' -> le_float x c' = true.
Proof.
  destruct c, c'; simpl; try tauto; try discriminate.
  intros H Hle. apply Qle_bool_iff in H. apply Qle_bool_iff. lra.
Qed.

Lemma le_float_antisym (x : Q) (c c' : pyfloat) :
  dle c c' -> dle c' c -> le_float x c = le_float x c'.
Proof.
  intros H1 H2.
  destruct (le_float x c) eqn:E.
  - symmetry. exact (le_float_dle x c c' E H1).
  - destruct (le_float x c') eqn:E'; [|reflexivity].
    rewrite (le_float_dle x c' c E' H2) in E. discriminate.
Qed.

Lemma fmul_mono (d : Q) (y y' : pyfloat) :
  0 < d -> dle y y' -> dle (fmul d y) (fmul d y').
Proof.
  intros Hd Hy.
  assert (E0 : Qeq_bool d 0 = false).
  { destruct (Qeq_bool d 0) eqn:E; [|reflexivity]. apply Qeq_bool_eq in E. lra. }
  assert (E1 : Qle_bool 0 d = true) by (apply Qle_bool_iff; lra).
  destruct y as [q| | |], y' as [q'| | |]; simpl in Hy; try tauto;
    unfold fmul; rewrite ?E0, ?E1; simpl; auto.
  - apply round_mono. nra.
  - pose proof (round_never_nan (d * q)). destruct (round (d * q)); simpl; auto.
  - pose proof (round_never_nan (d * q')). destruct (round (d * q')); simpl; auto.
Qed.

Lemma float64_round (x : float64) : exists q, round x = PFloat q /\ q == x.
Proof.
  pose proof (representable x) as H. unfold is_double in H.
  destruct (round x) as [q| | |]; try discriminate.
  exists q. split; [reflexivity|]. now apply Qeq_bool_eq.
Qed.

(** A factor of at least one keeps the cut-off at or above the distance. *)
Lemma fmul_keeps (d : float64) (y : pyfloat) :
  0 < d -> dle (PFloat 1) y -> le_float d (fmul d y) = true.
Proof.
  intros Hd Hy.
  destruct (float64_round d) as (q & Hq & Hqd).
  apply le_float_dle with (c := fmul d (PFloat 1)); [|now apply fmul_mono].
  unfold fmul.
  pose proof (round_mono d (d * 1) ltac:(lra)) as Hm.
  rewrite Hq in Hm. destruct (round (d * 1)) as [c| | |]; simpl in *; try tauto.
  apply Qle_bool_iff. lra.
Qed.


Lemma fadd_mono (x y y' : Q) : y <= y' -> dle (fadd x y) (fadd x y').
Proof. intros H. apply round_mono. lra. Qed.

Lemma fadd_one_above (tol : Q) : 0 <= tol -> dle (PFloat 1) (fadd 1 tol).
Proof. intros H. rewrite <- round_one. apply round_mono. lra. Qed.


Lemma fdiv_pos (x y : Q) : 0 < y -> fdiv x y = round (x / y).
Proof.
  intros Hy. unfold fdiv.
  destruct (Qeq_bool y 0) eqn:E; [|reflexivity]. apply Qeq_bool_eq in E. lra.
Qed.


Lemma fdiv_finite (x y : Q) : 0 <= x -> 0 < y -> x <= y -> exists q, fdiv x y = PFloat q.
Proof.
  intros Hx Hy Hxy. rewrite (fdiv_pos x y Hy).
  assert (H0 : 0 <= x / y) by (apply Qle_shift_div_l; lra).
  assert (H1 : x / y <= 1) by (apply Qle_shift_div_r; lra).
  pose proof (round_mono _ _ H0) as Hm0. pose proof (round_mono _ _ H1) as Hm1.
  rewrite round_one in Hm1. change (round 0) with (PFloat 0) in Hm0.
  destruct (round (x / y)) as [q| | |]; simpl in *; try tauto. eauto.
Qed.

Lemma Qeq_bool_false_pos' (x : Q) : 0 < x -> Qeq_bool x 0 = false.
Proof.
  intros Hx. destruct (Qeq_bool x 0) eqn:E; [|reflexivity].
  apply Qeq_bool_eq in E. lra.
Qed.

Lemma Qle_bool_pos (x : Q) : 0 < x -> Qle_bool 0 x = true.
Proof. intros Hx. apply Qle_bool_iff. lra. Qed.




Lemma le_float_le (x y : Q) (c : pyfloat) :
  x <= y -> le_float y c = true -> le_float x c = true.
Proof.
  destruct c; simpl; auto. intros Hxy H.
  apply Qle_bool_iff in H. apply Qle_bool_iff. lra.
Qed.

End DoubleFacts.

Module PyStrFacts.
Import PyStr.

Lemma split_on_nonempty (sep : ascii) (s : string) : split_on sep s <> [].
Proof.
  destruct s as [|c s]; simpl; [discriminate|].
  destruct (Ascii.eqb c sep); [discriminate|].
  destruct (split_on sep s); discriminate.
Qed.

Lemma split_on_pieces (sep : ascii) (s piece : string) :
  In piece (split_on sep s) ->
  all_chars (fun c => negb (Ascii.eqb c sep)) piece = true.
Proof.
  revert piece. induction s as [|c s IH]; intros piece; simpl.
  - intros [<-|[]]. reflexivity.
  - destruct (Ascii.eqb c sep) eqn:Ec.
    + intros [<-|Hin]; [reflexivity|now apply IH].
    + destruct (split_on sep s) as [|p ps] eqn:Es.
      * intros [<-|[]]. simpl. now rewrite Ec.
      * intros [<-|Hin].
        -- simpl. rewrite Ec. simpl. apply IH. now left.
        -- apply IH. now right.
Qed.

Lemma split_on_plain (sep : ascii) (x : string) :
  all_chars (fun c => negb (Ascii.eqb c sep)) x = true -> split_on sep x = [x].
Proof.
  induction x as [|c x IH]; simpl; [reflexivity|].
  intros H. apply andb_true_iff in H as [Hc Hx].
  apply negb_true_iff in Hc. rewrite Hc, (IH Hx). reflexivity.
Qed.

Lemma split_on_join (sep : ascii) (x rest : string) :
  all_chars (fun c => negb (Ascii.eqb c sep)) x = true ->
  split_on sep (x ++ String sep rest) = x :: split_on sep rest.
Proof.
  induction x as [|c x IH]; intros H.
  - change (EmptyString ++ String sep rest)%string with (String sep rest).
    simpl. now rewrite Ascii.eqb_refl.
  - simpl in H. apply andb_true_iff in H as [Hc Hx].
    apply negb_true_iff in Hc.
    change (String c x ++ String sep rest)%string with (String c (x ++ String sep rest)).
    simpl. rewrite Hc, (IH Hx). reflexivity.
Qed.

End PyStrFacts.

Module ClassifierFacts.
Import Classifier.

Lemma site_labels_above (n : nat) : (5 <= n)%nat -> site_labels !! n = None.
Proof.
  intros Hn. unfold site_labels.
  rewrite !lookup_insert_ne by lia. apply lookup_empty.
Qed.

(** C2: with the default ["unknown"] that [site_info] passes, the classifier
    sends cardinality 1 to "top", 2 to "bridge", 3 to "3-fold", 4 to "4-fold"
    and every other cardinality (0 and every n >= 5) to "unknown". *)
Theorem classify_fixed_lookup (n : nat) :
  classify n (Some "unknown") = Some (site_label_of_cardinality n)
  /\ classify 1 (Some "unknown") = Some "top"
  /\ classify 2 (Some "unknown") = Some "bridge"
  /\ classify 3 (Some "unknown") = Some "3-fold"
  /\ classify 4 (Some "unknown") = Some "4-fold"
  /\ classify 0 (Some "unknown") = Some "unknown"
  /\ classify (5 + n) (Some "unknown") = Some "unknown".
Proof.
  assert (Hhi : forall m, classify (5 + m) (Some "unknown") = Some "unknown").
  { intros m. unfold classify, dict_get. rewrite site_labels_above; [reflexivity | lia]. }
  repeat split; try reflexivity; try exact (Hhi n).
  destruct n as [|[|[|[|[|k]]]]]; try reflexivity.
  exact (Hhi k).
Qed.

End ClassifierFacts.

Module TilingFacts.
Import Ase Double DoubleSpec Tiling TilingSpec DoubleFacts.

Lemma Qeq_bool_false_pos (x : Q) : (0 < x)%Q -> Qeq_bool x 0 = false.
Proof.
  intros Hx. destruct (Qeq_bool x 0) eqn:E; [|reflexivity].
  apply Qeq_bool_eq in E. lra.
Qed.








Lemma range_length (m : Z) : List.length (range m) = Z.to_nat m.
Proof. unfold range. now rewrite length_map, length_seq. Qed.





Section WithNorm.

Variable norm : vec3 -> Q.

(** The properties of the Euclidean norm that tiling relies on. *)
Hypothesis norm_zero : forall v : vec3, vany v = false -> (norm v == 0)%Q.
Hypothesis norm_nonneg : forall v : vec3, (0 <= norm v)%Q.




End WithNorm.



(** The 3 x 5 cell is repeated 3 x 2 times: six copies of the two substrate
    atoms, then the single adsorbate. *)
Example tile_substrate_demo_tags :
  get_tags (SiteInfo.try_except (tile_substrate norm1 demo_slab default_min_ab)
                                (fun _ => demo_slab))
  = [0; 1; 0; 1; 0; 1; 0; 1; 0; 1; 0; 1; 2]%Z.
Proof. vm_compute. reflexivity. Qed.

(** A cell that is already wide enough is left as it is. *)
Example tile_substrate_noop_demo :
  tile_substrate norm1 wide_slab default_min_ab = Ok wide_slab.
Proof. vm_compute. reflexivity. Qed.



End TilingFacts.

Module NearestFacts.
Import Ase Double DoubleSpec Nearest NearestSpec DoubleFacts.

Lemma Qltb_lt (x y : Q) : Qltb x y = true <-> (x < y)%Q.
Proof.
  unfold Qltb. rewrite negb_true_iff. split; intros H.
  - destruct (Qlt_le_dec x y) as [Hlt|Hle]; [exact Hlt|].
    apply Qle_bool_iff in Hle. congruence.
  - destruct (Qle_bool y x) eqn:E; [|reflexivity].
    apply Qle_bool_iff in E. lra.
Qed.

Lemma Qle_bool_false (x y : Q) : Qle_bool x y = false -> (y < x)%Q.
Proof.
  intros H. destruct (Qlt_le_dec y x) as [Hlt|Hle]; [exact Hlt|].
  apply Qle_bool_iff in Hle. congruence.
Qed.

Lemma insert_by_key_perm {B : Type} (x : Q * B) (l : list (Q * B)) :
  Permutation (insert_by_key x l) (x :: l).
Proof.
  induction l as [|y l IH]; simpl; [reflexivity|].
  destruct (Qle_bool (fst x) (fst y)); [reflexivity|].
  rewrite IH. apply perm_swap.
Qed.

Lemma sorted_by_key_perm {B : Type} (l : list (Q * B)) :
  Permutation (sorted_by_key l) l.
Proof.
  induction l as [|x l IH]; simpl; [reflexivity|].
  rewrite insert_by_key_perm. now constructor.
Qed.

Lemma insert_by_key_sorted {B : Type} (x : Q * B) (l : list (Q * B)) :
  StronglySorted key_le l -> StronglySorted key_le (insert_by_key x l).
Proof.
  induction l as [|y l IH]; intros Hs; simpl.
  - repeat constructor.
  - inversion Hs as [|? ? Hs' Hall]; subst.
    destruct (Qle_bool (fst x) (fst y)) eqn:E.
    + apply Qle_bool_iff in E. constructor; [exact Hs|].
      constructor; [exact E|].
      eapply List.Forall_impl; [|exact Hall].
      intros z Hz. unfold key_le in *. lra.
    + apply Qle_bool_false in E. constructor; [now apply IH|].
      rewrite (insert_by_key_perm x l). constructor; [|exact Hall].
      unfold key_le. lra.
Qed.

Lemma sorted_by_key_sorted {B : Type} (l : list (Q * B)) :
  StronglySorted key_le (sorted_by_key l).
Proof.
  induction l as [|x l IH]; simpl; [constructor|].
  now apply insert_by_key_sorted.
Qed.

Lemma filter_perm {A : Type} (f : A -> bool) (l l' : list A) :
  Permutation l l' -> Permutation (List.filter f l) (List.filter f l').
Proof.
  induction 1 as [|x l l' _ IH|x y l|l l' l'' _ IH1 _ IH2]; simpl.
  - reflexivity.
  - destruct (f x); [now constructor|exact IH].
  - destruct (f x), (f y); try reflexivity. apply perm_swap.
  - now rewrite IH1.
Qed.

Lemma filter_strongly_sorted {A : Type} (R : A -> A -> Prop) (f : A -> bool)
      (l : list A) :
  StronglySorted R l -> StronglySorted R (List.filter f l).
Proof.
  induction 1 as [|x l Hs IH Hall]; simpl; [constructor|].
  destruct (f x); [|exact IH].
  constructor; [exact IH|].
  rewrite List.Forall_forall in *. intros y Hy.
  apply filter_In in Hy as [Hy _]. now apply Hall.
Qed.

Lemma map_strongly_sorted {A B : Type} (R : B -> B -> Prop) (g : A -> B)
      (l : list A) :
  StronglySorted (fun a b => R (g a) (g b)) l -> StronglySorted R (map g l).
Proof.
  induction 1 as [|x l Hs IH Hall]; simpl; constructor; [exact IH|].
  rewrite List.Forall_forall in *. intros y Hy.
  apply in_map_iff in Hy as [a [<- Ha]]. now apply Hall.
Qed.

Lemma combine_map_self (d : nat -> Q) (idx : list nat) :
  combine (map d idx) idx = map (fun j => (d j, j)) idx.
Proof. induction idx as [|j idx IH]; simpl; [reflexivity|now rewrite IH]. Qed.

Lemma in_positive_pairs (d : nat -> Q) (idx : list nat) (p : Q * nat) :
  In p (positive_pairs d idx) <-> In (snd p) idx /\ fst p = d (snd p) /\ (0 < fst p)%Q.
Proof.
  unfold positive_pairs. rewrite filter_In, in_map_iff, Qltb_lt. split.
  - intros [[j [<- Hj]] Hpos]. simpl in *. auto.
  - intros (Hin & Hd & Hpos). split; [|exact Hpos].
    exists (snd p). split; [|exact Hin]. destruct p; simpl in *. now subst.
Qed.

Lemma selected_indices (d : nat -> Q) (keep : Q -> bool) (idx : list nat) :
  map snd (List.filter (fun p => keep (fst p)) (positive_pairs d idx))
  = List.filter (fun j => Qltb 0 (d j) && keep (d j)) idx.
Proof.
  unfold positive_pairs.
  induction idx as [|j idx IH]; simpl; [reflexivity|].
  destruct (Qltb 0 (d j)); simpl; [|exact IH].
  destruct (keep (d j)); simpl; [now rewrite IH|exact IH].
Qed.

(** The cut-off depends on the value of the distance only. *)
Lemma cutoff_comp (a b x : Q) (y : pyfloat) :
  (0 < a)%Q -> (a == b)%Q -> le_float x (fmul a y) = le_float x (fmul b y).
Proof.
  intros Ha Hab.
  assert (Hb : (0 < b)%Q) by lra.
  destruct y as [q| | |]; unfold fmul.
  - assert (Hq : (a * q == b * q)%Q) by now rewrite Hab.
    apply le_float_antisym; apply round_mono; lra.
  - now rewrite (Qeq_bool_false_pos' a Ha), (Qeq_bool_false_pos' b Hb),
      (Qle_bool_pos a Ha), (Qle_bool_pos b Hb).
  - now rewrite (Qeq_bool_false_pos' a Ha), (Qeq_bool_false_pos' b Hb),
      (Qle_bool_pos a Ha), (Qle_bool_pos b Hb).
  - reflexivity.
Qed.

Lemma classic_tail_positive (d : nat -> Q) (surf : list nat) :
  (exists k, In k surf /\ (0 < d k)%Q) \/ (forall k, In k surf -> ~ (0 < d k)%Q).
Proof.
  induction surf as [|j surf [[k [Hk Hpos]]|IH]].
  - right. intros k [].
  - left. exists k. split; [now right|exact Hpos].
  - destruct (Qlt_le_dec 0 (d j)) as [Hj|Hj].
    + left. exists j. split; [now left|exact Hj].
    + right. intros k [<-|Hk]; [lra|now apply IH].
Qed.

Lemma exists_min_positive (d : nat -> Q) (surf : list nat) :
  (exists k, In k surf /\ (0 < d k)%Q) ->
  exists m, In m surf /\ (0 < d m)%Q
            /\ forall k, In k surf -> (0 < d k)%Q -> (d m <= d k)%Q.
Proof.
  induction surf as [|j surf IH]; intros [k [Hk Hpos]]; [destruct Hk|].
  destruct (Qlt_le_dec 0 (d j)) as [Hj|Hj].
  - (* j is a candidate; compare it with the best of the tail, if any *)
    destruct (classic_tail_positive d surf) as [Hsome|Hnone].
    + destruct (IH Hsome) as (m & Hm & Hmpos & Hmin).
      destruct (Qlt_le_dec (d m) (d j)) as [Hlt|Hle].
      * exists m. split; [now right|]. split; [exact Hmpos|].
        intros q [<-|Hq] Hqpos; [lra|now apply Hmin].
      * exists j. split; [now left|]. split; [exact Hj|].
        intros q [<-|Hq] Hqpos; [lra|]. specialize (Hmin q Hq Hqpos). lra.
    + exists j. split; [now left|]. split; [exact Hj|].
      intros q [<-|Hq] Hqpos; [lra|]. exfalso. exact (Hnone q Hq Hqpos).
  - destruct Hk as [<-|Hk]; [lra|].
    destruct (IH (ex_intro _ k (conj Hk Hpos))) as (m & Hm & Hmpos & Hmin).
    exists m. split; [now right|]. split; [exact Hmpos|].
    intros q [<-|Hq] Hqpos; [lra|now apply Hmin].
Qed.

Section WithDistances.

Variable mic_distance : Atoms -> nat -> nat -> result float64.

Lemma get_distances_ok (atoms : Atoms) (i : nat) (d : nat -> float64) (idx : list nat) :
  idx <> [] ->
  Forall (fun j => mic_distance atoms i j = Ok (d j)) idx ->
  get_distances mic_distance atoms i idx = Ok (map d idx).
Proof.
  intros Hne H. unfold get_distances. destruct idx as [|j0 idx0]; [congruence|].
  clear Hne. induction H as [|j idx Hj _ IH]; [reflexivity|].
  now apply mapM_cons_ok.
Qed.

(** What [nearest_idx] computes once the distances are there. *)
Lemma nearest_idx_run (atoms : Atoms) (ads_i : nat) (surf : list nat) (tol : Q)
      (d : nat -> float64) :
  surf <> [] ->
  Forall (fun j => mic_distance atoms ads_i j = Ok (d j)) surf ->
  nearest_idx mic_distance atoms ads_i surf tol
  = Ok match sorted_by_key (positive_pairs (fun j => value (d j)) surf) with
       | [] => []
       | p0 :: rest =>
           map snd (List.filter (fun p => le_float (fst p) (fmul (fst p0) (fadd 1 tol)))
                                (p0 :: rest))
       end.
Proof.
  intros Hne Hd. unfold nearest_idx.
  rewrite (get_distances_ok _ _ d _ Hne Hd). unfold mbind, result_bind.
  rewrite List.map_map, (combine_map_self (fun j => value (d j))).
  fold (positive_pairs (fun j => value (d j)) surf).
  destruct (sorted_by_key (positive_pairs (fun j => value (d j)) surf)); reflexivity.
Qed.

Lemma nearest_idx_characterised (atoms : Atoms) (ads_i : nat) (surf : list nat)
        (tol : Q) (d : nat -> float64) :
  surf <> [] ->
  Forall (fun j => mic_distance atoms ads_i j = Ok (d j)) surf ->
  exists near : list nat,
    nearest_idx mic_distance atoms ads_i surf tol = Ok near
    /\ (forall m : nat,
          In m surf -> (0 < d m)%Q ->
          (forall k, In k surf -> (0 < d k)%Q -> (d m <= d k)%Q) ->
          Permutation near
            (List.filter (fun j => Qltb 0 (d j)
                                   && le_float (d j) (fmul (d m) (fadd 1 tol))) surf))
    /\ StronglySorted (fun i j => (d i <= d j)%Q) near
    /\ (forall j, In j near -> In j surf /\ (0 < d j)%Q)
    /\ ((forall k, In k surf -> ~ (0 < d k)%Q) -> near = []).
Proof.
  intros Hne Hd. rewrite (nearest_idx_run atoms ads_i surf tol d Hne Hd).
  set (dq := fun j => value (d j)).
  pose proof (sorted_by_key_perm (positive_pairs dq surf)) as Hperm.
  pose proof (sorted_by_key_sorted (positive_pairs dq surf)) as Hsorted.
  destruct (sorted_by_key (positive_pairs dq surf)) as [|p0 rest] eqn:Epairs.
  - (* no pair at a positive distance *)
    exists []. split; [reflexivity|]. split.
    { intros m Hm Hpos _. exfalso.
      assert (Hin : In (dq m, m) (positive_pairs dq surf)).
      { apply in_positive_pairs. simpl. auto. }
      apply (Permutation_in _ (Permutation_sym Hperm)) in Hin. exact Hin. }
    split; [constructor|]. split; [intros j []|]. reflexivity.
  - set (cutoff := fmul (fst p0) (fadd 1 tol)).
    eexists. split; [reflexivity|].
    assert (Hp0 : In p0 (positive_pairs dq surf)).
    { apply (Permutation_in _ Hperm). now left. }
    apply in_positive_pairs in Hp0 as (Hp0in & Hp0d & Hp0pos).
    assert (Hnear :
      Permutation
        (map snd (List.filter (fun p => le_float (fst p) cutoff) (p0 :: rest)))
        (List.filter (fun j => Qltb 0 (dq j) && le_float (dq j) cutoff) surf)).
    { rewrite <- (selected_indices dq (fun x => le_float x cutoff)).
      apply Permutation_map, filter_perm, Hperm. }
    split; [|split; [|split]].
    + intros m Hm Hpos Hmin.
      assert (Hmp : In (dq m, m) (p0 :: rest)).
      { apply (Permutation_in _ (Permutation_sym Hperm)), in_positive_pairs.
        simpl. auto. }
      assert (Hle : (fst p0 <= dq m)%Q).
      { destruct Hmp as [->|Hmp]; [simpl; lra|].
        inversion Hsorted as [|? ? _ Hall]; subst.
        rewrite List.Forall_forall in Hall. exact (Hall _ Hmp). }
      assert (Hge : (dq m <= fst p0)%Q).
      { rewrite Hp0d. apply Hmin; [exact Hp0in|]. unfold dq in Hp0d. now rewrite <- Hp0d. }
      rewrite Hnear. erewrite filter_ext; [reflexivity|].
      intros j. simpl. f_equal. unfold cutoff. unfold dq in *. apply cutoff_comp; lra.
    + apply map_strongly_sorted, filter_strongly_sorted.
      assert (Hall : Forall (fun p => fst p = dq (snd p)) (p0 :: rest)).
      { rewrite List.Forall_forall. intros p Hp.
        apply (Permutation_in _ Hperm), in_positive_pairs in Hp. tauto. }
      clear -Hsorted Hall.
      induction Hsorted as [|p l Hs IH Hfa]; [constructor|].
      inversion Hall as [|? ? Hp Hl]; subst.
      constructor; [now apply IH|].
      rewrite List.Forall_forall in *. intros q Hq.
      unfold dq in *. rewrite <- Hp, <- (Hl q Hq). exact (Hfa q Hq).
    + intros j Hj. apply (Permutation_in _ Hnear), filter_In in Hj as [Hin Hj].
      apply andb_true_iff in Hj as [Hj _]. split; [exact Hin|now apply Qltb_lt].
    + intros Hnone. exfalso. apply (Hnone _ Hp0in). unfold dq in Hp0d. now rewrite <- Hp0d.
Qed.

Lemma nearest_idx_empty_iff (atoms : Atoms) (ads_i : nat) (surf near : list nat)
      (tol : Q) (d : nat -> float64) :
  (0 <= tol)%Q ->
  surf <> [] ->
  Forall (fun j => mic_distance atoms ads_i j = Ok (d j)) surf ->
  nearest_idx mic_distance atoms ads_i surf tol = Ok near ->
  near = [] <-> (forall k, In k surf -> ~ (0 < d k)%Q).
Proof.
  intros Htol Hne Hd Hnear.
  destruct (nearest_idx_characterised atoms ads_i surf tol d Hne Hd)
    as (near' & Hrun & Hperm & _ & _ & Hnone).
  rewrite Hrun in Hnear. injection Hnear as ->.
  split; [|exact Hnone].
  intros -> k Hk Hpos.
  destruct (exists_min_positive (fun j => value (d j)) surf (ex_intro _ k (conj Hk Hpos)))
    as (m & Hm & Hmpos & Hmin).
  specialize (Hperm m Hm Hmpos Hmin).
  apply Permutation_nil in Hperm.
  assert (Hin : In m (List.filter
                        (fun j => Qltb 0 (d j)
                                  && le_float (d j) (fmul (d m) (fadd 1 tol))) surf)).
  { apply filter_In. split; [exact Hm|].
    apply andb_true_iff. split; [now apply Qltb_lt|].
    apply fmul_keeps; [exact Hmpos|now apply fadd_one_above]. }
  rewrite Hperm in Hin. destruct Hin.
Qed.

(** C3: the search over the surface indices. On an empty index list the
    distance call raises [ValueError] before the guard for an empty list of
    pairs is reached, so nothing is returned. On a non-empty one
    [nearest_idx] returns exactly the surface indices whose distance to the
    adsorbate is positive and at most the cut-off, the double product of the
    smallest positive distance and [1 + tol], in ascending order of
    distance; entries at distance zero are discarded, and the result is
    empty when none is at a positive distance. *)
Theorem nearest_idx_exact (atoms : Atoms) (ads_i : nat) (surf : list nat)
        (tol : Q) (d : nat -> float64) :
  surf <> [] ->
  Forall (fun j => mic_distance atoms ads_i j = Ok (d j)) surf ->
  nearest_idx mic_distance atoms ads_i [] tol = Raise ValueError
  /\ exists near : list nat,
       nearest_idx mic_distance atoms ads_i surf tol = Ok near
       /\ (forall m : nat,
             In m surf -> (0 < d m)%Q ->
             (forall k, In k surf -> (0 < d k)%Q -> (d m <= d k)%Q) ->
             Permutation near
               (List.filter (fun j => Qltb 0 (d j)
                                      && le_float (d j) (fmul (d m) (fadd 1 tol))) surf))
       /\ StronglySorted (fun i j => (d i <= d j)%Q) near
       /\ (forall j, In j near -> In j surf /\ (0 < d j)%Q)
       /\ ((forall k, In k surf -> ~ (0 < d k)%Q) -> near = []).
Proof.
  intros Hne Hd. split; [reflexivity|].
  exact (nearest_idx_characterised atoms ads_i surf tol d Hne Hd).
Qed.

End WithDistances.

Example nearest_idx_demo :
  nearest_idx demo_distance TilingSpec.demo_slab 5 [0; 1; 2; 3; 4]%nat default_tol
  = Ok [1; 4; 2]%nat.
Proof. vm_compute. reflexivity. Qed.

(** Four equidistant neighbours give a coordination set of four, which the
    classifier labels "4-fold". *)
Example four_fold_demo :
  nearest_idx hollow_distance TilingSpec.demo_slab 5 [0; 1; 2; 3; 4]%nat default_tol
  = Ok [0; 1; 2; 3]%nat
  /\ Classifier.classify 4 (Some "unknown") = Some "4-fold".
Proof. split; vm_compute; reflexivity. Qed.

(** The cut-off is a double: with the nearest atom at 1.0 and the default
    tolerance it is the double written [1.1], which lies above
    [1.0 * (1 + 0.10)] taken exactly; an atom at that distance is kept. *)
Example nearest_idx_cutoff_is_rounded :
  nearest_idx edge_distance TilingSpec.demo_slab 5 [0; 1]%nat default_tol = Ok [0; 1]%nat
  /\ (edge_d 0 * (1 + default_tol) < edge_d 1)%Q.
Proof. split; vm_compute; reflexivity. Qed.

Lemma nearest_idx_exact_witness :
  nearest_idx demo_distance TilingSpec.demo_slab 5 [] default_tol = Raise ValueError
  /\ exists near : list nat,
       nearest_idx demo_distance TilingSpec.demo_slab 5 [0; 1; 2; 3; 4]%nat default_tol
       = Ok near
       /\ (forall m : nat,
             In m [0; 1; 2; 3; 4]%nat -> (0 < demo_d m)%Q ->
             (forall k, In k [0; 1; 2; 3; 4]%nat -> (0 < demo_d k)%Q ->
                        (demo_d m <= demo_d k)%Q) ->
             Permutation near
               (List.filter (fun j => Qltb 0 (demo_d j)
                                      && le_float (demo_d j)
                                           (fmul (demo_d m) (fadd 1 default_tol)))
                            [0; 1; 2; 3; 4]%nat))
       /\ StronglySorted (fun i j => (demo_d i <= demo_d j)%Q) near
       /\ (forall j, In j near -> In j [0; 1; 2; 3; 4]%nat /\ (0 < demo_d j)%Q)
       /\ ((forall k, In k [0; 1; 2; 3; 4]%nat -> ~ (0 < demo_d k)%Q) -> near = []).
Proof.
  apply (nearest_idx_exact demo_distance TilingSpec.demo_slab 5
                           [0; 1; 2; 3; 4]%nat default_tol demo_d).
  - discriminate.
  - repeat constructor.
Defined.

End NearestFacts.

Module SiteInfoFacts.
Import Ase Double DoubleSpec Traj Table Tiling Nearest Classifier SiteInfo SiteInfoSpec.

Lemma where_from_bounds (s : nat) (mask : list bool) (i : nat) :
  In i (where_from s mask) -> (s <= i < s + List.length mask)%nat.
Proof.
  revert s. induction mask as [|b mask IH]; intros s Hi; simpl in *; [destruct Hi|].
  destruct b.
  - destruct Hi as [<-|Hi]; [lia|]. apply IH in Hi. lia.
  - apply IH in Hi. lia.
Qed.

Lemma np_where_tags_valid (tiled : Atoms) (f : Z -> bool) (i : nat) :
  In i (np_where (map f (get_tags tiled))) -> (i < List.length (atom_list tiled))%nat.
Proof.
  intros Hi. apply where_from_bounds in Hi.
  unfold get_tags in Hi. rewrite !length_map in Hi. lia.
Qed.

Lemma symbols_of_valid (tiled : Atoms) (near : list nat) :
  (forall i, In i near -> (i < List.length (atom_list tiled))%nat) ->
  exists syms : list string,
    mapM (symbol_at tiled) near = Ok syms
    /\ Forall2 (fun i s => exists a, atom_list tiled !! i = Some a /\ symbol a = s)
               near syms.
Proof.
  induction near as [|i near IH]; intros Hvalid.
  - exists []. split; [reflexivity|constructor].
  - destruct IH as (syms & Hrun & Hall); [intros j Hj; apply Hvalid; now right|].
    destruct (lookup_lt_is_Some_2 (atom_list tiled) i) as [a Ha];
      [apply Hvalid; now left|].
    exists (symbol a :: syms). split.
    + apply mapM_cons_ok; [|exact Hrun]. unfold symbol_at. now rewrite Ha.
    + constructor; [eauto|exact Hall].
Qed.

Section WithLibraries.

Variable norm : vec3 -> Q.
Variable mic_distance : Atoms -> nat -> nat -> result float64.
Variable fs : filesystem.

(** C7: when the classification of a row raises (reading the trajectory,
    tiling, or computing distances), [site_info] returns [None] for both
    [site_type] and [nearest_atoms] of that row, and the rows before and
    after it are processed as usual: the batch yields one series per row. *)
Theorem site_info_null_on_exception (before after : list record) (row : record)
        (e : exn) :
  site_info_body norm mic_distance fs row = Raise e ->
  site_info norm mic_distance fs row = (None, None)
  /\ apply_site_info norm mic_distance fs (before ++ row :: after)
     = apply_site_info norm mic_distance fs before
       ++ (None, None) :: apply_site_info norm mic_distance fs after
  /\ List.length (apply_site_info norm mic_distance fs (before ++ row :: after))
     = List.length (before ++ row :: after).
Proof.
  intros Hraise.
  assert (Hnull : site_info norm mic_distance fs row = (None, None)).
  { unfold site_info, try_except. now rewrite Hraise. }
  split; [exact Hnull|]. split.
  - unfold apply_site_info. rewrite map_app. simpl. now rewrite Hnull.
  - unfold apply_site_info. apply length_map.
Qed.

(** The three sources of exceptions named in the design all end in the
    [except] branch. *)
Lemma site_info_body_raises_on_missing_file (row : record) :
  fs !! traj_file row = None ->
  site_info_body norm mic_distance fs row = Raise FileNotFoundError.
Proof.
  intros H. unfold site_info_body, read_last, read_all. now rewrite H.
Qed.

Lemma site_info_body_raises_on_tiling (row : record) (atoms : Atoms) (e : exn) :
  read_last fs (traj_file row) = Ok atoms ->
  tile_substrate norm atoms default_min_ab = Raise e ->
  site_info_body norm mic_distance fs row = Raise e.
Proof.
  intros Hr Ht. unfold site_info_body. rewrite Hr.
  unfold mbind at 1, result_bind at 1. now rewrite Ht.
Qed.

Lemma site_info_body_raises_on_distances (row : record) (atoms tiled : Atoms)
      (ads_i : nat) (e : exn) :
  read_last fs (traj_file row) = Ok atoms ->
  tile_substrate norm atoms default_min_ab = Ok tiled ->
  first_item (np_where (map (Z.eqb 2) (get_tags tiled))) = Ok ads_i ->
  get_distances mic_distance tiled ads_i (np_where (map (Z.eqb 1) (get_tags tiled)))
  = Raise e ->
  site_info_body norm mic_distance fs row = Raise e.
Proof.
  intros Hr Ht Ha Hd. unfold site_info_body. rewrite Hr.
  unfold mbind at 1, result_bind at 1. rewrite Ht.
  unfold mbind at 1, result_bind at 1. rewrite Ha.
  unfold mbind at 1, result_bind at 1.
  unfold nearest_idx. rewrite Hd. reflexivity.
Qed.

Lemma site_info_body_after_search (row : record) (atoms tiled : Atoms)
      (ads_i : nat) (near : list nat) :
  read_last fs (traj_file row) = Ok atoms ->
  tile_substrate norm atoms default_min_ab = Ok tiled ->
  first_item (np_where (map (Z.eqb 2) (get_tags tiled))) = Ok ads_i ->
  nearest_idx mic_distance tiled ads_i (np_where (map (Z.eqb 1) (get_tags tiled)))
              default_tol = Ok near ->
  site_info_body norm mic_distance fs row
  = (near_syms ← match near with
                 | [] => Ok None
                 | _ :: _ => syms ← mapM (symbol_at tiled) near; Ok (Some syms)
                 end;
     Ok (classify (List.length near) (Some "unknown"), near_syms)).
Proof.
  intros Hread Htile Hads Hrun. unfold site_info_body.
  rewrite Hread. unfold mbind at 1, result_bind at 1.
  rewrite Htile. unfold mbind at 1, result_bind at 1. cbv zeta.
  rewrite Hads. unfold mbind at 1, result_bind at 1.
  rewrite Hrun. reflexivity.
Qed.

(** On a structure without surface atoms the search raises inside the
    [try] block. *)
Lemma site_info_body_without_surface (row : record) (atoms tiled : Atoms)
      (ads_i : nat) :
  read_last fs (traj_file row) = Ok atoms ->
  tile_substrate norm atoms default_min_ab = Ok tiled ->
  first_item (np_where (map (Z.eqb 2) (get_tags tiled))) = Ok ads_i ->
  np_where (map (Z.eqb 1) (get_tags tiled)) = [] ->
  site_info_body norm mic_distance fs row = Raise ValueError.
Proof.
  intros Hread Htile Hads Hsurf.
  apply (site_info_body_raises_on_distances row atoms tiled ads_i); try assumption.
  now rewrite Hsurf.
Qed.

(** C9: for a row whose trajectory is read and whose classification reaches
    the neighbour search. Without any surface atom the search raises and the
    row gets [(None, None)], not "unknown". With surface atoms the
    coordination set is empty exactly when all of them are at distance zero;
    then [site_type] is "unknown" and [nearest_atoms] is [None], not an
    empty list. Otherwise [nearest_atoms] is the list of the chemical
    symbols of the atoms of the set, in order. *)
Theorem site_info_coordination (row : record) (atoms tiled : Atoms) (ads_i : nat)
        (d : nat -> float64) :
  let surf := np_where (map (Z.eqb 1) (get_tags tiled)) in
  read_last fs (traj_file row) = Ok atoms ->
  tile_substrate norm atoms default_min_ab = Ok tiled ->
  first_item (np_where (map (Z.eqb 2) (get_tags tiled))) = Ok ads_i ->
  (surf = [] -> site_info norm mic_distance fs row = (None, None))
  /\ (surf <> [] ->
      Forall (fun j => mic_distance tiled ads_i j = Ok (d j)) surf ->
      exists near : list nat,
        nearest_idx mic_distance tiled ads_i surf default_tol = Ok near
        /\ (near = [] <-> (forall j, In j surf -> ~ (0 < d j)%Q))
        /\ (near = [] ->
            site_info norm mic_distance fs row = (Some "unknown", None))
        /\ (near <> [] ->
            exists syms : list string,
              site_info norm mic_distance fs row
              = (classify (List.length near) (Some "unknown"), Some syms)
              /\ Forall2 (fun i s => exists a, atom_list tiled !! i = Some a
                                               /\ symbol a = s)
                         near syms)).
Proof.
  intros surf Hread Htile Hads. split.
  { intros Hsurf. unfold site_info.
    now rewrite (site_info_body_without_surface row atoms tiled ads_i Hread Htile Hads Hsurf). }
  intros Hne Hd.
  destruct (NearestFacts.nearest_idx_characterised mic_distance tiled ads_i surf
              default_tol d Hne Hd) as (near & Hrun & _ & _ & Hsub & _).
  exists near. split; [exact Hrun|]. split.
  { apply (NearestFacts.nearest_idx_empty_iff mic_distance tiled ads_i surf near
             default_tol d); [unfold default_tol; lra|exact Hne|exact Hd|exact Hrun]. }
  pose proof (site_info_body_after_search row atoms tiled ads_i near
                Hread Htile Hads Hrun) as Hbody.
  split.
  - intros ->. unfold site_info. rewrite Hbody. reflexivity.
  - intros Hnonempty.
    destruct (symbols_of_valid tiled near) as (syms & Hsyms & Hall).
    { intros i Hi. apply Hsub in Hi as [Hi _].
      now apply np_where_tags_valid in Hi. }
    exists syms. split; [|exact Hall].
    unfold site_info. rewrite Hbody.
    destruct near as [|i near']; [congruence|].
    rewrite Hsyms. reflexivity.
Qed.

End WithLibraries.

Example site_info_demo :
  site_info TilingSpec.norm1 demo_mic demo_fs demo_row = (Some "top", Some ["Cu"]).
Proof. vm_compute. reflexivity. Qed.

Lemma site_info_null_on_exception_witness :
  site_info TilingSpec.norm1 demo_mic demo_fs lost_row = (None, None)
  /\ apply_site_info TilingSpec.norm1 demo_mic demo_fs ([demo_row] ++ lost_row :: [demo_row])
     = apply_site_info TilingSpec.norm1 demo_mic demo_fs [demo_row]
       ++ (None, None) :: apply_site_info TilingSpec.norm1 demo_mic demo_fs [demo_row]
  /\ List.length
       (apply_site_info TilingSpec.norm1 demo_mic demo_fs ([demo_row] ++ lost_row :: [demo_row]))
     = List.length ([demo_row] ++ lost_row :: [demo_row]).
Proof.
  apply (site_info_null_on_exception TilingSpec.norm1 demo_mic demo_fs
           [demo_row] [demo_row] lost_row FileNotFoundError).
  vm_compute. reflexivity.
Defined.

(** A last frame with an adsorbed H and no atom tagged 1: the row gets no
    site type at all. *)
Example site_info_no_surface_demo :
  site_info TilingSpec.norm1 demo_mic MoreSpec.odd_fs MoreSpec.untagged_row
  = (None, None).
Proof. vm_compute. reflexivity. Qed.

Lemma site_info_coordination_witness :
  (np_where (map (Z.eqb 1) (get_tags demo_tiled)) = [] ->
   site_info TilingSpec.norm1 demo_mic demo_fs demo_row = (None, None))
  /\ (np_where (map (Z.eqb 1) (get_tags demo_tiled)) <> [] ->
      Forall (fun j => demo_mic demo_tiled 12 j = Ok (demo_mic_d j))
             (np_where (map (Z.eqb 1) (get_tags demo_tiled))) ->
      exists near : list nat,
        nearest_idx demo_mic demo_tiled 12
                    (np_where (map (Z.eqb 1) (get_tags demo_tiled))) default_tol = Ok near
        /\ (near = [] <->
            (forall j, In j (np_where (map (Z.eqb 1) (get_tags demo_tiled))) ->
                       ~ (0 < demo_mic_d j)%Q))
        /\ (near = [] ->
            site_info TilingSpec.norm1 demo_mic demo_fs demo_row = (Some "unknown", None))
        /\ (near <> [] ->
            exists syms : list string,
              site_info TilingSpec.norm1 demo_mic demo_fs demo_row
              = (classify (List.length near) (Some "unknown"), Some syms)
              /\ Forall2 (fun i s => exists a, atom_list demo_tiled !! i = Some a
                                               /\ symbol a = s)
                         near syms)).
Proof.
  apply (site_info_coordination TilingSpec.norm1 demo_mic demo_fs demo_row
           TilingSpec.demo_slab demo_tiled 12 demo_mic_d).
  - vm_compute. reflexivity.
  - vm_compute. reflexivity.
  - vm_compute. reflexivity.
Defined.

End SiteInfoFacts.

Module PostProcessFacts.
Import Ase Traj Table PyStr PostProcess PostProcessSpec.
Import NearestFacts.

Lemma last_item_cons {A : Type} (x : A) (l : list A) :
  exists y, last_item (x :: l) = Ok y /\ In y (x :: l).
Proof.
  revert x. induction l as [|z l IH]; intros x.
  - exists x. split; [reflexivity|now left].
  - destruct (IH z) as (y & Hy & Hin). exists y. split; [|now right].
    unfold last_item in *. exact Hy.
Qed.

Lemma min_from_spec (best : good_entry) (rest : list good_entry) :
  In (min_from best rest) (best :: rest)
  /\ forall x, In x (best :: rest) -> (good_E (min_from best rest) <= good_E x)%Q.
Proof.
  revert best. induction rest as [|y rest IH]; intros best; simpl min_from.
  - split; [now left|]. intros x [<-|[]]. lra.
  - destruct (Nearest.Qltb (good_E y) (good_E best)) eqn:E.
    + apply Qltb_lt in E. destruct (IH y) as [Hin Hmin]. split.
      * right. exact Hin.
      * intros x [<-|Hx]; [|now apply Hmin].
        specialize (Hmin y ltac:(now left)). lra.
    + assert (Hle : (good_E best <= good_E y)%Q).
      { destruct (Qlt_le_dec (good_E y) (good_E best)) as [Hlt|Hle]; [|exact Hle].
        apply Qltb_lt in Hlt. congruence. }
      destruct (IH best) as [Hin Hmin]. split.
      * destruct Hin as [Hin|Hin]; [now left|right; now right].
      * intros x [<-|[<-|Hx]].
        -- apply Hmin. now left.
        -- specialize (Hmin best ltac:(now left)). lra.
        -- apply Hmin. now right.
Qed.

Lemma max_from_spec (best : Q) (rest : list Q) :
  In (max_from best rest) (best :: rest)
  /\ forall x, In x (best :: rest) -> (x <= max_from best rest)%Q.
Proof.
  revert best. induction rest as [|y rest IH]; intros best; simpl max_from.
  - split; [now left|]. intros x [<-|[]]. lra.
  - destruct (Nearest.Qltb best y) eqn:E.
    + apply Qltb_lt in E. destruct (IH y) as [Hin Hmax]. split.
      * right. exact Hin.
      * intros x [<-|Hx]; [|now apply Hmax].
        specialize (Hmax y ltac:(now left)). lra.
    + assert (Hle : (y <= best)%Q).
      { destruct (Qlt_le_dec best y) as [Hlt|Hle]; [|exact Hle].
        apply Qltb_lt in Hlt. congruence. }
      destruct (IH best) as [Hin Hmax]. split.
      * destruct Hin as [Hin|Hin]; [now left|right; now right].
      * intros x [<-|[<-|Hx]].
        -- apply Hmax. now left.
        -- specialize (Hmax best ltac:(now left)). lra.
        -- apply Hmax. now right.
Qed.

Lemma for_each_app {A S : Type} (body : A -> S -> result S) (xs ys : list A) (st st' : S) :
  for_each body xs st = Ok st' ->
  for_each body (xs ++ ys) st = for_each body ys st'.
Proof.
  revert st. induction xs as [|x xs IH]; intros st H; simpl in *.
  - now injection H as ->.
  - destruct (body x st) as [s1|e]; simpl in *; [now apply IH|discriminate].
Qed.

Section WithLibraries.

Variable is_adsorbate_dissociated : DetectTrajAnomaly -> bool.
Variable is_adsorbate_desorbed : DetectTrajAnomaly -> bool.
Variable has_surface_changed : DetectTrajAnomaly -> bool.
Variable is_adsorbate_intercalated : DetectTrajAnomaly -> bool.
Variable norm : vec3 -> Q.
Variable py_int : string -> result Z.
Variable fs : filesystem.

Local Abbreviation scan_traj :=
  (scan_traj is_adsorbate_dissociated is_adsorbate_desorbed has_surface_changed
             is_adsorbate_intercalated fs).
Local Abbreviation process_slab :=
  (process_slab is_adsorbate_dissociated is_adsorbate_desorbed has_surface_changed
                is_adsorbate_intercalated norm py_int fs).
Local Abbreviation post_process :=
  (post_process is_adsorbate_dissociated is_adsorbate_desorbed has_surface_changed
                is_adsorbate_intercalated norm py_int fs).
Local Abbreviation trajectory_ends := (trajectory_ends fs).
Local Abbreviation passes_checks :=
  (passes_checks is_adsorbate_dissociated is_adsorbate_desorbed has_surface_changed
                 is_adsorbate_intercalated).
Local Abbreviation survives :=
  (survives is_adsorbate_dissociated is_adsorbate_desorbed has_surface_changed
            is_adsorbate_intercalated fs).
Local Abbreviation readable := (readable fs).
Local Abbreviation entry_of :=
  (entry_of is_adsorbate_dissociated is_adsorbate_desorbed has_surface_changed
            is_adsorbate_intercalated fs).
Local Abbreviation has_survivor :=
  (has_survivor is_adsorbate_dissociated is_adsorbate_desorbed has_surface_changed
                is_adsorbate_intercalated fs).
Local Abbreviation well_formed :=
  (well_formed is_adsorbate_dissociated is_adsorbate_desorbed has_surface_changed
               is_adsorbate_intercalated py_int fs).
Local Abbreviation selected :=
  (selected is_adsorbate_dissociated is_adsorbate_desorbed has_surface_changed
            is_adsorbate_intercalated norm fs).
Local Abbreviation written_row := (written_row py_int).


Lemma entry_of_Some (path : string) (g : good_entry) :
  entry_of path = Some g <->
  exists final, survives path final
                /\ g = mk_good (potential_energy final) (frame_forces final) path.
Proof.
  unfold entry_of, survives, trajectory_ends, passes_checks, read_all. split.
  - destruct (fs !! path) as [[|first rest]|] eqn:Efs; try discriminate.
    destruct (last_item (first :: rest)) as [final|] eqn:El; try discriminate.
    destruct (_ || _) eqn:Ean; try discriminate.
    intros [= <-]. exists final. split; [|reflexivity].
    exists first. split; [exists (first :: rest); auto|].
    apply orb_false_elim in Ean as [Ean H4].
    apply orb_false_elim in Ean as [Ean H3].
    apply orb_false_elim in Ean as [H1 H2]. auto.
  - intros (final & (first & (frames & Hr & Hf & Hl) & H1 & H2 & H3 & H4) & ->).
    destruct (fs !! path) as [frames'|]; [|discriminate].
    injection Hr as ->. destruct frames as [|f0 rest]; [discriminate|].
    injection Hf as ->. rewrite Hl. simpl. now rewrite H1, H2, H3, H4.
Qed.

Lemma scan_traj_readable (path : string) (good : list good_entry) :
  readable path ->
  scan_traj path good = Ok (good ++ option_list (entry_of path)).
Proof.
  intros (f & frames & Hfs). unfold PostProcess.scan_traj, entry_of, read_all.
  rewrite Hfs. unfold mbind at 1, result_bind at 1. simpl first_item.
  unfold mbind at 1, result_bind at 1.
  destruct (last_item_cons f frames) as (final & Hl & _). rewrite Hl.
  unfold mbind at 1, result_bind at 1. cbv zeta. unfold any. simpl existsb.
  rewrite orb_false_r, !orb_assoc.
  destruct (_ || _); simpl; [now rewrite app_nil_r|reflexivity].
Qed.

Lemma scan_all_readable (paths : list string) (good : list good_entry) :
  Forall readable paths ->
  for_each scan_traj paths good = Ok (good ++ omap entry_of paths).
Proof.
  intros Hall. revert good.
  induction Hall as [|path paths Hr _ IH]; intros good; simpl.
  - now rewrite app_nil_r.
  - rewrite (scan_traj_readable _ _ Hr). unfold mbind, result_bind.
    rewrite IH. destruct (entry_of path); simpl.
    + now rewrite <- app_assoc.
    + now rewrite app_nil_r.
Qed.


Lemma omap_entry_nil (paths : list string) :
  omap entry_of paths = [] <->
  existsb (fun path => bool_decide (is_Some (entry_of path))) paths = false.
Proof.
  induction paths as [|path paths IH]; simpl; [tauto|].
  destruct (entry_of path) as [g|] eqn:E; simpl.
  - split; discriminate.
  - exact IH.
Qed.

Lemma process_slab_run (d : slab_dir) (records : list record)
      (bulk_id mid slab_idx : string) :
  split_on "_" (dir_name d) = [bulk_id; mid; slab_idx] ->
  Forall readable (traj_files d) ->
  process_slab d records
  = match omap entry_of (traj_files d) with
    | [] => Ok records
    | g :: gs =>
        max_F ← np_max (map norm (good_F (min_from g gs)));
        idx ← py_int slab_idx;
        Ok (records ++ [mk_record (bulk_id ++ "_H_" ++ slab_idx ++ "_" ++ orient_tag)%string
                                  bulk_id idx orient_tag "H"
                                  (good_E (min_from g gs)) max_F
                                  (good_file (min_from g gs))])
    end.
Proof.
  intros Hsplit Hread. unfold PostProcess.process_slab.
  rewrite Hsplit. cbv zeta. rewrite (scan_all_readable _ _ Hread).
  unfold mbind at 1, result_bind at 1. simpl app.
  destruct (omap entry_of (traj_files d)); reflexivity.
Qed.

Lemma in_omap_entry (paths : list string) (g : good_entry) :
  In g (omap entry_of paths) <->
  exists path, In path paths /\ entry_of path = Some g.
Proof.
  rewrite <- list_elem_of_In, list_elem_of_omap.
  split; intros (path & H1 & H2); exists path; split; auto;
    now apply list_elem_of_In.
Qed.

Lemma process_slab_cases (d : slab_dir) (records : list record) :
  well_formed d ->
  (has_survivor d = false /\ process_slab d records = Ok records)
  \/ (has_survivor d = true
      /\ exists r, process_slab d records = Ok (records ++ [r]) /\ selected d r).
Proof.
  intros ((bulk_id & mid & slab_idx & idx & Hsplit & Hint) & Hread & Hforces).
  rewrite (process_slab_run d records _ _ _ Hsplit Hread).
  destruct (omap entry_of (traj_files d)) as [|g gs] eqn:Egood.
  - left. split; [|reflexivity]. now apply omap_entry_nil.
  - right. split.
    { destruct (has_survivor d) eqn:E; [reflexivity|].
      apply omap_entry_nil in E. congruence. }
    destruct (min_from_spec g gs) as [Hin Hmin].
    set (best := min_from g gs) in *.
    rewrite <- Egood in Hin, Hmin.
    apply in_omap_entry in Hin as (path & Hpath & Hentry).
    apply entry_of_Some in Hentry as (final & Hsurv & Hbest).
    assert (HF : good_F best = frame_forces final) by now rewrite Hbest.
    assert (HE : good_E best = potential_energy final) by now rewrite Hbest.
    assert (Hfile : good_file best = path) by now rewrite Hbest.
    destruct (frame_forces final) as [|f0 fr] eqn:Eforces.
    { exfalso. exact (Hforces _ _ Hpath Hsurv Eforces). }
    rewrite HF. simpl map. simpl np_max. unfold mbind at 1, result_bind at 1.
    rewrite Hint. unfold mbind, result_bind.
    eexists. split; [reflexivity|].
    exists path, final. simpl.
    destruct (max_from_spec (norm f0) (map norm fr)) as [Hmaxin Hmax].
    repeat split; auto.
    + intros path' final' Hin' Hsurv'.
      apply (Hmin (mk_good (potential_energy final') (frame_forces final') path')).
      apply in_omap_entry. exists path'. split; [exact Hin'|].
      apply entry_of_Some. eauto.
    + rewrite Eforces. exact Hmaxin.
    + rewrite Eforces. intros f Hf. apply Hmax.
      change (In (norm f) (map norm (f0 :: fr))). now apply in_map.
    + unfold slab_key. now rewrite Hsplit.
Qed.


Lemma for_each_process_slab (dirs : list slab_dir) (records : list record) :
  Forall well_formed dirs ->
  exists rows,
    for_each process_slab dirs records = Ok (records ++ rows)
    /\ Forall2 (fun d r => key r = slab_key d /\ In (traj_file r) (traj_files d))
               (List.filter has_survivor dirs) rows.
Proof.
  intros Hall. revert records.
  induction Hall as [|d dirs Hwf _ IH]; intros records.
  - exists []. split; [simpl; now rewrite app_nil_r|constructor].
  - simpl for_each. simpl List.filter.
    destruct (process_slab_cases d records Hwf)
      as [[Hnone Hrun]|[Hsome (r & Hrun & Hsel)]].
    + rewrite Hrun, Hnone. unfold mbind, result_bind. apply IH.
    + rewrite Hrun, Hsome. unfold mbind, result_bind.
      destruct (IH (records ++ [r])) as (rows & Hrows & Hcorr).
      exists (r :: rows). split.
      * rewrite Hrows. now rewrite <- app_assoc.
      * constructor; [|exact Hcorr].
        destruct Hsel as (path & final & Hin & _ & Hfile & _ & _ & _ & _ & Hkey).
        split; [exact Hkey|now rewrite Hfile].
Qed.

Lemma process_slab_written (d : slab_dir) (records records' : list record) :
  well_formed d ->
  process_slab d records = Ok records' ->
  Forall written_row records -> Forall written_row records'.
Proof.
  intros ((bulk & mid & idx_text & idx & Hsplit & Hint) & Hread & _) Hrun Hall.
  rewrite (process_slab_run d records _ _ _ Hsplit Hread) in Hrun.
  destruct (omap entry_of (traj_files d)) as [|g gs].
  - now injection Hrun as <-.
  - destruct (np_max _) as [max_F|]; [|discriminate].
    unfold mbind at 1, result_bind at 1 in Hrun. rewrite Hint in Hrun.
    injection Hrun as <-.
    apply Forall_app. split; [exact Hall|]. constructor; [|constructor].
    exists bulk, idx_text. simpl.
    assert (Hpieces : forall piece, In piece [bulk; mid; idx_text] ->
                                    all_chars not_underscore piece = true).
    { rewrite <- Hsplit. apply PyStrFacts.split_on_pieces. }
    repeat split; try reflexivity; try exact Hint.
    + apply Hpieces. now left.
    + apply Hpieces. right. right. now left.
Qed.

(** Every row of the table is one cell 4 wrote. *)
Lemma post_process_rows_written (dirs : list slab_dir) (rows : list record)
      (out : list output) :
  Forall well_formed dirs ->
  post_process dirs = Ok (rows, out) ->
  Forall written_row rows.
Proof.
  intros Hall. unfold PostProcess.post_process.
  destruct (for_each _ dirs []) as [rows'|] eqn:Hrun; [|discriminate].
  intros [= <- _].
  assert (Hgen : forall records records', Forall written_row records ->
             for_each process_slab dirs records = Ok records' ->
             Forall written_row records').
  { clear Hrun. induction Hall as [|d dirs Hwf _ IH]; intros records records' Hw Hr;
      simpl in Hr.
    - now injection Hr as <-.
    - destruct (process_slab d records) as [records1|] eqn:E; [|discriminate].
      apply (IH records1); [|exact Hr].
      now apply (process_slab_written d records). }
  apply (Hgen [] rows'); [constructor|exact Hrun].
Qed.


End WithLibraries.

(** On the worked directory tree the lowest valid energy (-1.5) is selected,
    not the desorbed -2.0, and the slab with no valid trajectory has no row. *)
Example post_process_demo :
  demo_post_process [slab0; slab1]
  = Ok ([ mk_record "mp-1_H_0_221" "mp-1" 0 "221" "H" (-15 # 10) (3 # 100)
                    "InDomain221/mp-1_H_0/config_1.traj" ],
        [RowsCollected 1]).
Proof. vm_compute. reflexivity. Qed.

Lemma tree_well_formed (d : slab_dir) :
  In d [slab0; slab1] ->
  well_formed never demo_desorbed never never PyNum.int_of_decimal tree_fs d.
Proof.
  intros [<-|[<-|[]]].
  - split; [|split].
    + exists "mp-1", "H", "0", 0%Z. split; reflexivity.
    + repeat constructor; eexists; eexists; reflexivity.
    + intros path final Hin (first & (frames & Hr & Hf & Hl) & _).
      simpl in Hin.
      destruct Hin as [<-|[<-|[<-|[<-|[]]]]];
        vm_compute in Hr; injection Hr as <-;
        vm_compute in Hl; injection Hl as <-; discriminate.
  - split; [|split].
    + exists "mp-1", "H", "1", 1%Z. split; reflexivity.
    + repeat constructor; eexists; eexists; reflexivity.
    + intros path final Hin (first & (frames & Hr & Hf & Hl) & _).
      simpl in Hin.
      destruct Hin as [<-|[]];
        vm_compute in Hr; injection Hr as <-;
        vm_compute in Hl; injection Hl as <-; discriminate.
Qed.

Lemma slab0_has_survivor :
  exists path final,
    In path (traj_files slab0)
    /\ survives never demo_desorbed never never tree_fs path final.
Proof.
  exists "InDomain221/mp-1_H_0/config_0.traj", (end_frame (-12 # 10) (2 # 100)).
  split; [now left|].
  exists start_frame. split.
  - eexists. repeat split; reflexivity.
  - repeat split; reflexivity.
Qed.



End PostProcessFacts.

Module MetadataFacts.
Import Double PyStr PyNum Regex Table Metadata Enumeration MetadataSpec.

Lemma star_match_greedy (p : ascii -> bool) (x rest : string)
      (k : string -> string -> option captures) (m : captures) :
  all_chars p x = true -> stops p rest -> k x rest = Some m ->
  star_match p (x ++ rest) k = Some m.
Proof.
  revert k. induction x as [|c x IH]; intros k Hall Hstop Hk; simpl in *.
  - destruct rest as [|c rest]; simpl in *; [exact Hk|now rewrite Hstop].
  - apply andb_true_iff in Hall as [Hc Hall]. rewrite Hc.
    now rewrite (IH (fun consumed rest0 => k (String c consumed) rest0)).
Qed.

Lemma match_at_open_paren (x suffix : string) :
  all_chars not_close_paren x = true ->
  rmatch shift_top_pattern (String "(" (x ++ "), 0.3333, True" ++ suffix)) []
         (fun _ _ caps => Some caps)
  = Some shift_captures.
Proof.
  intros Hx. unfold shift_top_pattern. cbn [pieces rmatch Ascii.eqb Bool.eqb].
  apply star_match_greedy; [exact Hx|reflexivity|].
  reflexivity.
Qed.

Lemma search_eq (r : regex) (s : string) :
  search r s
  = match rmatch r s [] (fun _ _ caps => Some caps) with
    | Some m => Some m
    | None => match s with
              | EmptyString => None
              | String _ s' => search r s'
              end
    end.
Proof. destruct s; reflexivity. Qed.

Lemma all_chars_app (p : ascii -> bool) (x y : string) :
  all_chars p x = true -> all_chars p y = true -> all_chars p (x ++ y) = true.
Proof.
  induction x as [|c x IH]; simpl; [auto|].
  intros Hx Hy. apply andb_true_iff in Hx as [Hc Hx]. rewrite Hc. now apply IH.
Qed.

Lemma string_app_assoc (x y z : string) : ((x ++ y) ++ z = x ++ (y ++ z))%string.
Proof.
  induction x as [|c x IH]; [reflexivity|].
  change (String c ((x ++ y) ++ z) = String c (x ++ (y ++ z)))%string.
  now rewrite IH.
Qed.

Lemma string_app_cons (c : ascii) (x y : string) :
  (String c x ++ y)%string = String c (x ++ y).
Proof. reflexivity. Qed.

Lemma string_app_nil_l (y : string) : (EmptyString ++ y)%string = y.
Proof. reflexivity. Qed.

(** A repetition fails when what follows fails after every initial part of
    the run. *)
Lemma star_match_fail (p : ascii -> bool) (x rest : string)
      (k : string -> string -> option captures) :
  all_chars p x = true -> stops p rest ->
  (forall x1 x2, x = (x1 ++ x2)%string -> k x1 (x2 ++ rest)%string = None) ->
  star_match p (x ++ rest) k = None.
Proof.
  revert k. induction x as [|c x IH]; intros k Hall Hstop Hk.
  - rewrite string_app_nil_l.
    pose proof (Hk EmptyString EmptyString eq_refl) as H0.
    rewrite string_app_nil_l in H0.
    destruct rest as [|c rest]; simpl in *; [exact H0|now rewrite Hstop].
  - simpl in Hall. apply andb_true_iff in Hall as [Hc Hall].
    rewrite string_app_cons. simpl. rewrite Hc.
    rewrite (IH (fun consumed rest0 => k (String c consumed) rest0) Hall Hstop).
    + exact (Hk EmptyString (String c x) eq_refl).
    + intros x1 x2 ->. exact (Hk (String c x1) x2 eq_refl).
Qed.

Lemma all_chars_split (p : ascii -> bool) (x1 x2 : string) (c : ascii) :
  all_chars p (x1 ++ String c x2) = true -> p c = true.
Proof.
  induction x1 as [|a x1 IH]; [rewrite string_app_nil_l|rewrite string_app_cons];
    simpl; intros H; apply andb_true_iff in H as [H1 H2]; auto.
Qed.

(** At an open parenthesis whose group is not followed by a comma the
    pattern does not match. *)
Lemma no_match_at_open_paren (x rest : string) (k : cont) :
  all_chars not_close_paren x = true ->
  stops is_comma rest ->
  rmatch shift_top_pattern (String "(" (x ++ String ")" rest)) [] k = None.
Proof.
  intros Hx Hrest. unfold shift_top_pattern.
  remember (Group 1 (pieces [Opt (Cls is_sign); Star is_digit; Opt (Chr "."); Plus is_digit]))
    as num eqn:Enum.
  remember (Group 2 (Alt (Lit "True") (Lit "False"))) as flag eqn:Eflag.
  cbn [pieces rmatch]. rewrite Ascii.eqb_refl.
  apply star_match_fail; [exact Hx|reflexivity|].
  intros x1 x2 ->. destruct x2 as [|c x2].
  - rewrite string_app_nil_l. cbn [rmatch]. rewrite Ascii.eqb_refl.
    destruct rest as [|c rest]; [reflexivity|].
    unfold stops, is_comma in Hrest. rewrite Ascii.eqb_sym, Hrest. reflexivity.
  - rewrite string_app_cons. cbn [rmatch].
    apply all_chars_split in Hx. unfold not_close_paren in Hx.
    apply negb_true_iff in Hx. rewrite Ascii.eqb_sym, Hx. reflexivity.
Qed.

(** A text is free of closing parentheses, or it has a first one. *)
Lemma first_close_paren (s : string) :
  all_chars not_close_paren s = true
  \/ exists x rest, s = (x ++ String ")" rest)%string
                    /\ all_chars not_close_paren x = true.
Proof.
  induction s as [|c s IH]; [now left|].
  destruct (Ascii.eqb c ")") eqn:Ec.
  - right. apply Ascii.eqb_eq in Ec as ->. exists EmptyString, s. auto.
  - destruct IH as [IH|(x & rest & -> & Hx)].
    + left. simpl. unfold not_close_paren at 1. now rewrite Ec, IH.
    + right. exists (String c x), rest. split; [reflexivity|].
      simpl. unfold not_close_paren at 1. now rewrite Ec, Hx.
Qed.

Lemma no_close_comma_tail (c : ascii) (s : string) :
  no_close_comma (String c s) = true -> no_close_comma s = true.
Proof.
  simpl. destruct s as [|c' s']; [reflexivity|].
  intros H. now apply andb_true_iff in H as [_ H].
Qed.

Lemma no_close_comma_after (x rest : string) :
  no_close_comma (x ++ String ")" rest) = true -> stops is_comma rest.
Proof.
  induction x as [|c x IH].
  - rewrite string_app_nil_l. simpl. destruct rest as [|c' rest]; [reflexivity|].
    intros H. apply andb_true_iff in H as [H _]. simpl in H.
    unfold stops, is_comma. now apply negb_true_iff in H.
  - rewrite string_app_cons. intros H. apply IH. exact (no_close_comma_tail _ _ H).
Qed.

Lemma stops_app (p : ascii -> bool) (rest : string) (c : ascii) (t : string) :
  stops p rest -> p c = false -> stops p (rest ++ String c t).
Proof. destruct rest as [|a rest]; simpl; auto. Qed.

(** If the pattern matches at every open parenthesis that is followed by
    parenthesis-free text and [tail], [search] finds that match behind any
    prefix in which no closing parenthesis is directly followed by a comma:
    before the group, the pattern matches nowhere or with the same groups. *)
Lemma search_behind_prefix (tail : string) (m : captures) (pre body : string) :
  (forall x, all_chars not_close_paren x = true ->
             rmatch shift_top_pattern (String "(" (x ++ tail)) []
                    (fun _ _ caps => Some caps) = Some m) ->
  no_close_comma pre = true ->
  all_chars not_close_paren body = true ->
  search shift_top_pattern (pre ++ String "(" (body ++ tail)) = Some m.
Proof.
  intros Hopen Hpre Hbody. induction pre as [|c pre IH].
  - rewrite search_eq, string_app_nil_l.
    now rewrite (Hopen body Hbody).
  - pose proof (no_close_comma_tail _ _ Hpre) as Hpre'.
    rewrite search_eq, string_app_cons.
    destruct (Ascii.eqb "(" c) eqn:Ec.
    + apply Ascii.eqb_eq in Ec as <-.
      destruct (first_close_paren pre) as [Hfree|(x & rest & -> & Hx)].
      * change (String "(" (body ++ tail)) with ((String "(" body) ++ tail)%string.
        rewrite <- (string_app_assoc pre (String "(" body) tail).
        rewrite (Hopen (pre ++ String "(" body)%string); [reflexivity|].
        apply all_chars_app; [exact Hfree|exact Hbody].
      * rewrite (string_app_assoc x (String ")" rest)), string_app_cons.
        rewrite (no_match_at_open_paren x _ _ Hx).
        -- rewrite <- string_app_cons, <- string_app_assoc. exact (IH Hpre').
        -- apply stops_app; [|reflexivity].
           exact (no_close_comma_after x rest Hpre').
    + assert (Hfail : rmatch shift_top_pattern
                        (String c (pre ++ String "(" (body ++ tail)))
                        [] (fun _ _ caps => Some caps) = None).
      { unfold shift_top_pattern. cbn [pieces rmatch]. now rewrite Ec. }
      rewrite Hfail. exact (IH Hpre').
Qed.

Lemma search_slab_text (pre body suffix : string) :
  no_close_comma pre = true ->
  all_chars not_close_paren body = true ->
  search shift_top_pattern (pre ++ String "(" (body ++ "), 0.3333, True" ++ suffix))
  = Some shift_captures.
Proof.
  intros Hpre Hbody. apply search_behind_prefix; try assumption.
  intros x Hx. now apply match_at_open_paren.
Qed.

Lemma star_match_sound (p : ascii -> bool) (s : string)
      (k : string -> string -> option captures) (m : captures) :
  star_match p s k = Some m ->
  exists consumed rest, all_chars p consumed = true /\ k consumed rest = Some m.
Proof.
  revert k. induction s as [|c s IH]; intros k H; simpl in H.
  - exists EmptyString, EmptyString. auto.
  - destruct (p c) eqn:Ec; [|exists EmptyString, (String c s); auto].
    destruct (star_match p s _) as [m'|] eqn:E.
    + injection H as ->. apply IH in E as (consumed & rest & Hall & Hk).
      exists (String c consumed), rest. simpl. rewrite Ec. auto.
    + exists EmptyString, (String c s). auto.
Qed.

Lemma rmatch_sound (r : regex) (s : string) (caps : captures) (k : cont)
      (m : captures) :
  rmatch r s caps k = Some m ->
  exists consumed rest caps',
    matches r consumed caps caps' /\ k consumed rest caps' = Some m.
Proof.
  revert s caps k.
  induction r as [c|p|text|r1 IH1 r2 IH2|r1 IH1 r2 IH2|r1 IH1|p|p|n r1 IH1];
    intros s caps k H; simpl in H.
  - destruct s as [|c' s]; [discriminate|].
    destruct (Ascii.eqb c c') eqn:E; [|discriminate].
    apply Ascii.eqb_eq in E as <-.
    do 3 eexists. split; [apply M_Chr|exact H].
  - destruct s as [|c' s]; [discriminate|].
    destruct (p c') eqn:E; [|discriminate].
    do 3 eexists. split; [apply M_Cls, E|exact H].
  - destruct (strip_prefix text s); [|discriminate].
    do 3 eexists. split; [apply M_Lit|exact H].
  - apply IH1 in H as (c1 & s1 & caps1 & Hm1 & H).
    apply IH2 in H as (c2 & s2 & caps2 & Hm2 & H).
    do 3 eexists. split; [exact (M_Seq _ _ _ _ _ _ _ Hm1 Hm2)|exact H].
  - destruct (rmatch r1 s caps k) as [m'|] eqn:E.
    + injection H as ->. apply IH1 in E as (c & rest & caps' & Hm & Hk).
      do 3 eexists. split; [apply M_AltL, Hm|exact Hk].
    + apply IH2 in H as (c & rest & caps' & Hm & Hk).
      do 3 eexists. split; [apply M_AltR, Hm|exact Hk].
  - destruct (rmatch r1 s caps k) as [m'|] eqn:E.
    + injection H as ->. apply IH1 in E as (c & rest & caps' & Hm & Hk).
      do 3 eexists. split; [apply M_OptSome, Hm|exact Hk].
    + do 3 eexists. split; [apply M_OptNone|exact H].
  - apply star_match_sound in H as (c & rest & Hall & Hk).
    do 3 eexists. split; [apply M_Star, Hall|exact Hk].
  - destruct s as [|ch s]; [discriminate|].
    destruct (p ch) eqn:E; [|discriminate].
    apply star_match_sound in H as (c & rest & Hall & Hk).
    do 3 eexists. split; [apply (M_Plus _ _ _ _ E Hall)|exact Hk].
  - apply IH1 in H as (c & rest & caps' & Hm & Hk).
    do 3 eexists. split; [apply M_Group, Hm|exact Hk].
Qed.

Lemma search_sound (r : regex) (s : string) (m : captures) :
  search r s = Some m -> exists consumed, matches r consumed [] m.
Proof.
  induction s as [|c s IH]; rewrite search_eq.
  - destruct (rmatch r EmptyString [] _) as [m'|] eqn:E; [|discriminate].
    intros [= ->]. apply rmatch_sound in E as (consumed & _ & caps' & Hm & [= ->]).
    eauto.
  - destruct (rmatch r (String c s) [] _) as [m'|] eqn:E; [|exact IH].
    intros [= ->]. apply rmatch_sound in E as (consumed & _ & caps' & Hm & [= ->]).
    eauto.
Qed.

Lemma string_app_nil_r (x : string) : (x ++ EmptyString)%string = x.
Proof.
  induction x as [|c x IH]; [reflexivity|].
  rewrite string_app_cons. now rewrite IH.
Qed.

Lemma digit_is_no_point (c : ascii) : is_digit c = true -> Ascii.eqb c "." = false.
Proof.
  intros Hd. destruct (Ascii.eqb c ".") eqn:E; [|reflexivity].
  apply Ascii.eqb_eq in E. subst c. discriminate.
Qed.

Lemma digits_value_total (s : string) (acc : Z) :
  all_chars is_digit s = true -> exists v, digits_value acc s = Some v.
Proof.
  revert acc. induction s as [|c s IH]; intros acc H; simpl in *; [eauto|].
  apply andb_true_iff in H as [Hc Hs]. rewrite Hc. now apply IH.
Qed.

Lemma split_point_digits (d : string) :
  all_chars is_digit d = true -> split_point d = (d, None).
Proof.
  induction d as [|c d IH]; intros H; simpl in *; [reflexivity|].
  apply andb_true_iff in H as [Hc Hd].
  rewrite (digit_is_no_point c Hc), (IH Hd). reflexivity.
Qed.

Lemma split_point_fraction (d t : string) :
  all_chars is_digit d = true -> split_point (d ++ String "." t) = (d, Some t).
Proof.
  induction d as [|c d IH]; intros H; [reflexivity|].
  simpl in H. apply andb_true_iff in H as [Hc Hd].
  rewrite string_app_cons. simpl. rewrite (digit_is_no_point c Hc), (IH Hd). reflexivity.
Qed.

(** [float] accepts an unsigned numeral of the shape [\d*\.?\d+]. *)
Lemma float_of_unsigned (neg : bool) (d1 o2 d2 : string) (ch : ascii) :
  all_chars is_digit d1 = true ->
  o2 = EmptyString \/ o2 = "." ->
  is_digit ch = true -> all_chars is_digit d2 = true ->
  exists v scale,
    (let '(int_part, frac_part) := split_point (d1 ++ o2 ++ String ch d2) in
     let frac := default EmptyString frac_part in
     match (int_part ++ frac)%string with
     | EmptyString => Raise ValueError
     | String c digits =>
         match digits_value 0 (String c digits) with
         | Some v =>
             let scale := Z.to_pos (10 ^ Z.of_nat (String.length frac)) in
             Ok (round (Qmake (if neg then - v else v) scale))
         | None => Raise ValueError
         end
     end) = Ok (round (Qmake v scale)).
Proof.
  intros H1 Ho Hch H2.
  assert (Hall : all_chars is_digit (d1 ++ String ch d2) = true).
  { apply all_chars_app; [exact H1|]. simpl. now rewrite Hch. }
  assert (Hne : exists c t, (d1 ++ String ch d2)%string = String c t).
  { destruct d1; [rewrite string_app_nil_l|rewrite string_app_cons]; eauto. }
  destruct Hne as (c & t & Hct). rewrite Hct in Hall.
  destruct (digits_value_total _ 0%Z Hall) as [v Hv].
  destruct Ho as [-> | ->]; do 2 eexists.
  - rewrite string_app_nil_l, Hct, (split_point_digits _ Hall).
    unfold default. rewrite string_app_nil_r, Hv. reflexivity.
  - change ("." ++ String ch d2)%string with (String "." (String ch d2)).
    rewrite (split_point_fraction _ _ H1).
    cbv beta iota zeta delta [default from_option id].
    rewrite Hct, Hv. reflexivity.
Qed.

Lemma split_sign_unsigned (c : ascii) (rest : string) :
  is_digit c = true \/ c = "."%char ->
  split_sign (String c rest) = (false, String c rest).
Proof.
  intros [Hd| ->]; [|reflexivity].
  destruct c as [[] [] [] [] [] [] [] []]; try discriminate Hd; reflexivity.
Qed.

Lemma matches_seq_inv r1 r2 c caps caps2 :
  matches (Seq r1 r2) c caps caps2 ->
  exists c1 c2 caps1,
    c = (c1 ++ c2)%string /\ matches r1 c1 caps caps1 /\ matches r2 c2 caps1 caps2.
Proof. inversion 1; subst; eauto 7. Qed.

Lemma matches_chr_inv ch c caps caps' :
  matches (Chr ch) c caps caps' -> c = String ch EmptyString /\ caps' = caps.
Proof. inversion 1; subst; auto. Qed.

Lemma matches_cls_inv p c caps caps' :
  matches (Cls p) c caps caps' ->
  exists ch, c = String ch EmptyString /\ p ch = true /\ caps' = caps.
Proof. inversion 1; subst; eauto. Qed.

Lemma matches_lit_inv text c caps caps' :
  matches (Lit text) c caps caps' -> c = text /\ caps' = caps.
Proof. inversion 1; subst; auto. Qed.

Lemma matches_alt_inv r1 r2 c caps caps' :
  matches (Alt r1 r2) c caps caps' -> matches r1 c caps caps' \/ matches r2 c caps caps'.
Proof. inversion 1; subst; auto. Qed.

Lemma matches_opt_inv r c caps caps' :
  matches (Opt r) c caps caps' ->
  matches r c caps caps' \/ (c = EmptyString /\ caps' = caps).
Proof. inversion 1; subst; auto. Qed.

Lemma matches_star_inv p c caps caps' :
  matches (Star p) c caps caps' -> all_chars p c = true /\ caps' = caps.
Proof. inversion 1; subst; auto. Qed.

Lemma matches_plus_inv p c caps caps' :
  matches (Plus p) c caps caps' ->
  exists ch c', c = String ch c' /\ p ch = true /\ all_chars p c' = true /\ caps' = caps.
Proof. inversion 1; subst; eauto 7. Qed.

Lemma matches_group_inv n r c caps caps' :
  matches (Group n r) c caps caps' ->
  exists caps0, caps' = (n, c) :: caps0 /\ matches r c caps caps0.
Proof. inversion 1; subst; eauto. Qed.

(** The numeral of group 1 is one that [float] accepts. *)
Lemma float_of_numeral (g : string) (caps caps' : captures) :
  matches (pieces [Opt (Cls is_sign); Star is_digit; Opt (Chr "."); Plus is_digit])
          g caps caps' ->
  caps' = caps /\ exists x, float_of_decimal g = Ok x.
Proof.
  cbn [pieces]. intros H.
  apply matches_seq_inv in H as (sgn & g1 & capsA & -> & Hsgn & H).
  apply matches_seq_inv in H as (d1 & g2 & capsB & -> & Hd1 & H).
  apply matches_seq_inv in H as (pt & g3 & capsC & -> & Hpt & H).
  apply matches_plus_inv in H as (ch & d2 & -> & Hch & Hd2 & ->).
  apply matches_star_inv in Hd1 as [Hd1 ->].
  assert (Hpoint : capsC = capsA /\ (pt = EmptyString \/ pt = ".")).
  { apply matches_opt_inv in Hpt as [Hpt|[-> ->]]; [|auto].
    apply matches_chr_inv in Hpt as [-> ->]. auto. }
  destruct Hpoint as [-> Hpoint].
  assert (Hsign : capsA = caps /\ (sgn = EmptyString \/ sgn = "-" \/ sgn = "+")).
  { apply matches_opt_inv in Hsgn as [Hsgn|[-> ->]]; [|auto].
    apply matches_cls_inv in Hsgn as (c & -> & Hc & ->).
    split; [reflexivity|]. right.
    apply orb_true_iff in Hc as [Hc|Hc]; apply Ascii.eqb_eq in Hc; subst; auto. }
  destruct Hsign as [-> Hsign]. split; [reflexivity|].
  assert (Hfirst : exists c rest, (d1 ++ pt ++ String ch d2)%string = String c rest
                                  /\ (is_digit c = true \/ c = "."%char)).
  { destruct d1 as [|d d1].
    - rewrite string_app_nil_l. destruct Hpoint as [-> | ->].
      + rewrite string_app_nil_l. eauto.
      + eexists _, _. split; [reflexivity|]. now right.
    - rewrite string_app_cons. eexists _, _. split; [reflexivity|]. left.
      simpl in Hd1. now apply andb_true_iff in Hd1 as [Hd1 _]. }
  destruct Hfirst as (c & rest & Hfirst & Hc).
  unfold float_of_decimal.
  destruct Hsign as [-> | [-> | ->]].
  - rewrite string_app_nil_l, Hfirst, (split_sign_unsigned c rest Hc), <- Hfirst.
    destruct (float_of_unsigned false d1 pt d2 ch Hd1 Hpoint Hch Hd2) as (v & scale & Hv).
    exists (round (Qmake v scale)). exact Hv.
  - rewrite string_app_cons, string_app_nil_l. cbn [split_sign].
    destruct (float_of_unsigned true d1 pt d2 ch Hd1 Hpoint Hch Hd2) as (v & scale & Hv).
    exists (round (Qmake v scale)). exact Hv.
  - rewrite string_app_cons, string_app_nil_l. cbn [split_sign].
    destruct (float_of_unsigned false d1 pt d2 ch Hd1 Hpoint Hch Hd2) as (v & scale & Hv).
    exists (round (Qmake v scale)). exact Hv.
Qed.

(** Whatever the text, [shift_top] returns a pair: a match always captures
    both groups, and group 1 is a numeral that [float] accepts. *)
Lemma shift_top_total (text : string) :
  shift_top text = Ok nan_pair
  \/ exists x b, shift_top text = Ok (VFloat x, VBool b).
Proof.
  unfold shift_top.
  destruct (search shift_top_pattern text) as [m|] eqn:E; [right|now left].
  apply search_sound in E as [consumed H].
  unfold shift_top_pattern in H. cbn [pieces] in H.
  apply matches_seq_inv in H as (? & ? & caps1 & _ & H1 & H).
  apply matches_chr_inv in H1 as [_ ->].
  apply matches_seq_inv in H as (? & ? & caps2 & _ & H2 & H).
  apply matches_star_inv in H2 as [_ ->].
  apply matches_seq_inv in H as (? & ? & caps3 & _ & H3 & H).
  apply matches_chr_inv in H3 as [_ ->].
  apply matches_seq_inv in H as (? & ? & caps4 & _ & H4 & H).
  apply matches_chr_inv in H4 as [_ ->].
  apply matches_seq_inv in H as (? & ? & caps5 & _ & H5 & H).
  apply matches_star_inv in H5 as [_ ->].
  apply matches_seq_inv in H as (g1 & ? & caps6 & _ & H6 & H).
  apply matches_group_inv in H6 as (caps6' & -> & H6).
  apply float_of_numeral in H6 as [-> (q & Hq)].
  apply matches_seq_inv in H as (? & ? & caps7 & _ & H7 & H).
  apply matches_chr_inv in H7 as [_ ->].
  apply matches_seq_inv in H as (? & g2 & caps8 & _ & H8 & H).
  apply matches_star_inv in H8 as [_ ->].
  apply matches_group_inv in H as (caps9 & -> & H).
  apply matches_alt_inv in H as [H|H]; apply matches_lit_inv in H as [-> ->];
    cbn [group Nat.eqb]; rewrite Hq; unfold mbind, result_bind; eauto.
Qed.

(** fairchem prints a slab as [Slab: (<formula>, (<h>, <k>, <l>), <shift>, <top>)].
    The shift read from it is the Python float [0.3333]. *)
Example shift_top_fairchem_text :
  shift_top "Slab: (Cu4, (2, 2, 1), 0.3333, True)"
  = Ok (VFloat (round (3333 # 10000)), VBool true)
  /\ round (3333 # 10000) = PFloat (6004199023210345 # 18014398509481984).
Proof. split; vm_compute; reflexivity. Qed.

Example shift_top_negative_shift :
  shift_top "Slab: (Pt3Ni, (2, 2, 1), -.125, False)"
  = Ok (VFloat (PFloat (-1 # 8)), VBool false).
Proof. vm_compute. reflexivity. Qed.

(** An earlier parenthesised group that no comma follows does not hide the
    one the pattern is after. *)
Example shift_top_behind_other_group :
  shift_top "Slab (v2): (Cu4, (2, 2, 1), 0.3333, True)"
  = Ok (VFloat (round (3333 # 10000)), VBool true).
Proof. vm_compute. reflexivity. Qed.

(** C5: for a slab text that contains [(..., 0.3333, True)], the dots
    ending in a parenthesised group as in fairchem's
    [Slab: (Cu4, (2, 2, 1), 0.3333, True)], [shift_top] returns the float
    0.3333 and [True]; it is enough that no closing parenthesis before that
    group is directly followed by a comma. For a text in which the pattern
    matches nowhere it returns [(nan, nan)]; and on no text does it raise. *)
Theorem shift_top_parses_slab_text (pre body suffix other text : string) :
  no_close_comma pre = true ->
  all_chars not_close_paren body = true ->
  search shift_top_pattern other = None ->
  shift_top (pre ++ "(" ++ body ++ "), 0.3333, True" ++ suffix)
  = Ok (VFloat (round (3333 # 10000)), VBool true)
  /\ shift_top other = Ok (VFloat NaN, VFloat NaN)
  /\ exists meta, shift_top text = Ok meta.
Proof.
  intros Hpre Hbody Hnone. split; [|split].
  - unfold shift_top.
    change ("(" ++ body ++ "), 0.3333, True" ++ suffix)%string
      with (String "(" (body ++ "), 0.3333, True" ++ suffix)).
    rewrite (search_slab_text pre body suffix Hpre Hbody). reflexivity.
  - unfold shift_top. now rewrite Hnone.
  - destruct (shift_top_total text) as [H|(x & b & H)]; eauto.
Qed.

Lemma shift_top_parses_slab_text_witness :
  shift_top ("Slab: (Cu4, " ++ "(" ++ "2, 2, 1" ++ "), 0.3333, True" ++ ")")
  = Ok (VFloat (round (3333 # 10000)), VBool true)
  /\ shift_top "Slab without metadata" = Ok (VFloat NaN, VFloat NaN)
  /\ exists meta, shift_top "(a), 12, Falsehood" = Ok meta.
Proof.
  apply (shift_top_parses_slab_text "Slab: (Cu4, " "2, 2, 1" ")" "Slab without metadata"
                                    "(a), 12, Falsehood");
    reflexivity.
Defined.

Lemma in_unique (x : string) (xs : list string) : In x (unique xs) <-> In x xs.
Proof.
  induction xs as [|y xs IH]; simpl; [tauto|].
  rewrite filter_In, IH, negb_true_iff. split.
  - intros [->|[Hin _]]; auto.
  - intros [->|Hin]; [now left|].
    destruct (String.eqb x y) eqn:E; [left|right; auto].
    now apply String.eqb_eq in E.
Qed.

Section WithLibraries.

Variable py_int : string -> result Z.
Variable enumerate_slabs : string -> result (list string).

Local Abbreviation cache_step := (cache_step py_int enumerate_slabs).
Local Abbreviation build_cache := (build_cache py_int enumerate_slabs).
Local Abbreviation join_metadata := (join_metadata py_int enumerate_slabs).
Local Abbreviation nan_beyond_range := (nan_beyond_range enumerate_slabs).
Local Abbreviation parses_to := (parses_to py_int).

(** What one iteration does to the cache when it does not raise. *)
Lemma cache_step_effect (key : string) (cache cache' : gmap (string * Z) (pyvalue * pyvalue)) :
  cache_step key cache = Ok cache' ->
  exists bid idx,
    parses_to key bid idx
    /\ is_Some (cache' !! (bid, idx))
    /\ (forall k, is_Some (cache !! k) -> cache' !! k = cache !! k)
    /\ (nan_beyond_range cache -> nan_beyond_range cache').
Proof.
  unfold Metadata.cache_step.
  destruct (split_on "_" key) as [|bid [|mid [|idx_text [|orient [|? ?]]]]] eqn:Esplit;
    try discriminate.
  destruct (py_int idx_text) as [idx|] eqn:Eint; [|discriminate].
  unfold mbind at 1, result_bind at 1.
  intros H. exists bid, idx. split; [unfold parses_to; eauto 6|].
  destruct (cache !! (bid, idx)) as [old|] eqn:Eold.
  - injection H as <-. rewrite Eold. repeat split; eauto.
  - destruct (enumerate_slabs bid) as [slabs|] eqn:Eslabs; [|discriminate].
    unfold mbind at 1, result_bind at 1 in H.
    destruct (idx <? Z.of_nat (List.length slabs))%Z eqn:Erange.
    + destruct (list_item slabs idx ≫= _) as [meta|] eqn:Emeta; [|discriminate].
      injection H as <-. split; [rewrite lookup_insert_eq; eauto|]. split.
      * intros k [v Hk]. rewrite lookup_insert_ne; [reflexivity|congruence].
      * intros Hinv b i v sl Hlook Hen Hle.
        destruct (decide ((bid, idx) = (b, i))) as [[= <- <-]|Hne].
        -- rewrite Eslabs in Hen. injection Hen as <-.
           apply Z.ltb_lt in Erange. lia.
        -- rewrite lookup_insert_ne in Hlook by exact Hne. eapply Hinv; eauto.
    + injection H as <-. split; [rewrite lookup_insert_eq; eauto|]. split.
      * intros k [v Hk]. rewrite lookup_insert_ne; [reflexivity|congruence].
      * intros Hinv b i v sl Hlook Hen Hle.
        destruct (decide ((bid, idx) = (b, i))) as [[= <- <-]|Hne].
        -- rewrite lookup_insert_eq in Hlook. congruence.
        -- rewrite lookup_insert_ne in Hlook by exact Hne. eapply Hinv; eauto.
Qed.

Lemma cache_loop_effect (keys : list string)
      (cache cache' : gmap (string * Z) (pyvalue * pyvalue)) :
  for_each cache_step keys cache = Ok cache' ->
  (forall k, is_Some (cache !! k) -> cache' !! k = cache !! k)
  /\ (nan_beyond_range cache -> nan_beyond_range cache')
  /\ (forall key bid idx, In key keys -> parses_to key bid idx ->
                          is_Some (cache' !! (bid, idx))).
Proof.
  revert cache. induction keys as [|key keys IH]; intros cache H; simpl in H.
  - injection H as <-. repeat split; auto. intros ? ? ? [].
  - destruct (cache_step key cache) as [cache1|] eqn:Estep; [|discriminate].
    unfold mbind, result_bind in H.
    apply cache_step_effect in Estep as (bid & idx & Hparse & Hnew & Hkeep & Hinv).
    apply IH in H as (Hkeep' & Hinv' & Hall).
    split; [|split].
    + intros k Hk. rewrite Hkeep'; [now apply Hkeep|].
      rewrite Hkeep; assumption.
    + auto.
    + intros key0 b i [<-|Hin] Hp.
      * destruct Hparse as (m1 & t1 & o1 & Hs1 & Hi1).
        destruct Hp as (m2 & t2 & o2 & Hs2 & Hi2).
        rewrite Hs1 in Hs2. injection Hs2 as <- <- <- <-.
        rewrite Hi1 in Hi2. injection Hi2 as <-.
        rewrite Hkeep'; assumption.
      * eauto.
Qed.

(** The key of a row cell 4 wrote splits back into its bulk id and index. *)
Lemma written_row_parses (r : record) :
  PostProcessSpec.written_row py_int r ->
  parses_to (key r) (bulk_id r) (slab_index r).
Proof.
  intros (bulk & idx_text & Hb & Hi & Hkey & Hbulk & Hint).
  exists "H", idx_text, PostProcess.orient_tag. split; [|exact Hint].
  rewrite Hkey, Hbulk.
  change (bulk ++ "_H_" ++ idx_text ++ "_" ++ PostProcess.orient_tag)%string
    with (bulk ++ String "_" ("H" ++ String "_"
                                (idx_text ++ String "_" PostProcess.orient_tag)))%string.
  rewrite (PyStrFacts.split_on_join "_" bulk _ Hb).
  rewrite (PyStrFacts.split_on_join "_" "H" _ eq_refl).
  rewrite (PyStrFacts.split_on_join "_" idx_text _ Hi).
  reflexivity.
Qed.

End WithLibraries.

Section WithFairchem.

Variable py_int : string -> result Z.
Variable Bulk : call -> result pyobj.
Variable from_bulk_get_specific_millers : call -> result (list string).
Variable work_pkl : string.

Local Abbreviation enumerate_slabs :=
  (enumerate_by_position Bulk from_bulk_get_specific_millers work_pkl).

Lemma enumerate_by_position_raises (bid : string) :
  copies_first_argument Bulk -> enumerate_slabs bid = Raise AttributeError.
Proof. intros H. unfold enumerate_by_position. now rewrite H. Qed.

(** C10: the cache loop never reaches its guard. Cell 6 passes the bulk id
    to [Bulk] by position, where fairchem expects the atoms of the bulk, so
    the call raises [AttributeError] for every key that is not cached yet,
    whatever its slab index: nothing is stored, [(nan, nan)] included, and
    the join of a table with at least one row raises. *)
Theorem positional_bulk_call_raises (r : record) (rest : list record) :
  copies_first_argument Bulk ->
  parses_to py_int (key r) (bulk_id r) (slab_index r) ->
  (forall cache,
      cache !! (bulk_id r, slab_index r) = None ->
      cache_step py_int enumerate_slabs (key r) cache = Raise AttributeError)
  /\ build_cache py_int enumerate_slabs (r :: rest) = Raise AttributeError
  /\ join_metadata py_int enumerate_slabs (r :: rest) = Raise AttributeError.
Proof.
  intros Hbulk (mid & idx_text & orient & Hsplit & Hint).
  assert (Hstep : forall cache,
             cache !! (bulk_id r, slab_index r) = None ->
             cache_step py_int enumerate_slabs (key r) cache = Raise AttributeError).
  { intros cache Hnone. unfold cache_step. rewrite Hsplit, Hint.
    unfold mbind at 1, result_bind at 1. rewrite Hnone.
    now rewrite (enumerate_by_position_raises _ Hbulk). }
  assert (Hbuild : build_cache py_int enumerate_slabs (r :: rest) = Raise AttributeError).
  { unfold build_cache. cbn [map unique for_each].
    now rewrite (Hstep ∅ (lookup_empty _)). }
  split; [exact Hstep|]. split; [exact Hbuild|].
  unfold join_metadata. now rewrite Hbuild.
Qed.

End WithFairchem.

(** With an enumeration that returns, the row beyond it gets [(nan, nan)]:
    this is what the guard is there for. *)
Example join_metadata_demo :
  join_metadata int_of_decimal demo_slabs [row_in_range; row_beyond; row_in_range]
  = Ok [ (VFloat (round (3333 # 10000)), VBool true); nan_pair;
         (VFloat (round (3333 # 10000)), VBool true) ].
Proof. vm_compute. reflexivity. Qed.

(** The same table through the calls as cell 3 writes them, by keyword, and
    as cell 6 writes them, by position. *)
Example join_metadata_by_keyword :
  join_metadata int_of_decimal (enumerate_by_keyword demo_Bulk demo_from_bulk "bulks.pkl")
                [row_in_range; row_beyond]
  = Ok [ (VFloat (round (3333 # 10000)), VBool true); nan_pair ].
Proof. vm_compute. reflexivity. Qed.

Example join_metadata_by_position :
  join_metadata int_of_decimal (enumerate_by_position demo_Bulk demo_from_bulk "bulks.pkl")
                [row_beyond]
  = Raise AttributeError.
Proof. vm_compute. reflexivity. Qed.

Lemma positional_bulk_call_raises_witness :
  (forall cache,
      cache !! (bulk_id row_beyond, slab_index row_beyond) = None ->
      cache_step int_of_decimal
                 (enumerate_by_position demo_Bulk demo_from_bulk "bulks.pkl")
                 (key row_beyond) cache = Raise AttributeError)
  /\ build_cache int_of_decimal
                 (enumerate_by_position demo_Bulk demo_from_bulk "bulks.pkl")
                 (row_beyond :: [row_in_range]) = Raise AttributeError
  /\ join_metadata int_of_decimal
                   (enumerate_by_position demo_Bulk demo_from_bulk "bulks.pkl")
                   (row_beyond :: [row_in_range]) = Raise AttributeError.
Proof.
  apply (positional_bulk_call_raises int_of_decimal demo_Bulk demo_from_bulk "bulks.pkl"
           row_beyond [row_in_range]).
  - intros s rest kw. reflexivity.
  - exists "H", "5", "221". split; reflexivity.
Defined.

End MetadataFacts.

(** * Further properties of the notebook's code *)

Module DriverFacts.
Import PyStr PyStrSpec PyNum Driver.

Lemma digits_of_uint (d : Decimal.uint) (acc : Z) :
  (0 <= acc)%Z ->
  digits_value acc (NilEmpty.string_of_uint d)
  = Some (Z.of_nat (Nat.of_uint_acc d (Z.to_nat acc))).
Proof.
  revert acc. induction d; intros acc Hacc;
    cbn [NilEmpty.string_of_uint digits_value Nat.of_uint_acc].
  1: f_equal; lia.
  all: change (is_digit _) with true; cbv iota;
    match goal with
    | |- context [digit_value ?c] =>
        let v := eval vm_compute in (digit_value c) in change (digit_value c) with v
    end;
    rewrite IHd by lia; do 3 f_equal; rewrite Nat.tail_mul_spec; lia.
Qed.

Lemma uint_digits (d : Decimal.uint) : all_chars is_digit (NilEmpty.string_of_uint d) = true.
Proof. induction d; simpl; auto. Qed.

Lemma str_of_nat_digits (n : nat) : all_chars is_digit (str_of_nat n) = true.
Proof. apply uint_digits. Qed.

Lemma str_of_nat_cons (n : nat) :
  exists c rest, str_of_nat n = String c rest /\ is_digit c = true.
Proof.
  pose proof (str_of_nat_digits n) as Hd. unfold str_of_nat in *.
  destruct (Nat.to_uint n) as [| | | | | | | | | |] eqn:E; simpl in *;
    try (eexists _, _; split; [reflexivity|reflexivity]).
  pose proof (DecimalNat.Unsigned.of_to n) as Hn. rewrite E in Hn.
  simpl in Hn. subst n. discriminate E.
Qed.

Lemma str_of_nat_value (n : nat) : digits_value 0 (str_of_nat n) = Some (Z.of_nat n).
Proof.
  unfold str_of_nat. rewrite digits_of_uint by lia.
  change (Nat.of_uint_acc (Nat.to_uint n) (Z.to_nat 0)) with (Nat.of_uint (Nat.to_uint n)).
  now rewrite DecimalNat.Unsigned.of_to.
Qed.

(** [int(str(n)) == n] *)
Lemma int_of_str (n : nat) : int_of_decimal (str_of_nat n) = Ok (Z.of_nat n).
Proof.
  destruct (str_of_nat_cons n) as (c & rest & Hs & Hc).
  unfold int_of_decimal.
  assert (Hsign : split_sign (str_of_nat n) = (false, str_of_nat n)).
  { rewrite Hs. apply MetadataFacts.split_sign_unsigned. now left. }
  rewrite Hsign. rewrite str_of_nat_value. now rewrite Hs.
Qed.

Lemma digit_is_no_underscore (c : ascii) : is_digit c = true -> not_underscore c = true.
Proof.
  intros Hd. unfold not_underscore. destruct (Ascii.eqb c "_") eqn:E; [|reflexivity].
  apply Ascii.eqb_eq in E. subst c. discriminate.
Qed.

Lemma digits_no_underscore (s : string) :
  all_chars is_digit s = true -> all_chars not_underscore s = true.
Proof.
  induction s as [|c s IH]; simpl; [auto|].
  intros H. apply andb_true_iff in H as [Hc Hs].
  now rewrite (digit_is_no_underscore c Hc), IH.
Qed.

Lemma split_driver_name (bid : string) (sidx : nat) :
  all_chars not_underscore bid = true ->
  split_on "_" (slab_dir_name bid sidx) = [bid; "H"; str_of_nat sidx].
Proof.
  intros Hb. unfold slab_dir_name.
  change (bid ++ "_H_" ++ str_of_nat sidx)%string
    with (bid ++ String "_" ("H" ++ String "_" (str_of_nat sidx)))%string.
  rewrite (PyStrFacts.split_on_join "_" bid _ Hb).
  rewrite (PyStrFacts.split_on_join "_" "H" _ eq_refl).
  rewrite PyStrFacts.split_on_plain; [reflexivity|].
  apply digits_no_underscore, str_of_nat_digits.
Qed.

Lemma split_on_length (sep : ascii) (s : string) :
  List.length (split_on sep s) = S (count_char sep s).
Proof.
  induction s as [|c s IH]; simpl; [reflexivity|].
  destruct (Ascii.eqb c sep); simpl.
  - now rewrite IH.
  - destruct (split_on sep s); simpl in *; [discriminate|exact IH].
Qed.

Lemma count_char_app (sep : ascii) (x y : string) :
  count_char sep (x ++ y) = (count_char sep x + count_char sep y)%nat.
Proof.
  induction x as [|c x IH]; [reflexivity|].
  change (String c x ++ y)%string with (String c (x ++ y)).
  simpl. rewrite IH. lia.
Qed.

Lemma count_char_zero (sep : ascii) (s : string) :
  all_chars (fun c => negb (Ascii.eqb c sep)) s = true <-> count_char sep s = 0%nat.
Proof.
  induction s as [|c s IH]; simpl; [tauto|].
  destruct (Ascii.eqb c sep); simpl; [split; discriminate|exact IH].
Qed.

(** A bulk id with an underscore gives a directory name of more than three
    pieces. *)
Lemma split_driver_name_underscore (bid : string) (sidx : nat) :
  all_chars not_underscore bid = false ->
  (4 <= List.length (split_on "_" (slab_dir_name bid sidx)))%nat.
Proof.
  intros Hb. rewrite split_on_length. unfold slab_dir_name.
  rewrite !count_char_app.
  assert (count_char "_" bid <> 0%nat).
  { intros H0. apply (count_char_zero "_") in H0. unfold not_underscore in Hb. congruence. }
  change (count_char "_" "_H_") with 2%nat. lia.
Qed.

End DriverFacts.

Module PostProcessMore.
Import Ase Traj Table PyStr PyNum PostProcess PostProcessSpec Driver.
Import NearestFacts PostProcessFacts.

Lemma min_from_first (best : good_entry) (rest : list good_entry) :
  exists before after,
    best :: rest = before ++ min_from best rest :: after
    /\ forall y, In y before -> (good_E (min_from best rest) < good_E y)%Q.
Proof.
  revert best. induction rest as [|x rest IH]; intros best; simpl min_from.
  - exists [], []. split; [reflexivity|intros y []].
  - destruct (Nearest.Qltb (good_E x) (good_E best)) eqn:E.
    + destruct (IH x) as (before & after & Heq & Hlt).
      exists (best :: before), after. split; [simpl; now rewrite <- Heq|].
      intros y [<-|Hy]; [|now apply Hlt].
      apply Qltb_lt in E.
      destruct (min_from_spec x rest) as [_ Hmin].
      specialize (Hmin x ltac:(now left)). lra.
    + destruct (IH best) as (before & after & Heq & Hlt).
      destruct before as [|b before]; simpl in Heq.
      * injection Heq as Hb Hrest. exists [], (x :: after).
        split; [simpl; rewrite <- Hb; do 2 f_equal; exact Hrest|intros y []].
      * injection Heq as Hb Hrest. subst b.
        assert (Hle : (good_E best <= good_E x)%Q).
        { destruct (Qlt_le_dec (good_E x) (good_E best)) as [Hlt'|Hle]; [|exact Hle].
          apply Qltb_lt in Hlt'. congruence. }
        exists (best :: x :: before), after. split; [simpl; do 2 f_equal; exact Hrest|].
        intros y [<-|[<-|Hy]].
        -- apply Hlt. now left.
        -- specialize (Hlt best ltac:(now left)). lra.
        -- apply Hlt. now right.
Qed.

Lemma omap_split {A B : Type} (f : A -> option B) (l : list A) (g1 g2 : list B) (x : B) :
  omap f l = g1 ++ x :: g2 ->
  exists l1 p l2, l = l1 ++ p :: l2 /\ f p = Some x /\ omap f l1 = g1 /\ omap f l2 = g2.
Proof.
  revert g1. induction l as [|a l IH]; intros g1 H.
  - destruct g1; discriminate.
  - change (omap f (a :: l))
      with (match f a with Some y => y :: omap f l | None => omap f l end) in H.
    destruct (f a) as [b|] eqn:Ea.
    + destruct g1 as [|b' g1]; simpl in H.
      * injection H as -> Hrest. exists [], a, l. repeat split; auto.
      * injection H as -> Hrest.
        destruct (IH g1 Hrest) as (l1 & p & l2 & -> & Hp & <- & <-).
        exists (a :: l1), p, l2. repeat split; auto.
        change (omap f (a :: l1))
          with (match f a with Some y => y :: omap f l1 | None => omap f l1 end).
        now rewrite Ea.
    + destruct (IH g1 H) as (l1 & p & l2 & -> & Hp & <- & <-).
      exists (a :: l1), p, l2. repeat split; auto.
      change (omap f (a :: l1))
        with (match f a with Some y => y :: omap f l1 | None => omap f l1 end).
      now rewrite Ea.
Qed.

Section WithLibraries.

Variable is_adsorbate_dissociated : DetectTrajAnomaly -> bool.
Variable is_adsorbate_desorbed : DetectTrajAnomaly -> bool.
Variable has_surface_changed : DetectTrajAnomaly -> bool.
Variable is_adsorbate_intercalated : DetectTrajAnomaly -> bool.
Variable norm : vec3 -> Q.
Variable py_int : string -> result Z.
Variable fs : filesystem.

Local Abbreviation scan_traj :=
  (scan_traj is_adsorbate_dissociated is_adsorbate_desorbed has_surface_changed
             is_adsorbate_intercalated fs).
Local Abbreviation process_slab :=
  (process_slab is_adsorbate_dissociated is_adsorbate_desorbed has_surface_changed
                is_adsorbate_intercalated norm py_int fs).
Local Abbreviation post_process :=
  (post_process is_adsorbate_dissociated is_adsorbate_desorbed has_surface_changed
                is_adsorbate_intercalated norm py_int fs).
Local Abbreviation survives :=
  (survives is_adsorbate_dissociated is_adsorbate_desorbed has_surface_changed
            is_adsorbate_intercalated fs).
Local Abbreviation readable := (readable fs).
Local Abbreviation entry_of :=
  (entry_of is_adsorbate_dissociated is_adsorbate_desorbed has_surface_changed
            is_adsorbate_intercalated fs).
Local Abbreviation well_formed :=
  (well_formed is_adsorbate_dissociated is_adsorbate_desorbed has_surface_changed
               is_adsorbate_intercalated py_int fs).

(** An exception in one directory ends the whole loop: cell 4 has no
    [try]. *)
Lemma post_process_aborts (before after : list slab_dir) (d : slab_dir) (e : exn) :
  Forall well_formed before ->
  (forall records, process_slab d records = Raise e) ->
  post_process (before ++ d :: after) = Raise e.
Proof.
  intros Hwf Hraise. unfold PostProcess.post_process.
  destruct (for_each_process_slab is_adsorbate_dissociated is_adsorbate_desorbed
              has_surface_changed is_adsorbate_intercalated norm py_int fs
              before [] Hwf) as (rows & Hrows & _).
  rewrite (for_each_app _ before (d :: after) [] _ Hrows).
  simpl for_each. rewrite Hraise. reflexivity.
Qed.

(** A tie on the lowest energy goes to the trajectory that comes first in
    the directory listing: every surviving trajectory listed before the
    selected one has a strictly higher final energy. *)
Theorem min_energy_tie_goes_to_first (d : slab_dir) (records : list record) :
  well_formed d ->
  (exists path final, In path (traj_files d) /\ survives path final) ->
  exists (r : record) (earlier later : list string),
    process_slab d records = Ok (records ++ [r])
    /\ traj_files d = earlier ++ traj_file r :: later
    /\ forall path final, In path earlier -> survives path final ->
                          (min_E_ml r < potential_energy final)%Q.
Proof.
  intros ((bulk & mid & idx_text & idx & Hsplit & Hint) & Hread & Hforces) Hsome.
  rewrite (process_slab_run _ _ _ _ _ _ _ d records _ _ _ Hsplit Hread).
  destruct (omap entry_of (traj_files d)) as [|g gs] eqn:Egood.
  { exfalso. destruct Hsome as (path & final & Hin & Hs).
    assert (Hg : In (mk_good (potential_energy final) (frame_forces final) path)
                    (omap entry_of (traj_files d))).
    { apply in_omap_entry. exists path. split; [exact Hin|].
      apply entry_of_Some. eauto. }
    rewrite Egood in Hg. destruct Hg. }
  destruct (min_from_first g gs) as (gb & ga & Hdec & Hlt).
  set (best := min_from g gs) in *.
  rewrite <- Egood in Hdec.
  destruct (omap_split _ _ _ _ _ Hdec) as (earlier & p & later & Hfiles & Hp & Hb & Ha).
  apply entry_of_Some in Hp as (final & Hsurv & Hbest).
  assert (HF : good_F best = frame_forces final) by now rewrite Hbest.
  destruct (frame_forces final) as [|f0 fr] eqn:Eforces.
  { exfalso. apply (Hforces p final); [rewrite Hfiles; apply in_elt|exact Hsurv|exact Eforces]. }
  rewrite HF. simpl map. simpl np_max. unfold mbind at 1, result_bind at 1.
  rewrite Hint. unfold mbind, result_bind.
  eexists _, earlier, later. split; [reflexivity|]. simpl. split.
  - rewrite Hfiles. now rewrite Hbest.
  - intros path final' Hin Hs'.
    apply (Hlt (mk_good (potential_energy final') (frame_forces final') path)).
    rewrite <- Hb. apply in_omap_entry. exists path. split; [exact Hin|].
    apply entry_of_Some. exists final'. split; [exact Hs'|reflexivity].
Qed.

Lemma process_slab_bad_name (d : slab_dir) (records : list record) :
  List.length (split_on "_" (dir_name d)) <> 3%nat ->
  process_slab d records = Raise ValueError.
Proof.
  intros Hlen. unfold PostProcess.process_slab.
  destruct (split_on "_" (dir_name d)) as [|a [|b [|c [|e l]]]]; try reflexivity.
  simpl in Hlen. congruence.
Qed.

(** A bulk id that contains an underscore makes cell 4 fail: the directory
    the driver names [<bid>_H_<sidx>] no longer splits into three pieces, the
    unpacking raises [ValueError], and no table is produced. *)
Theorem underscore_in_bulk_id_aborts (before after : list slab_dir) (d : slab_dir)
        (bid : string) (sidx : nat) :
  all_chars not_underscore bid = false ->
  dir_name d = slab_dir_name bid sidx ->
  Forall well_formed before ->
  (forall records, process_slab d records = Raise ValueError)
  /\ post_process (before ++ d :: after) = Raise ValueError.
Proof.
  intros Hbid Hname Hwf.
  assert (Hraise : forall records, process_slab d records = Raise ValueError).
  { intros records. apply process_slab_bad_name. rewrite Hname.
    pose proof (DriverFacts.split_driver_name_underscore bid sidx Hbid). lia. }
  split; [exact Hraise|]. now apply post_process_aborts.
Qed.

(** A trajectory file without frames makes cell 4 fail with [IndexError] at
    [traj[0]], whatever the other trajectories of the slab are: unlike an
    anomalous trajectory it is not skipped. *)
Theorem empty_trajectory_aborts (before after : list slab_dir) (d : slab_dir)
        (bulk mid idx_text path : string) (earlier later : list string) :
  split_on "_" (dir_name d) = [bulk; mid; idx_text] ->
  traj_files d = earlier ++ path :: later ->
  Forall readable earlier ->
  fs !! path = Some [] ->
  Forall well_formed before ->
  (forall records, process_slab d records = Raise IndexError)
  /\ post_process (before ++ d :: after) = Raise IndexError.
Proof.
  intros Hsplit Hfiles Hread Hempty Hwf.
  assert (Hraise : forall records, process_slab d records = Raise IndexError).
  { intros records. unfold PostProcess.process_slab. rewrite Hsplit, Hfiles. cbv zeta.
    rewrite (for_each_app _ earlier (path :: later) [] _
               (scan_all_readable _ _ _ _ _ earlier [] Hread)).
    assert (Hscan : forall good, scan_traj path good = Raise IndexError).
    { intros good. unfold PostProcess.scan_traj, read_all. now rewrite Hempty. }
    change (for_each scan_traj (path :: later) ?g)
      with (scan_traj path g ≫= for_each scan_traj later).
    now rewrite Hscan. }
  split; [exact Hraise|]. now apply post_process_aborts.
Qed.

Lemma process_slab_fields (d : slab_dir) (records : list record)
      (bulk mid idx_text : string) (idx : Z) :
  split_on "_" (dir_name d) = [bulk; mid; idx_text] ->
  py_int idx_text = Ok idx ->
  Forall readable (traj_files d) ->
  (exists path final, In path (traj_files d) /\ survives path final) ->
  (forall path final, In path (traj_files d) -> survives path final ->
                      frame_forces final <> []) ->
  exists r, process_slab d records = Ok (records ++ [r])
            /\ bulk_id r = bulk /\ slab_index r = idx
            /\ key r = (bulk ++ "_H_" ++ idx_text ++ "_" ++ orient_tag)%string.
Proof.
  intros Hsplit Hint Hread Hsome Hforces.
  rewrite (process_slab_run _ _ _ _ _ _ _ d records _ _ _ Hsplit Hread).
  destruct (omap entry_of (traj_files d)) as [|g gs] eqn:Egood.
  { exfalso. destruct Hsome as (path & final & Hin & Hs).
    assert (Hg : In (mk_good (potential_energy final) (frame_forces final) path)
                    (omap entry_of (traj_files d))).
    { apply in_omap_entry. exists path. split; [exact Hin|].
      apply entry_of_Some. eauto. }
    rewrite Egood in Hg. destruct Hg. }
  destruct (min_from_spec g gs) as [Hin _].
  rewrite <- Egood in Hin.
  apply in_omap_entry in Hin as (path & Hpath & Hentry).
  apply entry_of_Some in Hentry as (final & Hsurv & Hbest).
  rewrite Hbest. cbn [good_F good_E good_file].
  destruct (frame_forces final) as [|f0 fr] eqn:Eforces.
  { exfalso. exact (Hforces _ _ Hpath Hsurv Eforces). }
  simpl map. simpl np_max. unfold mbind at 1, result_bind at 1.
  rewrite Hint. unfold mbind, result_bind.
  eexists. split; [reflexivity|]. simpl. auto.
Qed.

End WithLibraries.

Section DriverNames.

Variable is_adsorbate_dissociated : DetectTrajAnomaly -> bool.
Variable is_adsorbate_desorbed : DetectTrajAnomaly -> bool.
Variable has_surface_changed : DetectTrajAnomaly -> bool.
Variable is_adsorbate_intercalated : DetectTrajAnomaly -> bool.
Variable norm : vec3 -> Q.
Variable fs : filesystem.

(** The directory name the driver writes is read back by cell 4 and again
    by cell 6: for a bulk id without underscore and slab number [sidx], the
    row has that bulk id, [slab_index = sidx] and key [<bid>_H_<sidx>_221],
    and the key splits back into the same pair in the cache loop. *)
Theorem driver_name_round_trip (d : slab_dir) (records : list record)
        (bid : string) (sidx : nat) :
  all_chars not_underscore bid = true ->
  dir_name d = slab_dir_name bid sidx ->
  Forall (readable fs) (traj_files d) ->
  (exists path final,
      In path (traj_files d)
      /\ survives is_adsorbate_dissociated is_adsorbate_desorbed has_surface_changed
                  is_adsorbate_intercalated fs path final) ->
  (forall path final,
      In path (traj_files d) ->
      survives is_adsorbate_dissociated is_adsorbate_desorbed has_surface_changed
               is_adsorbate_intercalated fs path final ->
      frame_forces final <> []) ->
  exists r,
    process_slab is_adsorbate_dissociated is_adsorbate_desorbed has_surface_changed
                 is_adsorbate_intercalated norm int_of_decimal fs d records
    = Ok (records ++ [r])
    /\ bulk_id r = bid
    /\ slab_index r = Z.of_nat sidx
    /\ key r = (bid ++ "_H_" ++ str_of_nat sidx ++ "_" ++ orient_tag)%string
    /\ MetadataSpec.parses_to int_of_decimal (key r) (bulk_id r) (slab_index r).
Proof.
  intros Hbid Hname Hread Hsome Hforces.
  destruct (process_slab_fields is_adsorbate_dissociated is_adsorbate_desorbed
              has_surface_changed is_adsorbate_intercalated norm int_of_decimal fs
              d records bid "H" (str_of_nat sidx) (Z.of_nat sidx))
    as (r & Hrun & Hb & Hi & Hk); try assumption.
  - rewrite Hname. now apply DriverFacts.split_driver_name.
  - apply DriverFacts.int_of_str.
  - exists r. repeat split; try assumption.
    apply MetadataFacts.written_row_parses.
    exists bid, (str_of_nat sidx). repeat split; try assumption.
    + apply DriverFacts.digits_no_underscore, DriverFacts.str_of_nat_digits.
    + rewrite Hi. apply DriverFacts.int_of_str.
Qed.

End DriverNames.

Lemma min_energy_tie_goes_to_first_witness :
  exists (r : record) (earlier later : list string),
    demo_process_slab slab0 [] = Ok ([] ++ [r])
    /\ traj_files slab0 = earlier ++ traj_file r :: later
    /\ forall path final, In path earlier -> demo_survives path final ->
                          (min_E_ml r < potential_energy final)%Q.
Proof.
  apply (min_energy_tie_goes_to_first never demo_desorbed never never TilingSpec.norm1
           int_of_decimal tree_fs slab0 []).
  - apply tree_well_formed. now left.
  - exact slab0_has_survivor.
Defined.

Lemma underscore_in_bulk_id_aborts_witness :
  (forall records, demo_process_slab MoreSpec.underscore_dir records = Raise ValueError)
  /\ demo_post_process ([slab0] ++ MoreSpec.underscore_dir :: [slab1]) = Raise ValueError.
Proof.
  apply (underscore_in_bulk_id_aborts never demo_desorbed never never TilingSpec.norm1
           int_of_decimal tree_fs [slab0] [slab1] MoreSpec.underscore_dir "mp_1" 0).
  - reflexivity.
  - reflexivity.
  - constructor; [|constructor]. apply tree_well_formed. now left.
Defined.

Lemma empty_trajectory_aborts_witness :
  (forall records,
      process_slab never demo_desorbed never never TilingSpec.norm1 int_of_decimal
                   MoreSpec.broken_fs MoreSpec.broken_dir records = Raise IndexError)
  /\ post_process never demo_desorbed never never TilingSpec.norm1 int_of_decimal
                  MoreSpec.broken_fs ([] ++ MoreSpec.broken_dir :: [slab1])
     = Raise IndexError.
Proof.
  apply (empty_trajectory_aborts never demo_desorbed never never TilingSpec.norm1
           int_of_decimal MoreSpec.broken_fs [] [slab1] MoreSpec.broken_dir
           "mp-1" "H" "2" "InDomain221/mp-1_H_2/config_0.traj" [] []).
  - reflexivity.
  - reflexivity.
  - constructor.
  - reflexivity.
  - constructor.
Defined.

Lemma slab0_well_formed :
  well_formed never demo_desorbed never never int_of_decimal tree_fs slab0.
Proof. apply tree_well_formed. now left. Qed.

Lemma driver_name_round_trip_witness :
  exists r,
    demo_process_slab slab0 [] = Ok ([] ++ [r])
    /\ bulk_id r = "mp-1"
    /\ slab_index r = Z.of_nat 0
    /\ key r = ("mp-1" ++ "_H_" ++ str_of_nat 0 ++ "_" ++ orient_tag)%string
    /\ MetadataSpec.parses_to int_of_decimal (key r) (bulk_id r) (slab_index r).
Proof.
  apply (driver_name_round_trip never demo_desorbed never never TilingSpec.norm1 tree_fs
           slab0 [] "mp-1" 0).
  - reflexivity.
  - reflexivity.
  - exact (proj1 (proj2 slab0_well_formed)).
  - exact slab0_has_survivor.
  - exact (proj2 (proj2 slab0_well_formed)).
Defined.

End PostProcessMore.

Module TilingMore.
Import Ase Double Tiling TilingSpec TilingMoreSpec TilingFacts.

Lemma tags_flat_map {A : Type} (F : A -> list atom) (l : list A) (T : list Z) :
  (forall i, map tag (F i) = T) ->
  map tag (flat_map F l) = tiled_tags (List.length l) T.
Proof.
  intros HF. unfold tiled_tags.
  induction l as [|i l IH]; simpl; [reflexivity|].
  now rewrite map_app, HF, IH.
Qed.

Lemma tiled_tags_mul (n k : nat) (T : list Z) :
  tiled_tags n (tiled_tags k T) = tiled_tags (n * k) T.
Proof.
  unfold tiled_tags. induction n as [|n IH]; simpl; [reflexivity|].
  rewrite IH, repeat_app, concat_app. reflexivity.
Qed.

Lemma tags_translate (d : vec3) (l : list atom) :
  map tag (map (translate d) l) = map tag l.
Proof. rewrite List.map_map. reflexivity. Qed.

(** The tags of a repeated structure. *)
Lemma repeat_tags (at_ tiled : Atoms) (m0 m1 m2 : Z) :
  repeat at_ (m0, m1, m2) = Ok tiled ->
  get_tags tiled
  = tiled_tags (Z.to_nat m0 * (Z.to_nat m1 * Z.to_nat m2)) (get_tags at_).
Proof.
  unfold repeat. destruct (_ || _); [discriminate|]. intros [= <-].
  unfold get_tags. cbn [atom_list].
  rewrite (tags_flat_map _ _ (tiled_tags (Z.to_nat m1 * Z.to_nat m2) (map tag (atom_list at_)))).
  - now rewrite range_length, tiled_tags_mul.
  - intros i.
    rewrite (tags_flat_map _ _ (tiled_tags (Z.to_nat m2) (map tag (atom_list at_)))).
    + now rewrite range_length, tiled_tags_mul.
    + intros j.
      rewrite (tags_flat_map _ _ (map tag (atom_list at_))).
      * now rewrite range_length.
      * intros k. apply tags_translate.
Qed.

Lemma select_tags (p : Z -> bool) (at_ : Atoms) :
  get_tags (select (fun x => p (tag x)) at_) = List.filter p (get_tags at_).
Proof.
  unfold get_tags, select. cbn [atom_list].
  induction (atom_list at_) as [|x l IH]; simpl; [reflexivity|].
  destruct (p (tag x)); simpl; now rewrite IH.
Qed.

Lemma filter_tiled_tags (p : Z -> bool) (n : nat) (T : list Z) :
  List.filter p (tiled_tags n T) = tiled_tags n (List.filter p T).
Proof.
  unfold tiled_tags. induction n as [|n IH]; simpl; [reflexivity|].
  now rewrite List.filter_app, IH.
Qed.

Lemma tiled_tags_nil (n : nat) : tiled_tags n [] = [].
Proof. unfold tiled_tags. induction n as [|n IH]; simpl; auto. Qed.

Lemma filter_filter_neg {A : Type} (p : A -> bool) (l : list A) :
  List.filter p (List.filter (fun x => negb (p x)) l) = [].
Proof.
  induction l as [|x l IH]; simpl; [reflexivity|].
  destruct (p x) eqn:E; simpl; [exact IH|]. now rewrite E.
Qed.

Lemma filter_idem {A : Type} (p : A -> bool) (l : list A) :
  List.filter p (List.filter p l) = List.filter p l.
Proof.
  induction l as [|x l IH]; simpl; [reflexivity|].
  destruct (p x) eqn:E; simpl; [now rewrite E, IH|exact IH].
Qed.

Lemma tile_factor_positive (min_ab len : Q) (n : Z) :
  tile_factor min_ab len = Ok n -> (1 <= n)%Z.
Proof.
  unfold tile_factor. destruct (ceil_div min_ab len) as [c|]; [|discriminate].
  intros [= <-]. lia.
Qed.

Section WithNorm.

Variable norm : vec3 -> Q.

Lemma tile_substrate_inv (atoms tiled : Atoms) (min_ab : Q) :
  tile_substrate norm atoms min_ab = Ok tiled ->
  exists (na nb : Z) (t : Atoms),
    (1 <= na)%Z /\ (1 <= nb)%Z
    /\ repeat (select (fun x => negb (is_adsorbate x)) atoms) (na, nb, 1%Z) = Ok t
    /\ tiled = concat t (select is_adsorbate atoms)
    /\ tile_factor min_ab (norm (cell_a atoms)) = Ok na
    /\ tile_factor min_ab (norm (cell_b atoms)) = Ok nb.
Proof.
  unfold tile_substrate.
  destruct (tile_factor min_ab (norm (cell_a _))) as [na|] eqn:Ea; [|discriminate].
  unfold mbind at 1, result_bind at 1.
  destruct (tile_factor min_ab (norm (cell_b _))) as [nb|] eqn:Eb; [|discriminate].
  unfold mbind at 1, result_bind at 1.
  destruct (repeat _ (na, nb, 1%Z)) as [t|] eqn:Er; [|discriminate].
  intros [= <-]. exists na, nb, t.
  split; [exact (tile_factor_positive _ _ _ Ea)|].
  split; [exact (tile_factor_positive _ _ _ Eb)|].
  split; [exact Er|]. split; [reflexivity|]. split; reflexivity.
Qed.


Lemma tile_substrate_tags_eq (atoms tiled : Atoms) (min_ab : Q) :
  tile_substrate norm atoms min_ab = Ok tiled ->
  exists na nb : Z,
    (1 <= na)%Z /\ (1 <= nb)%Z
    /\ get_tags tiled
       = tiled_tags (Z.to_nat na * Z.to_nat nb)
                    (List.filter (fun t => negb (t =? 2)%Z) (get_tags atoms))
         ++ List.filter (fun t => (t =? 2)%Z) (get_tags atoms).
Proof.
  intros H. apply tile_substrate_inv in H as (na & nb & t & Hna & Hnb & Hrep & -> & _).
  exists na, nb. split; [exact Hna|]. split; [exact Hnb|].
  unfold get_tags at 1, concat. cbn [atom_list]. rewrite map_app.
  fold (get_tags t). fold (get_tags (select is_adsorbate atoms)).
  rewrite (repeat_tags _ _ _ _ _ Hrep). unfold is_adsorbate.
  rewrite (select_tags (fun t => negb (t =? 2)%Z) atoms).
  rewrite (select_tags (fun t => (t =? 2)%Z) atoms).
  replace (Z.to_nat na * (Z.to_nat nb * Z.to_nat 1))%nat
    with (Z.to_nat na * Z.to_nat nb)%nat by lia.
  reflexivity.
Qed.

(** Tiling copies the substrate and nothing else: the tags of the result are
    the substrate tags (those other than 2) repeated [na * nb] times,
    followed by the adsorbate tags once; the number of adsorbate atoms is
    the one of the input. *)
Theorem tile_substrate_tags (atoms tiled : Atoms) (min_ab : Q) :
  tile_substrate norm atoms min_ab = Ok tiled ->
  exists na nb : Z,
    (1 <= na)%Z /\ (1 <= nb)%Z
    /\ get_tags tiled
       = tiled_tags (Z.to_nat na * Z.to_nat nb)
                    (List.filter (fun t => negb (t =? 2)%Z) (get_tags atoms))
         ++ List.filter (fun t => (t =? 2)%Z) (get_tags atoms)
    /\ List.length (List.filter (fun t => (t =? 2)%Z) (get_tags tiled))
       = List.length (List.filter (fun t => (t =? 2)%Z) (get_tags atoms)).
Proof.
  intros H. destruct (tile_substrate_tags_eq _ _ _ H) as (na & nb & Hna & Hnb & Htags).
  exists na, nb. split; [exact Hna|]. split; [exact Hnb|]. split; [exact Htags|].
  rewrite Htags, List.filter_app, filter_tiled_tags.
  rewrite (filter_filter_neg (fun t => (t =? 2)%Z)), tiled_tags_nil, filter_idem.
  reflexivity.
Qed.

(** The only property of the Euclidean norm that tiling relies on. *)
Hypothesis norm_zero : forall v : vec3, vany v = false -> (norm v == 0)%Q.

Lemma Qeq_bool_false_of_neq (x : Q) : ~ (x == 0)%Q -> Qeq_bool x 0 = false.
Proof.
  intros H. destruct (Qeq_bool x 0) eqn:E; [|reflexivity].
  exfalso. apply H. now apply Qeq_bool_eq.
Qed.



End WithNorm.

Lemma tile_substrate_tags_witness :
  exists na nb : Z,
    (1 <= na)%Z /\ (1 <= nb)%Z
    /\ get_tags SiteInfoSpec.demo_tiled
       = tiled_tags (Z.to_nat na * Z.to_nat nb)
                    (List.filter (fun t => negb (t =? 2)%Z) (get_tags demo_slab))
         ++ List.filter (fun t => (t =? 2)%Z) (get_tags demo_slab)
    /\ List.length (List.filter (fun t => (t =? 2)%Z) (get_tags SiteInfoSpec.demo_tiled))
       = List.length (List.filter (fun t => (t =? 2)%Z) (get_tags demo_slab)).
Proof.
  apply (tile_substrate_tags norm1 demo_slab SiteInfoSpec.demo_tiled default_min_ab).
  vm_compute. reflexivity.
Defined.


(** A length so small that the quotient overflows makes tiling raise, as a
    length of zero does. *)
Example tile_substrate_overflow_demo :
  tile_factor 8 (1 # 2 ^ 1074) = Raise OverflowError
  /\ tile_factor 8 0 = Raise OverflowError
  /\ tile_factor 0 0 = Raise ValueError.
Proof. repeat split; vm_compute; reflexivity. Qed.

End TilingMore.

Module SiteInfoMore.
Import Ase Double Traj Table Tiling Nearest Classifier SiteInfo SiteInfoSpec.
Import TilingMoreSpec TilingMore SiteInfoFacts.

Lemma where_from_none (i : nat) (mask : list bool) :
  Forall (fun b => b = false) mask -> where_from i mask = [].
Proof.
  intros H. revert i. induction H as [|b mask Hb _ IH]; intros i; simpl; [reflexivity|].
  rewrite Hb. apply IH.
Qed.

Lemma where_from_some (i : nat) (mask : list bool) :
  In true mask -> where_from i mask <> [].
Proof.
  revert i. induction mask as [|b mask IH]; intros i Hin; simpl; [destruct Hin|].
  destruct b; [discriminate|]. destruct Hin as [Hin|Hin]; [discriminate|]. now apply IH.
Qed.

Lemma tiled_tags_forall (P : Z -> Prop) (n : nat) (T : list Z) :
  Forall P T -> Forall P (tiled_tags n T).
Proof.
  intros H. unfold tiled_tags. induction n as [|n IH]; simpl; [constructor|].
  apply Forall_app. split; assumption.
Qed.

Lemma mapM_length {A B : Type} (f : A -> result B) (xs : list A) (ys : list B) :
  mapM f xs = Ok ys -> List.length ys = List.length xs.
Proof.
  revert ys. induction xs as [|x xs IH]; intros ys H.
  - injection H as <-. reflexivity.
  - change (mapM f (x :: xs)) with (f x ≫= λ y, mapM f xs ≫= λ k, mret (y :: k)) in H.
    destruct (f x) as [y|]; [|discriminate].
    unfold mbind at 1, result_bind at 1 in H.
    destruct (mapM f xs) as [k|]; [|discriminate].
    injection H as <-. simpl. f_equal. now apply IH.
Qed.

Lemma classify_label (n : nat) :
  classify n (Some "unknown") = Some (site_label_of_cardinality n).
Proof.
  destruct n as [|[|[|[|[|k]]]]]; try reflexivity.
  unfold classify, dict_get.
  rewrite ClassifierFacts.site_labels_above by lia. reflexivity.
Qed.

(** The tags of a tiled structure hold a value exactly when the input does. *)
Lemma tiled_tag_absent (norm : vec3 -> Q) (atoms tiled : Atoms) (min_ab : Q) (t : Z) :
  tile_substrate norm atoms min_ab = Ok tiled ->
  (forall x, In x (atom_list atoms) -> tag x <> t) ->
  Forall (fun b => b = false) (map (Z.eqb t) (get_tags tiled)).
Proof.
  intros Htile Hno.
  destruct (tile_substrate_tags_eq norm _ _ _ Htile) as (na & nb & _ & _ & ->).
  assert (Hall : Forall (fun u => u <> t) (get_tags atoms)).
  { unfold get_tags. rewrite List.Forall_forall. intros u Hu.
    apply in_map_iff in Hu as (x & <- & Hx). now apply Hno. }
  assert (Hfilter : forall p, Forall (fun u => u <> t) (List.filter p (get_tags atoms))).
  { intros p. rewrite List.Forall_forall in *. intros u Hu.
    apply filter_In in Hu as [Hu _]. now apply Hall. }
  rewrite List.Forall_forall. intros b Hb.
  apply in_map_iff in Hb as (u & <- & Hu).
  apply in_app_iff in Hu.
  assert (Hne : u <> t).
  { destruct Hu as [Hu|Hu].
    - pose proof (tiled_tags_forall (fun u => u <> t) (Z.to_nat na * Z.to_nat nb) _
                    (Hfilter (fun t0 => negb (t0 =? 2)%Z))) as Hf.
      rewrite List.Forall_forall in Hf. now apply Hf.
    - pose proof (Hfilter (fun t0 => (t0 =? 2)%Z)) as Hf.
      rewrite List.Forall_forall in Hf. now apply Hf. }
  apply Z.eqb_neq. congruence.
Qed.

Section WithLibraries.

Variable norm : vec3 -> Q.
Variable mic_distance : Atoms -> nat -> nat -> result float64.
Variable fs : filesystem.

(** A last frame without any atom tagged 2 gives null site information: the
    search for the adsorbate index raises, whether or not tiling succeeded,
    and the row gets [(None, None)], not "unknown". *)
Theorem site_info_without_adsorbate (row : record) (atoms : Atoms) :
  read_last fs (traj_file row) = Ok atoms ->
  (forall x, In x (atom_list atoms) -> tag x <> 2%Z) ->
  site_info norm mic_distance fs row = (None, None).
Proof.
  intros Hread Hno. unfold site_info, site_info_body.
  rewrite Hread. unfold mbind at 1, result_bind at 1.
  destruct (tile_substrate norm atoms default_min_ab) as [tiled|e] eqn:Htile;
    [|reflexivity].
  unfold mbind at 1, result_bind at 1. cbv zeta.
  assert (Hnone : np_where (map (Z.eqb 2) (get_tags tiled)) = []).
  { apply where_from_none. exact (tiled_tag_absent norm atoms tiled _ 2%Z Htile Hno). }
  rewrite Hnone. reflexivity.
Qed.

(** A last frame without any surface atom (tag 1) gives null site
    information, not "unknown": when tiling succeeds and an adsorbate is
    found, the distance call raises on the empty index array inside the
    [try] block, before the guard for an empty list of pairs. *)
Theorem site_info_without_surface (row : record) (atoms : Atoms) :
  read_last fs (traj_file row) = Ok atoms ->
  (forall x, In x (atom_list atoms) -> tag x <> 1%Z) ->
  site_info norm mic_distance fs row = (None, None)
  /\ forall tiled ads_i,
       tile_substrate norm atoms default_min_ab = Ok tiled ->
       first_item (np_where (map (Z.eqb 2) (get_tags tiled))) = Ok ads_i ->
       site_info_body norm mic_distance fs row = Raise ValueError.
Proof.
  intros Hread Hno.
  assert (Hbody : forall tiled ads_i,
             tile_substrate norm atoms default_min_ab = Ok tiled ->
             first_item (np_where (map (Z.eqb 2) (get_tags tiled))) = Ok ads_i ->
             site_info_body norm mic_distance fs row = Raise ValueError).
  { intros tiled ads_i Htile Hads.
    apply (site_info_body_without_surface norm mic_distance fs row atoms tiled ads_i);
      try assumption.
    apply where_from_none. exact (tiled_tag_absent norm atoms tiled _ 1%Z Htile Hno). }
  split; [|exact Hbody].
  destruct (tile_substrate norm atoms default_min_ab) as [tiled|e] eqn:Htile.
  - destruct (first_item (np_where (map (Z.eqb 2) (get_tags tiled)))) as [ads_i|e] eqn:Hads.
    + unfold site_info. now rewrite (Hbody tiled ads_i eq_refl Hads).
    + unfold site_info, site_info_body. rewrite Hread.
      unfold mbind at 1, result_bind at 1. rewrite Htile.
      unfold mbind at 1, result_bind at 1. cbv zeta. now rewrite Hads.
  - unfold site_info.
    now rewrite (site_info_body_raises_on_tiling norm mic_distance fs row atoms e Hread Htile).
Qed.

(** What [site_info] reports is always consistent: never atoms without a
    site type; a site type without atoms is "unknown"; and a reported list
    of atoms is non-empty and the site type is the label of its length. *)
Theorem site_info_consistent (row : record) :
  match site_info norm mic_distance fs row with
  | (None, None) => True
  | (None, Some _) => False
  | (Some label, None) => label = "unknown"
  | (Some label, Some syms) =>
      syms <> [] /\ label = site_label_of_cardinality (List.length syms)
  end.
Proof.
  unfold site_info, site_info_body.
  destruct (read_last fs (traj_file row)) as [atoms|]; [|exact I].
  unfold mbind at 1, result_bind at 1.
  destruct (tile_substrate norm atoms default_min_ab) as [tiled|]; [|exact I].
  unfold mbind at 1, result_bind at 1. cbv zeta.
  destruct (first_item _) as [ads_i|]; [|exact I].
  unfold mbind at 1, result_bind at 1.
  destruct (nearest_idx mic_distance tiled ads_i _ default_tol) as [near|]; [|exact I].
  unfold mbind at 1, result_bind at 1.
  rewrite classify_label.
  destruct near as [|i near]; [reflexivity|].
  destruct (mapM (symbol_at tiled) (i :: near)) as [syms|] eqn:Esyms; [|exact I].
  apply mapM_length in Esyms.
  unfold mbind, result_bind, try_except. split.
  - intros ->. discriminate Esyms.
  - now rewrite Esyms.
Qed.

End WithLibraries.

Lemma site_info_without_adsorbate_witness :
  site_info TilingSpec.norm1 demo_mic MoreSpec.odd_fs MoreSpec.bare_row = (None, None).
Proof.
  apply (site_info_without_adsorbate TilingSpec.norm1 demo_mic MoreSpec.odd_fs
           MoreSpec.bare_row MoreSpec.bare_slab).
  - reflexivity.
  - intros x [<-|[<-|[]]]; discriminate.
Defined.

Lemma site_info_without_surface_witness :
  site_info TilingSpec.norm1 demo_mic MoreSpec.odd_fs MoreSpec.untagged_row = (None, None)
  /\ forall tiled ads_i,
       tile_substrate TilingSpec.norm1 MoreSpec.untagged_slab default_min_ab = Ok tiled ->
       first_item (np_where (map (Z.eqb 2) (get_tags tiled))) = Ok ads_i ->
       site_info_body TilingSpec.norm1 demo_mic MoreSpec.odd_fs MoreSpec.untagged_row
       = Raise ValueError.
Proof.
  apply (site_info_without_surface TilingSpec.norm1 demo_mic MoreSpec.odd_fs
           MoreSpec.untagged_row MoreSpec.untagged_slab).
  - reflexivity.
  - intros x [<-|[<-|[]]]; discriminate.
Defined.

End SiteInfoMore.

Module NearestMore.
Import Ase Double DoubleSpec Nearest NearestSpec DoubleFacts NearestFacts.

Lemma filter_none {A : Type} (f : A -> bool) (l : list A) :
  (forall x, In x l -> f x = false) -> List.filter f l = [].
Proof.
  induction l as [|x l IH]; intros H; simpl; [reflexivity|].
  rewrite (H x ltac:(now left)). apply IH. intros y Hy. apply H. now right.
Qed.

(** On a list sorted by key, raising the cut-off only appends. *)
Lemma filter_cutoff_prefix {B : Type} (L : list (Q * B)) (c c' : pyfloat) :
  StronglySorted key_le L -> dle c c' ->
  exists extra,
    List.filter (fun p => le_float (fst p) c') L
    = List.filter (fun p => le_float (fst p) c) L ++ extra.
Proof.
  intros Hs Hc. induction Hs as [|x L Hs IH Hall].
  - exists []. reflexivity.
  - simpl. destruct (le_float (fst x) c) eqn:E.
    + rewrite (le_float_dle _ _ _ E Hc). destruct IH as [extra ->].
      exists extra. reflexivity.
    + rewrite (filter_none (fun p => le_float (fst p) c) L).
      * eexists. reflexivity.
      * intros y Hy. rewrite List.Forall_forall in Hall. specialize (Hall y Hy).
        unfold key_le in Hall.
        destruct (le_float (fst y) c) eqn:Ey; [|reflexivity].
        rewrite (le_float_le _ _ _ Hall Ey) in E. discriminate.
Qed.

Section WithDistances.

Variable mic_distance : Atoms -> nat -> nat -> result float64.

(** A larger tolerance only adds neighbours, and only at the far end: on a
    non-empty index list the result for [tol] is an initial segment of the
    result for any [tol' >= tol]. *)
Theorem nearest_idx_tolerance_prefix (atoms : Atoms) (ads_i : nat) (surf : list nat)
        (tol tol' : Q) (d : nat -> float64) :
  surf <> [] ->
  Forall (fun j => mic_distance atoms ads_i j = Ok (d j)) surf ->
  (tol <= tol')%Q ->
  exists near extra,
    nearest_idx mic_distance atoms ads_i surf tol = Ok near
    /\ nearest_idx mic_distance atoms ads_i surf tol' = Ok (near ++ extra).
Proof.
  intros Hne Hd Htol. rewrite !(nearest_idx_run _ _ _ _ _ d Hne Hd).
  set (dq := fun j => value (d j)).
  pose proof (sorted_by_key_perm (positive_pairs dq surf)) as Hperm.
  pose proof (sorted_by_key_sorted (positive_pairs dq surf)) as Hsorted.
  destruct (sorted_by_key (positive_pairs dq surf)) as [|p0 rest].
  - exists [], []. split; reflexivity.
  - assert (Hpos : (0 < fst p0)%Q).
    { assert (Hin : In p0 (positive_pairs dq surf))
        by (apply (Permutation_in _ Hperm); now left).
      apply in_positive_pairs in Hin. tauto. }
    destruct (filter_cutoff_prefix (p0 :: rest) (fmul (fst p0) (fadd 1 tol))
                (fmul (fst p0) (fadd 1 tol')) Hsorted) as [extra Hextra].
    { apply fmul_mono; [exact Hpos|now apply fadd_mono]. }
    eexists _, (map snd extra). split; [reflexivity|].
    rewrite Hextra, map_app. reflexivity.
Qed.

(** The head of the sorted pairs and what it is the least of. *)
Lemma sorted_pairs_head (surf : list nat) (d : nat -> float64)
      (p0 : Q * nat) (rest : list (Q * nat)) :
  sorted_by_key (positive_pairs (fun j => value (d j)) surf) = p0 :: rest ->
  In (snd p0) surf /\ fst p0 = value (d (snd p0)) /\ (0 < d (snd p0))%Q
  /\ (forall p, In p (p0 :: rest) -> (fst p0 <= fst p)%Q)
  /\ (forall k, In k surf -> (0 < d k)%Q -> In (value (d k), k) (p0 :: rest)).
Proof.
  intros EL.
  pose proof (sorted_by_key_perm (positive_pairs (fun j => value (d j)) surf)) as Hperm.
  pose proof (sorted_by_key_sorted (positive_pairs (fun j => value (d j)) surf)) as Hsorted.
  rewrite EL in Hperm, Hsorted.
  assert (Hp0 : In p0 (positive_pairs (fun j => value (d j)) surf))
    by (apply (Permutation_in _ Hperm); now left).
  apply in_positive_pairs in Hp0 as (Hp0in & Hp0d & Hp0pos).
  split; [exact Hp0in|]. split; [exact Hp0d|]. split; [now rewrite <- Hp0d|]. split.
  - intros p [<-|Hp]; [lra|].
    inversion Hsorted as [|? ? _ Hall]; subst.
    rewrite List.Forall_forall in Hall. exact (Hall p Hp).
  - intros k Hk Hkpos.
    apply (Permutation_in _ (Permutation_sym Hperm)), in_positive_pairs.
    simpl. auto.
Qed.


(** With a non-negative tolerance and some surface atom at a positive
    distance, the result is not empty and its first index is a nearest
    surface atom. *)
Theorem nearest_idx_head_is_nearest (atoms : Atoms) (ads_i : nat)
        (surf : list nat) (tol : Q) (d : nat -> float64) :
  Forall (fun j => mic_distance atoms ads_i j = Ok (d j)) surf ->
  (0 <= tol)%Q ->
  (exists k, In k surf /\ (0 < d k)%Q) ->
  exists m rest,
    nearest_idx mic_distance atoms ads_i surf tol = Ok (m :: rest)
    /\ In m surf /\ (0 < d m)%Q
    /\ forall k, In k surf -> (0 < d k)%Q -> (d m <= d k)%Q.
Proof.
  intros Hd Htol (k0 & Hk0 & Hk0pos).
  assert (Hne : surf <> []) by (intros ->; destruct Hk0).
  rewrite (nearest_idx_run _ _ _ _ _ d Hne Hd).
  destruct (sorted_by_key (positive_pairs (fun j => value (d j)) surf))
    as [|p0 rest] eqn:EL.
  { exfalso.
    pose proof (sorted_by_key_perm (positive_pairs (fun j => value (d j)) surf)) as Hperm.
    rewrite EL in Hperm.
    assert (Hin : In (value (d k0), k0) (positive_pairs (fun j => value (d j)) surf))
      by (apply in_positive_pairs; simpl; auto).
    apply (Permutation_in _ (Permutation_sym Hperm)) in Hin. destruct Hin. }
  destruct (sorted_pairs_head surf d p0 rest EL) as (Hin0 & Hd0 & Hpos0 & Hmin & Hall).
  assert (E0 : le_float (fst p0) (fmul (fst p0) (fadd 1 tol)) = true).
  { rewrite Hd0. apply fmul_keeps; [exact Hpos0|now apply fadd_one_above]. }
  cbn [List.filter]. rewrite E0. cbn [map].
  eexists _, _. split; [reflexivity|].
  split; [exact Hin0|]. split; [exact Hpos0|].
  intros k Hk Hkpos. specialize (Hmin _ (Hall k Hk Hkpos)). simpl in Hmin.
  rewrite Hd0 in Hmin. exact Hmin.
Qed.

End WithDistances.

Lemma nearest_idx_tolerance_prefix_witness :
  exists near extra,
    nearest_idx demo_distance TilingSpec.demo_slab 5 [0; 1; 2; 3; 4]%nat 0 = Ok near
    /\ nearest_idx demo_distance TilingSpec.demo_slab 5 [0; 1; 2; 3; 4]%nat default_tol
       = Ok (near ++ extra).
Proof.
  apply (nearest_idx_tolerance_prefix demo_distance TilingSpec.demo_slab 5
           [0; 1; 2; 3; 4]%nat 0 default_tol demo_d).
  - discriminate.
  - repeat constructor.
  - vm_compute. discriminate.
Defined.


Lemma nearest_idx_head_is_nearest_witness :
  exists m rest,
    nearest_idx demo_distance TilingSpec.demo_slab 5 [0; 1; 2; 3; 4]%nat default_tol
    = Ok (m :: rest)
    /\ In m [0; 1; 2; 3; 4]%nat /\ (0 < demo_d m)%Q
    /\ forall k, In k [0; 1; 2; 3; 4]%nat -> (0 < demo_d k)%Q -> (demo_d m <= demo_d k)%Q.
Proof.
  apply (nearest_idx_head_is_nearest demo_distance TilingSpec.demo_slab 5
           [0; 1; 2; 3; 4]%nat default_tol demo_d).
  - repeat constructor.
  - vm_compute. discriminate.
  - exists 1%nat. split; [right; now left|reflexivity].
Defined.

(** A tolerance too small to change [1 + tol] keeps the nearest atoms, and
    a tolerance of -0.1 returns nothing. *)
Example nearest_idx_negative_tolerance_demo :
  nearest_idx demo_distance TilingSpec.demo_slab 5 [0; 1; 2; 3; 4]%nat
              (- (1 # 100000000000000000)) = Ok [1; 4]%nat
  /\ nearest_idx demo_distance TilingSpec.demo_slab 5 [0; 1; 2; 3; 4]%nat (- (1 # 10))
     = Ok [].
Proof. split; vm_compute; reflexivity. Qed.

End NearestMore.

Module MetadataMore.
Import Double PyStr PyNum Regex Table Metadata MetadataSpec MetadataMoreSpec MetadataFacts.

Lemma digit_is_no_space (c : ascii) : is_digit c = true -> is_space c = false.
Proof.
  intros Hd. destruct c as [[] [] [] [] [] [] [] []]; try discriminate Hd; reflexivity.
Qed.

Lemma digit_is_no_sign (c : ascii) : is_digit c = true -> is_sign c = false.
Proof.
  intros Hd. destruct c as [[] [] [] [] [] [] [] []]; try discriminate Hd; reflexivity.
Qed.

Lemma strip_prefix_app (p s : string) : strip_prefix p (p ++ s) = Some s.
Proof.
  induction p as [|c p IH]; [reflexivity|].
  rewrite string_app_cons. simpl. now rewrite Ascii.eqb_refl.
Qed.

(** [\d+] on a run of digits that ends before [rest]. *)
Lemma plus_digits_match (ch : ascii) (d rest : string) (caps m : captures) (k : cont) :
  is_digit ch = true -> all_chars is_digit d = true -> stops is_digit rest ->
  k (String ch d) rest caps = Some m ->
  rmatch (Plus is_digit) (String ch (d ++ rest)) caps k = Some m.
Proof.
  intros Hch Hd Hstop Hk. cbn [rmatch]. rewrite Hch.
  now apply star_match_greedy.
Qed.

(** [\d*\.?\d+] on [d1.d2]. *)
Lemma fraction_match (d1 d2 rest : string) (ch : ascii) (caps m : captures) (k : cont) :
  all_chars is_digit d1 = true ->
  is_digit ch = true -> all_chars is_digit d2 = true -> stops is_digit rest ->
  k (d1 ++ "." ++ String ch d2)%string rest caps = Some m ->
  rmatch (pieces [Star is_digit; Opt (Chr "."); Plus is_digit])
         (d1 ++ String "." (String ch (d2 ++ rest))) caps k = Some m.
Proof.
  intros H1 Hch H2 Hstop Hk. cbn [pieces rmatch].
  apply star_match_greedy; [exact H1|reflexivity|].
  cbn [Ascii.eqb Bool.eqb]. rewrite Hch.
  rewrite (star_match_greedy is_digit d2 rest _ m H2 Hstop); [reflexivity|].
  exact Hk.
Qed.

(** [[-+]?\d*\.?\d+] on a signed [d1.d2]. *)
Lemma numeral_match (sign d1 d2 rest : string) (ch : ascii) (caps m : captures) (k : cont) :
  sign = EmptyString \/ sign = "-" \/ sign = "+" ->
  all_chars is_digit d1 = true ->
  is_digit ch = true -> all_chars is_digit d2 = true -> stops is_digit rest ->
  k (sign ++ d1 ++ "." ++ String ch d2)%string rest caps = Some m ->
  rmatch (pieces [Opt (Cls is_sign); Star is_digit; Opt (Chr "."); Plus is_digit])
         (sign ++ d1 ++ String "." (String ch (d2 ++ rest))) caps k = Some m.
Proof.
  intros Hsign H1 Hch H2 Hstop Hk.
  change (pieces [Opt (Cls is_sign); Star is_digit; Opt (Chr "."); Plus is_digit])
    with (Seq (Opt (Cls is_sign)) (pieces [Star is_digit; Opt (Chr "."); Plus is_digit])).
  cbn [rmatch].
  destruct Hsign as [-> | [-> | ->]].
  - rewrite string_app_nil_l.
    assert (Hno : match (d1 ++ String "." (String ch (d2 ++ rest)))%string with
                  | String c' _ => is_sign c' = false
                  | EmptyString => True
                  end).
    { destruct d1 as [|c d1]; [reflexivity|].
      rewrite string_app_cons. simpl in H1.
      apply andb_true_iff in H1 as [Hc _]. now apply digit_is_no_sign. }
    destruct (d1 ++ String "." (String ch (d2 ++ rest)))%string as [|c' s'] eqn:Etext.
    + destruct d1; discriminate Etext.
    + rewrite Hno, <- Etext.
      apply (fraction_match d1 d2 rest ch caps m); assumption.
  - rewrite string_app_cons, string_app_nil_l. cbn [is_sign Ascii.eqb Bool.eqb orb].
    rewrite (fraction_match d1 d2 rest ch caps m); [reflexivity|assumption..].
  - rewrite string_app_cons, string_app_nil_l. cbn [is_sign Ascii.eqb Bool.eqb orb].
    rewrite (fraction_match d1 d2 rest ch caps m); [reflexivity|assumption..].
Qed.

Lemma numeral_is_no_space (sign d1 rest : string) :
  sign = EmptyString \/ sign = "-" \/ sign = "+" ->
  all_chars is_digit d1 = true ->
  stops is_space (sign ++ d1 ++ String "." rest).
Proof.
  intros [-> | [-> | ->]] H1; try reflexivity.
  rewrite string_app_nil_l. destruct d1 as [|c d1]; [reflexivity|].
  rewrite string_app_cons. simpl in H1 |- *.
  apply andb_true_iff in H1 as [Hc _]. now apply digit_is_no_space.
Qed.

(** The flag, then anything. *)
Lemma flag_match (top : bool) (suffix : string) (caps m : captures) (k : cont) :
  k (flag_text top) suffix ((2%nat, flag_text top) :: caps) = Some m ->
  rmatch (Group 2 (Alt (Lit "True") (Lit "False"))) (flag_text top ++ suffix) caps k
  = Some m.
Proof.
  intros Hk. destruct top; cbn [rmatch flag_text] in *.
  - rewrite strip_prefix_app. now rewrite Hk.
  - change ("False" ++ suffix)%string
      with (String "F" (String "a" (String "l" (String "s" (String "e" suffix))))).
    cbn [strip_prefix Ascii.eqb Bool.eqb]. exact Hk.
Qed.

(** The pattern matches at an open parenthesis that is followed by
    parenthesis-free text, a closing parenthesis, a numeral with a fraction
    and a flag. *)
Lemma match_numeral_and_flag (x ws1 sign d1 d2 ws2 suffix : string) (ch : ascii)
      (top : bool) :
  all_chars not_close_paren x = true ->
  all_chars is_space ws1 = true -> all_chars is_space ws2 = true ->
  sign = EmptyString \/ sign = "-" \/ sign = "+" ->
  all_chars is_digit d1 = true ->
  is_digit ch = true -> all_chars is_digit d2 = true ->
  rmatch shift_top_pattern
         (String "(" (x ++ String ")" (String "," (ws1 ++ sign ++ d1 ++
            String "." (String ch (d2 ++ String "," (ws2 ++ flag_text top ++ suffix)))))))
         [] (fun _ _ caps => Some caps)
  = Some [(2%nat, flag_text top); (1%nat, (sign ++ d1 ++ "." ++ String ch d2)%string)].
Proof.
  intros Hx Hw1 Hw2 Hsign H1 Hch H2. unfold shift_top_pattern.
  remember (pieces [Opt (Cls is_sign); Star is_digit; Opt (Chr "."); Plus is_digit])
    as num eqn:Enum.
  remember (Group 2 (Alt (Lit "True") (Lit "False"))) as flag eqn:Eflag.
  cbn [pieces rmatch Ascii.eqb Bool.eqb].
  apply star_match_greedy; [exact Hx|reflexivity|].
  cbn [rmatch Ascii.eqb Bool.eqb].
  apply star_match_greedy; [exact Hw1|now apply numeral_is_no_space|].
  subst num. apply numeral_match; try assumption; [reflexivity|].
  cbn [rmatch Ascii.eqb Bool.eqb].
  apply star_match_greedy; [exact Hw2|now destruct top|].
  subst flag. apply flag_match. reflexivity.
Qed.

(** [float] on a numeral with a fraction: the double nearest to the integer
    its digits spell over the power of ten of the fraction's length. *)
Lemma float_of_fraction (sign d1 frac : string) (v : Z) :
  sign = EmptyString \/ sign = "-" \/ sign = "+" ->
  all_chars is_digit d1 = true ->
  frac <> EmptyString ->
  digits_value 0 (d1 ++ frac) = Some v ->
  float_of_decimal (sign ++ d1 ++ "." ++ frac)
  = Ok (round (Qmake (if String.eqb sign "-" then - v else v)
                     (Z.to_pos (10 ^ Z.of_nat (String.length frac))))).
Proof.
  intros Hsign H1 Hfrac Hv. unfold float_of_decimal.
  assert (Hbody : split_sign (sign ++ d1 ++ "." ++ frac)
                  = (String.eqb sign "-", (d1 ++ "." ++ frac)%string)).
  { destruct Hsign as [-> | [-> | ->]]; try reflexivity.
    rewrite string_app_nil_l.
    change ("." ++ frac)%string with (String "." frac).
    destruct d1 as [|c d1].
    - reflexivity.
    - rewrite string_app_cons. simpl in H1. apply andb_true_iff in H1 as [Hc _].
      now rewrite (split_sign_unsigned c _ (or_introl Hc)). }
  rewrite Hbody. change ("." ++ frac)%string with (String "." frac).
  rewrite (split_point_fraction _ _ H1).
  cbv beta iota zeta delta [default from_option id].
  revert Hv. destruct (d1 ++ frac)%string as [|c t] eqn:Etext.
  - destruct d1; [rewrite string_app_nil_l in Etext; contradiction|discriminate Etext].
  - intros ->. reflexivity.
Qed.

(** Behind a parenthesised group, [shift_top] reads any numeral with a
    fraction and either flag, whatever blanks follow the commas: the shift
    is the double nearest to the integer that the digits spell over the power
    of ten of the number of fraction digits, negated behind a minus sign (an
    infinity when that is out of range), and the flag is the Python boolean
    printed. *)
Theorem shift_top_reads_shift_and_flag (pre body ws1 sign d1 frac ws2 suffix : string)
        (top : bool) (v : Z) :
  no_close_comma pre = true ->
  all_chars not_close_paren body = true ->
  all_chars is_space ws1 = true -> all_chars is_space ws2 = true ->
  sign = EmptyString \/ sign = "-" \/ sign = "+" ->
  all_chars is_digit d1 = true ->
  all_chars is_digit frac = true -> frac <> EmptyString ->
  digits_value 0 (d1 ++ frac) = Some v ->
  shift_top (pre ++ "(" ++ body ++ ")," ++ ws1 ++ sign ++ d1 ++ "." ++ frac ++ ","
                 ++ ws2 ++ flag_text top ++ suffix)
  = Ok (VFloat (round (Qmake (if String.eqb sign "-" then - v else v)
                             (Z.to_pos (10 ^ Z.of_nat (String.length frac))))),
        VBool top).
Proof.
  intros Hpre Hbody Hw1 Hw2 Hsign H1 Hfrac Hne Hv.
  pose proof (float_of_fraction sign d1 frac v Hsign H1 Hne Hv) as Hfloat.
  destruct frac as [|ch d2]; [contradiction|].
  simpl in Hfrac. apply andb_true_iff in Hfrac as [Hch H2].
  unfold shift_top.
  change (pre ++ "(" ++ body ++ ")," ++ ws1 ++ sign ++ d1 ++ "." ++ String ch d2 ++ ","
              ++ ws2 ++ flag_text top ++ suffix)%string
    with (pre ++ String "(" (body ++ String ")" (String "," (ws1 ++ sign ++ d1 ++
            String "." (String ch (d2 ++ String "," (ws2 ++ flag_text top ++ suffix)))))))%string.
  rewrite (search_behind_prefix
             (String ")" (String "," (ws1 ++ sign ++ d1 ++
                String "." (String ch (d2 ++ String "," (ws2 ++ flag_text top ++ suffix))))))
             [(2%nat, flag_text top); (1%nat, (sign ++ d1 ++ "." ++ String ch d2)%string)]
             pre body); try assumption.
  - cbn [group Nat.eqb]. rewrite Hfloat. unfold mbind, result_bind.
    now destruct top.
  - intros x Hx. now apply match_numeral_and_flag.
Qed.

Lemma shift_top_reads_shift_and_flag_witness :
  shift_top ("Slab: (Pt3Ni, " ++ "(" ++ "2, 2, 1" ++ ")," ++ "  " ++ "-" ++ "0" ++ "."
               ++ "125" ++ "," ++ " " ++ flag_text false ++ ")")
  = Ok (VFloat (round (Qmake (if String.eqb "-" "-" then - 125 else 125)
                             (Z.to_pos (10 ^ Z.of_nat (String.length "125"))))),
        VBool false).
Proof.
  apply (shift_top_reads_shift_and_flag "Slab: (Pt3Ni, " "2, 2, 1" "  " "-" "0" "125" " " ")"
           false 125); try reflexivity.
  - right. now left.
  - discriminate.
Defined.

Lemma list_item_below {A : Type} (xs : list A) (i : Z) :
  (i < - Z.of_nat (List.length xs))%Z -> list_item xs i = Raise IndexError.
Proof.
  intros Hi. unfold list_item.
  destruct (i <? 0)%Z eqn:Eneg; [|apply Z.ltb_ge in Eneg; lia].
  destruct (i + Z.of_nat (List.length xs) <? 0)%Z eqn:E; [reflexivity|].
  apply Z.ltb_ge in E. lia.
Qed.


Section WithLibraries.

Variable py_int : string -> result Z.
Variable enumerate_slabs : string -> result (list string).

Local Abbreviation cache_step := (cache_step py_int enumerate_slabs).
Local Abbreviation build_cache := (build_cache py_int enumerate_slabs).
Local Abbreviation join_metadata := (join_metadata py_int enumerate_slabs).
Local Abbreviation follows_enumeration := (follows_enumeration enumerate_slabs).
Local Abbreviation parses_to := (parses_to py_int).

Lemma cache_step_follows (key : string)
      (cache cache' : gmap (string * Z) (pyvalue * pyvalue)) :
  cache_step key cache = Ok cache' ->
  follows_enumeration cache -> follows_enumeration cache'.
Proof.
  unfold Metadata.cache_step.
  destruct (split_on "_" key) as [|bid [|mid [|idx_text [|orient [|? ?]]]]] eqn:Esplit;
    try discriminate.
  destruct (py_int idx_text) as [idx|] eqn:Eint; [|discriminate].
  unfold mbind at 1, result_bind at 1.
  destruct (cache !! (bid, idx)) as [old|] eqn:Eold.
  { now intros [= <-]. }
  destruct (enumerate_slabs bid) as [slabs|] eqn:Eslabs; [|discriminate].
  unfold mbind at 1, result_bind at 1.
  intros H Hinv b i meta Hlook.
  assert (Hnew : exists new, cache' = <[(bid, idx) := new]> cache
                             /\ entry_follows slabs idx new).
  { destruct (idx <? Z.of_nat (List.length slabs))%Z eqn:Erange.
    - apply Z.ltb_lt in Erange.
      destruct (list_item slabs idx) as [slab|] eqn:Eitem; [|discriminate].
      unfold mbind at 2, result_bind at 2 in H.
      destruct (shift_top slab) as [new|] eqn:Eshift; [|discriminate].
      injection H as <-. exists new. split; [reflexivity|]. right. eauto.
    - apply Z.ltb_ge in Erange. injection H as <-.
      exists nan_pair. split; [reflexivity|]. left. auto. }
  destruct Hnew as (new & -> & Hnew).
  destruct (decide ((bid, idx) = (b, i))) as [[= <- <-]|Hne].
  - rewrite lookup_insert_eq in Hlook. injection Hlook as <-. eauto.
  - rewrite lookup_insert_ne in Hlook by exact Hne. eauto.
Qed.

Lemma cache_loop_follows (keys : list string)
      (cache cache' : gmap (string * Z) (pyvalue * pyvalue)) :
  for_each cache_step keys cache = Ok cache' ->
  follows_enumeration cache -> follows_enumeration cache'.
Proof.
  revert cache. induction keys as [|key keys IH]; intros cache H Hinv; simpl in H.
  - now injection H as <-.
  - destruct (cache_step key cache) as [cache1|] eqn:Estep; [|discriminate].
    unfold mbind, result_bind in H.
    eapply IH; [exact H|]. eapply cache_step_follows; eauto.
Qed.

Lemma build_cache_follows (rows : list record)
      (cache : gmap (string * Z) (pyvalue * pyvalue)) :
  build_cache rows = Ok cache -> follows_enumeration cache.
Proof.
  intros H. unfold Metadata.build_cache in H.
  destruct rows as [|r rows]; [discriminate|].
  eapply cache_loop_follows; [exact H|].
  intros b i meta Hlook. rewrite lookup_empty in Hlook. discriminate.
Qed.


(** Only an index at or beyond the number of slabs is forgiven. If the
    enumeration raises for the bulk of some row, or the row's slab index lies
    below [-len], the join raises and no column is produced. *)
Theorem join_raises_without_slab (rows : list record) (r : record) :
  In r rows ->
  parses_to (key r) (bulk_id r) (slab_index r) ->
  (exists e, enumerate_slabs (bulk_id r) = Raise e)
  \/ (exists slabs, enumerate_slabs (bulk_id r) = Ok slabs
                    /\ (slab_index r < - Z.of_nat (List.length slabs))%Z) ->
  exists e, join_metadata rows = Raise e.
Proof.
  intros Hin Hparse Hbad. unfold Metadata.join_metadata.
  destruct (build_cache rows) as [cache|e] eqn:Ecache; [exfalso|eauto].
  pose proof (build_cache_follows _ _ Ecache) as Hinv.
  unfold Metadata.build_cache in Ecache.
  destruct rows as [|r0 rows0] eqn:Erows; [destruct Hin|]. rewrite <- Erows in *.
  apply cache_loop_effect in Ecache as (_ & _ & Hall).
  destruct (Hall (key r) (bulk_id r) (slab_index r)) as [meta Hmeta];
    [apply in_unique, in_map, Hin|exact Hparse|].
  destruct (Hinv _ _ _ Hmeta) as (slabs & Hslabs & Hentry).
  destruct Hbad as [[e He]|(slabs' & Hslabs' & Hlow)]; [congruence|].
  rewrite Hslabs in Hslabs'. injection Hslabs' as <-.
  destruct Hentry as [[Hhigh _]|(_ & slab & Hitem & _)]; [lia|].
  rewrite (list_item_below slabs _ Hlow) in Hitem. discriminate.
Qed.

End WithLibraries.


Lemma join_raises_without_slab_witness :
  (exists e, join_metadata int_of_decimal demo_slabs [row_in_range; row_unknown_bulk]
             = Raise e)
  /\ (exists e, join_metadata int_of_decimal demo_slabs [row_below; row_in_range]
                = Raise e).
Proof.
  split.
  - apply (join_raises_without_slab int_of_decimal demo_slabs
             [row_in_range; row_unknown_bulk] row_unknown_bulk).
    + right. now left.
    + exists "H", "0", "221". split; reflexivity.
    + left. exists KeyError. reflexivity.
  - apply (join_raises_without_slab int_of_decimal demo_slabs
             [row_below; row_in_range] row_below).
    + now left.
    + exists "H", "-3", "221". split; reflexivity.
    + right. eexists. split; [reflexivity|]. simpl. lia.
Defined.

End MetadataMore.
